(** * Template engine: a shallow embedding of [template_engine.py]

    The development follows the layout of the Python module:
    the [VARIABLES] and [CONDITIONS] registries, then the core engine
    ([_evaluate_condition], [_process_conditionals], [_process_variables],
    [process_string], [process_file]).

    Python [str] values are modelled as lists of 8-bit characters, read as the
    code points U+0000..U+00FF; the builtins the module calls ([str.lower],
    [str.rstrip], [int], [re.sub], [re.split]) are given on that range. *)

From Stdlib Require Import Ascii String.
From Stdlib Require Import List Bool Arith ZArith Lia.
From Stdlib Require DecimalString DecimalNat.
Import ListNotations.

Set Implicit Arguments.

(* ========================================================================= *)
(** * Python strings and the builtins used by the module *)
(* ========================================================================= *)

Definition str := list ascii.

(** String literals of the source. *)
Definition lit (s : string) : str := list_ascii_of_string s.

(** The literal "\n". *)
Definition newline : str := lit (String "010" EmptyString).

Fixpoint str_eqb (a b : str) : bool :=
  match a, b with
  | [], [] => true
  | x :: a', y :: b' => Ascii.eqb x y && str_eqb a' b'
  | _, _ => false
  end.

Definition code (c : ascii) : nat := nat_of_ascii c.

Definition in_range (lo hi : nat) (c : ascii) : bool :=
  (lo <=? code c) && (code c <=? hi).

(** [[A-Z]] *)
Definition is_upper (c : ascii) : bool := in_range 65 90 c.
(** [[0-9]] *)
Definition is_digit (c : ascii) : bool := in_range 48 57 c.
Definition is_underscore (c : ascii) : bool := Ascii.eqb c "_".
(** [[A-Z_]], the class of the condition pattern. *)
Definition is_cond_char (c : ascii) : bool := is_upper c || is_underscore c.
(** [[A-Z0-9_]], the class of the variable pattern. *)
Definition is_name_char (c : ascii) : bool :=
  is_upper c || is_digit c || is_underscore c.
Definition is_brace (c : ascii) : bool := Ascii.eqb c "{" || Ascii.eqb c "}".
Definition is_dollar (c : ascii) : bool := Ascii.eqb c "$".

(** [str.isspace] on one character: TAB, LF, VT, FF, CR, FS, GS, RS, US,
    SPACE, NEL (U+0085) and NBSP (U+00A0). *)
Definition isspace (c : ascii) : bool :=
  in_range 9 13 c || in_range 28 32 c
  || Nat.eqb (code c) 133 || Nat.eqb (code c) 160.

(** [str.lower] on one character: A-Z, and the Latin-1 capitals
    U+00C0..U+00DE without the multiplication sign U+00D7. *)
Definition lower_char (c : ascii) : ascii :=
  if is_upper c || (in_range 192 222 c && negb (Nat.eqb (code c) 215))
  then ascii_of_nat (code c + 32) else c.

Definition lower (s : str) : str := map lower_char s.

Fixpoint drop_while (f : ascii -> bool) (s : str) : str :=
  match s with
  | [] => []
  | c :: s' => if f c then drop_while f s' else s
  end.

(** [s.rstrip()]: all trailing whitespace removed. *)
Definition rstrip (s : str) : str := rev (drop_while isspace (rev s)).

(** [s.replace(c, "")] for a one-character [c]. *)
Definition remove_char (c : ascii) (s : str) : str :=
  filter (fun x => negb (Ascii.eqb x c)) s.

(** [s.split(c)] for a one-character separator: never empty. *)
Fixpoint split_char (c : ascii) (s : str) : list str :=
  match s with
  | [] => [[]]
  | x :: s' =>
      if Ascii.eqb x c then [] :: split_char c s'
      else match split_char c s' with
           | [] => [[x]]
           | p :: ps => (x :: p) :: ps
           end
  end.

(** [sep.join(parts)] *)
Fixpoint join (sep : str) (parts : list str) : str :=
  match parts with
  | [] => []
  | [p] => p
  | p :: ps => p ++ sep ++ join sep ps
  end.

(** [s] without the prefix [p], when it starts with it. *)
Fixpoint strip_prefix (p s : str) : option str :=
  match p, s with
  | [], _ => Some s
  | _ :: _, [] => None
  | x :: p', y :: s' => if Ascii.eqb x y then strip_prefix p' s' else None
  end.

(** The longest prefix of [s] in the class [f], and what follows it: a greedy
    [[...]*]. *)
Fixpoint span (f : ascii -> bool) (s : str) : str * str :=
  match s with
  | [] => ([], [])
  | c :: s' =>
      if f c then let (a, b) := span f s' in (c :: a, b) else ([], s)
  end.

(** The text before the first occurrence of [pat] in [s] and the text after
    it: what a lazy [(.*?)] followed by the literal [pat] matches under
    DOTALL, and where [re.split(pat, s, maxsplit=1)] cuts. *)
Fixpoint find_first (pat s : str) : option (str * str) :=
  match strip_prefix pat s with
  | Some r => Some ([], r)
  | None =>
      match s with
      | [] => None
      | c :: s' =>
          match find_first pat s' with
          | Some (b, r) => Some (c :: b, r)
          | None => None
          end
      end
  end.

(** ** [int(s)] for a [str] argument, base 10

    [None] stands for [ValueError].  Leading and trailing whitespace is
    skipped, one sign is allowed, digits may be grouped by single underscores,
    and CPython refuses more than 4300 digits. *)

Definition int_space (c : ascii) : bool :=
  in_range 9 13 c || Nat.eqb (code c) 32
  || Nat.eqb (code c) 133 || Nat.eqb (code c) 160.

Definition int_max_str_digits : nat := 4300.

Definition digit_val (c : ascii) : Z := Z.of_nat (code c - 48).

(** The digits of a numeral, underscores dropped; [after_digit] tells whether
    the previous character was a digit (an underscore must sit between two
    digits). *)
Fixpoint int_digits (after_digit : bool) (s : str) : option (list Z) :=
  match s with
  | [] => if after_digit then Some [] else None
  | c :: s' =>
      if is_digit c then
        match int_digits true s' with
        | Some ds => Some (digit_val c :: ds)
        | None => None
        end
      else if is_underscore c && after_digit then int_digits false s'
      else None
  end.

Definition digits_value (ds : list Z) : Z :=
  fold_left (fun acc d => 10 * acc + d)%Z ds 0%Z.

Definition int_unsigned (s : str) : option Z :=
  match s with
  | [] => None
  | c :: _ =>
      if is_digit c then
        match int_digits false s with
        | Some ds =>
            if length ds <=? int_max_str_digits then Some (digits_value ds)
            else None
        | None => None
        end
      else None
  end.

Definition py_int (s : str) : option Z :=
  match rev (drop_while int_space (rev (drop_while int_space s))) with
  | [] => None
  | c :: s' =>
      if Ascii.eqb c "-" then option_map Z.opp (int_unsigned s')
      else if Ascii.eqb c "+" then int_unsigned s'
      else int_unsigned (c :: s')
  end.

(* ========================================================================= *)
(** * Dictionaries *)
(* ========================================================================= *)

(** A [dict] with [str] keys, as an association list with unique keys kept in
    insertion order. *)
Section Dict.
Variable A : Type.

Definition dict := list (str * A).

Fixpoint dict_get (d : dict) (k : str) : option A :=
  match d with
  | [] => None
  | (k', v) :: d' => if str_eqb k' k then Some v else dict_get d' k
  end.

(** [d.get(k, default)] *)
Definition dict_get_default (d : dict) (k : str) (default : A) : A :=
  match dict_get d k with
  | Some v => v
  | None => default
  end.

(** [d[k] = v] *)
Fixpoint dict_set (d : dict) (k : str) (v : A) : dict :=
  match d with
  | [] => [(k, v)]
  | (k', v') :: d' =>
      if str_eqb k' k then (k', v) :: d' else (k', v') :: dict_set d' k v
  end.

(** [d.update(e)] *)
Definition dict_update (d e : dict) : dict :=
  fold_left (fun acc kv => dict_set acc (fst kv) (snd kv)) e d.
End Dict.

(** [os.environ] *)
Definition environ := dict str.

(* ========================================================================= *)
(** * Configuration: the variable registry *)
(* ========================================================================= *)

(** [VARIABLES]: template variable name to (environment name, default). *)
Definition VARIABLES : dict (str * str) :=
  [ (lit "PROJECT_NAME",        (lit "PROJECT_NAME", lit "my-project"));
    (lit "PROJECT_NAME_SNAKE",  (lit "PROJECT_NAME_SNAKE", lit "my_project"));
    (lit "PROJECT_NAME_KEBAB",  (lit "PROJECT_NAME_KEBAB", lit "my-project"));
    (lit "PROJECT_DESCRIPTION", (lit "PROJECT_DESCRIPTION", lit "A new project"));
    (lit "GITHUB_ORG",          (lit "GITHUB_ORG", lit "myorg"));
    (lit "PYTHON_VERSION",      (lit "PYTHON_VERSION", lit "3.12"));
    (lit "GO_VERSION",          (lit "GO_VERSION", lit "1.22.0"));
    (lit "NODE_VERSION",        (lit "NODE_VERSION", lit "20"));
    (lit "RUST_VERSION",        (lit "RUST_VERSION", lit "stable"));
    (lit "POSTGRES_VERSION",    (lit "POSTGRES_VERSION", lit "16"));
    (lit "REDIS_VERSION",       (lit "REDIS_VERSION", lit "7"));
    (lit "DB_NAME",             (lit "DB_NAME", lit "app_dev"));
    (lit "DB_USER",             (lit "DB_USER", lit "app_user"));
    (lit "DB_PASSWORD",         (lit "DB_PASSWORD", lit "dev_password"));
    (lit "COVERAGE_THRESHOLD",  (lit "COVERAGE_THRESHOLD", lit "80")) ].

Definition compute_derived_variables (base_vars : dict str) : dict str :=
  let derived := [] in
  let py_ver := dict_get_default base_vars (lit "PYTHON_VERSION") (lit "3.12") in
  let derived :=
    dict_set derived (lit "PYTHON_VERSION_NODOT") (remove_char "." py_ver) in
  let go_ver := dict_get_default base_vars (lit "GO_VERSION") (lit "1.22.0") in
  let parts := split_char "." go_ver in
  let derived :=
    dict_set derived (lit "GO_VERSION_SHORT")
      (if 2 <=? length parts then join (lit ".") (firstn 2 parts) else go_ver) in
  let rust_ver := dict_get_default base_vars (lit "RUST_VERSION") (lit "stable") in
  let derived :=
    if existsb (str_eqb rust_ver) [lit "stable"; lit "nightly"; lit "beta"]
    then dict_set derived (lit "RUST_MSRV") (lit "1.75")
    else dict_set derived (lit "RUST_MSRV") rust_ver in
  derived.

(* ========================================================================= *)
(** * Configuration: the condition registry *)
(* ========================================================================= *)

(** A condition is a callable that reads [os.environ] when it is called. *)
Definition condition := environ -> bool.

Definition _env_is_true (var_name : str) : condition :=
  fun env =>
    str_eqb (lower (dict_get_default env var_name (lit "false"))) (lit "true").

(** [int] raises [ValueError] on a malformed numeral; the handler returns
    [False]. *)
Definition _coverage_enabled : condition :=
  fun env =>
    match py_int (dict_get_default env (lit "COVERAGE_THRESHOLD") (lit "0")) with
    | Some n => (0 <? n)%Z
    | None => false
    end.

Definition _has_services : condition :=
  fun env =>
    str_eqb (lower (dict_get_default env (lit "INCLUDE_POSTGRES") (lit "false")))
            (lit "true")
    || str_eqb (lower (dict_get_default env (lit "INCLUDE_REDIS") (lit "false")))
               (lit "true").

Definition CONDITIONS : dict condition :=
  [ (lit "IF_PYTHON",           _env_is_true (lit "INCLUDE_PYTHON"));
    (lit "IF_GO",               _env_is_true (lit "INCLUDE_GO"));
    (lit "IF_NODE",             _env_is_true (lit "INCLUDE_NODE"));
    (lit "IF_RUST",             _env_is_true (lit "INCLUDE_RUST"));
    (lit "IF_POSTGRES",         _env_is_true (lit "INCLUDE_POSTGRES"));
    (lit "IF_REDIS",            _env_is_true (lit "INCLUDE_REDIS"));
    (lit "IF_HAS_SERVICES",     _has_services);
    (lit "IF_AI_SESSIONS",      _env_is_true (lit "INCLUDE_AI_SESSIONS"));
    (lit "IF_AI_PROMPTS",       _env_is_true (lit "INCLUDE_AI_PROMPTS"));
    (lit "IF_QUALITY_CHECKS",   _env_is_true (lit "INCLUDE_QUALITY_CHECKS"));
    (lit "IF_COVERAGE_ENABLED", _coverage_enabled);
    (lit "IF_PRECOMMIT",        _env_is_true (lit "INCLUDE_PRECOMMIT"));
    (lit "IF_PULUMI",           _env_is_true (lit "INCLUDE_PULUMI"));
    (lit "IF_GH_CLI",           _env_is_true (lit "INCLUDE_GH_CLI"));
    (lit "IF_CLAUDE_CODE",      _env_is_true (lit "INCLUDE_CLAUDE_CODE"));
    (lit "IF_INFISICAL",        _env_is_true (lit "INCLUDE_INFISICAL"));
    (lit "IF_GCLOUD",           _env_is_true (lit "INCLUDE_GCLOUD")) ].

(** The toggle conditions and the environment variable each one reads. *)
Definition toggles : list (str * str) :=
  [ (lit "IF_PYTHON", lit "INCLUDE_PYTHON");
    (lit "IF_GO", lit "INCLUDE_GO");
    (lit "IF_NODE", lit "INCLUDE_NODE");
    (lit "IF_RUST", lit "INCLUDE_RUST");
    (lit "IF_POSTGRES", lit "INCLUDE_POSTGRES");
    (lit "IF_REDIS", lit "INCLUDE_REDIS");
    (lit "IF_AI_SESSIONS", lit "INCLUDE_AI_SESSIONS");
    (lit "IF_AI_PROMPTS", lit "INCLUDE_AI_PROMPTS");
    (lit "IF_QUALITY_CHECKS", lit "INCLUDE_QUALITY_CHECKS");
    (lit "IF_PRECOMMIT", lit "INCLUDE_PRECOMMIT");
    (lit "IF_PULUMI", lit "INCLUDE_PULUMI");
    (lit "IF_GH_CLI", lit "INCLUDE_GH_CLI");
    (lit "IF_CLAUDE_CODE", lit "INCLUDE_CLAUDE_CODE");
    (lit "IF_INFISICAL", lit "INCLUDE_INFISICAL");
    (lit "IF_GCLOUD", lit "INCLUDE_GCLOUD") ].

(* ========================================================================= *)
(** * Core engine *)
(* ========================================================================= *)

(** ** Effects

    A computation of the engine may print lines to [sys.stderr].  The
    conditional resolver recurses, one call of [_process_conditionals] inside
    another through [re.sub] and [replace_conditional], and the interpreter
    raises [RecursionError] when the calls nest deeper than its recursion
    limit allows; nothing in the engine catches it.  [None] is a computation
    that raised [RecursionError]: which of the warnings were printed before
    the interpreter gave up depends on the frame at which it did, and they
    are not recorded.  [Some (a, w)] is a computation that returned [a] and
    printed the lines [w]. *)

Definition M (A : Type) : Type := option (A * list str).

Definition ret {A} (a : A) : M A := Some (a, []).

Definition bind {A B} (m : M A) (k : A -> M B) : M B :=
  match m with
  | None => None
  | Some (a, w1) =>
      match k a with
      | None => None
      | Some (b, w2) => Some (b, w1 ++ w2)
      end
  end.

(** [print(line, file=sys.stderr)] *)
Definition eprint (line : str) : M unit := Some (tt, [line]).

Notation "x <- m ;; k" := (bind m (fun x => k))
  (at level 61, m at next level, right associativity).

(** ** The two patterns *)

(** A match of the conditional pattern
    "\{\{#(IF_[A-Z_]+)\}\}(.*?)\{\{/\1\}\}" (with DOTALL). *)
Record cond_match := {
  cm_name : str;   (* group 1 *)
  cm_block : str;  (* group 2 *)
  cm_rest : str    (* the text after the match *)
}.

(** The conditional pattern tried at the head of [s].  After "{{#IF_" the
    class "[A-Z_]+" takes the longest run; a shorter run would be followed by
    a character of the class, not by the closing brace, so backtracking into
    it never succeeds.  The lazy group then stops at the first closing tag of
    the same name. *)
Definition match_conditional (s : str) : option cond_match :=
  match strip_prefix (lit "{{#IF_") s with
  | None => None
  | Some r =>
      match span is_cond_char r with
      | ([], _) => None
      | (run, r') =>
          match strip_prefix (lit "}}") r' with
          | None => None
          | Some r'' =>
              let name := lit "IF_" ++ run in
              match find_first (lit "{{/" ++ name ++ lit "}}") r'' with
              | None => None
              | Some (block, rest) =>
                  Some {| cm_name := name; cm_block := block; cm_rest := rest |}
              end
          end
      end
  end.

(** A match of the variable pattern. *)
Record var_match := {
  vm_all : str;   (* group 0 *)
  vm_name : str;  (* group 1 *)
  vm_rest : str   (* the text after the match *)
}.

(** The variable pattern tried at the head of [s], its lookbehind "(?<!\$)"
    apart: two opening braces, the group "[A-Z][A-Z0-9_]*", two closing
    braces.  The class takes the longest run, and a shorter run would not be
    followed by the closing brace. *)
Definition match_variable (s : str) : option var_match :=
  match strip_prefix (lit "{{") s with
  | Some (c :: r) =>
      if is_upper c then
        let (run, r') := span is_name_char r in
        match strip_prefix (lit "}}") r' with
        | None => None
        | Some r'' =>
            let name := c :: run in
            Some {| vm_all := lit "{{" ++ name ++ lit "}}";
                    vm_name := name; vm_rest := r'' |}
        end
      else None
  | _ => None
  end.

(** ** [re.sub] with a callable replacement

    The scan goes left to right; at a match the callable's result is emitted
    and the scan resumes after the match, elsewhere the character is copied.
    [n] bounds the number of steps and is the length of the text. *)
Fixpoint sub_conditional_scan (repl : cond_match -> M str) (n : nat) (s : str)
  : M str :=
  match n with
  | 0 => ret s
  | S n' =>
      match match_conditional s with
      | Some m =>
          r <- repl m ;;
          t <- sub_conditional_scan repl n' (cm_rest m) ;;
          ret (r ++ t)
      | None =>
          match s with
          | [] => ret []
          | c :: s' =>
              t <- sub_conditional_scan repl n' s' ;;
              ret (c :: t)
          end
      end
  end.

Definition sub_conditional (repl : cond_match -> M str) (s : str) : M str :=
  sub_conditional_scan repl (length s) s.

(** [after_dollar]: the character before the head of [s] is a dollar sign. *)
Fixpoint sub_variable_scan (repl : var_match -> str) (n : nat)
  (after_dollar : bool) (s : str) : str :=
  match n with
  | 0 => s
  | S n' =>
      match s with
      | [] => []
      | c :: s' =>
          match (if after_dollar then None else match_variable s) with
          | Some m => repl m ++ sub_variable_scan repl n' false (vm_rest m)
          | None => c :: sub_variable_scan repl n' (is_dollar c) s'
          end
      end
  end.

(** The substitution of a text that stands after a dollar sign
    ([after_dollar]) or after anything else. *)
Definition sub_variable_from (repl : var_match -> str) (after_dollar : bool)
  (s : str) : str :=
  sub_variable_scan repl (length s) after_dollar s.

Definition sub_variable (repl : var_match -> str) (s : str) : str :=
  sub_variable_from repl false s.

(** ** The engine *)

Record TemplateEngine := { variables : dict str }.

Section Engine.
(** The module-level registry and the process environment. *)
Variable CONDITIONS : dict condition.
Variable os_environ : environ.
(** The number of calls of [_process_conditionals] that the interpreter lets
    nest inside the outermost one; the call after these raises
    [RecursionError].  It is given by [sys.getrecursionlimit] and by the
    depth of the stack at the outermost call: with the default limit of 1000
    frames, about 250. *)
Variable recursion_limit : nat.

Definition _load_variables : dict str :=
  let base_vars :=
    fold_left
      (fun base_vars item =>
         let '(var_name, (env_name, default)) := item in
         dict_set base_vars var_name
           (dict_get_default os_environ env_name default))
      VARIABLES [] in
  let derived := compute_derived_variables base_vars in
  dict_update base_vars derived.

Definition __init__ : TemplateEngine :=
  {| variables := _load_variables |}.

Definition unknown_condition_warning (condition_name : str) : str :=
  lit "Warning: Unknown condition '" ++ condition_name
  ++ lit "', treating as False".

Definition _evaluate_condition (condition_name : str) : M bool :=
  match dict_get CONDITIONS condition_name with
  | Some predicate => ret (predicate os_environ)
  | None =>
      _ <- eprint (unknown_condition_warning condition_name) ;;
      ret false
  end.

(** [re.split(r'\{\{#ELSE\}\}', block_content, maxsplit=1)], read as
    [(if_content, else_content)]. *)
Definition split_else (block_content : str) : str * str :=
  match find_first (lit "{{#ELSE}}") block_content with
  | Some (if_content, else_content) => (if_content, else_content)
  | None => (block_content, [])
  end.

Definition max_iterations : nat := 20.

(** The [for _ in range(max_iterations)] loop, [k] passes left. *)
Fixpoint passes (repl : cond_match -> M str) (k : nat) (content : str)
  : M str :=
  match k with
  | 0 => ret content
  | S k' =>
      new_content <- sub_conditional repl content ;;
      if str_eqb new_content content then ret content
      else passes repl k' new_content
  end.

(** The nested function [replace_conditional]; [recurse] is its call of
    [self._process_conditionals]. *)
Definition replace_conditional (recurse : str -> M str) (m : cond_match)
  : M str :=
  let condition_name := cm_name m in
  let block_content := cm_block m in
  let (if_content, else_content) := split_else block_content in
  b <- _evaluate_condition condition_name ;;
  let result := if b : bool then if_content else else_content in
  recurse result.

(** [_process_conditionals] when [fuel] more calls of it may nest, this one
    included: with none left the call raises [RecursionError]. *)
Fixpoint process_conditionals_fuel (fuel : nat) (content : str) : M str :=
  match fuel with
  | 0 => None
  | S fuel' =>
      passes (replace_conditional (process_conditionals_fuel fuel'))
        max_iterations content
  end.

(** The outermost call, in which [recursion_limit] calls may nest. *)
Definition _process_conditionals (content : str) : M str :=
  process_conditionals_fuel (S recursion_limit) content.

(** The nested function [replace_variable]. *)
Definition replace_variable (self : TemplateEngine) (m : var_match) : str :=
  let var_name := vm_name m in
  dict_get_default (variables self) var_name (vm_all m).

Definition _process_variables (self : TemplateEngine) (content : str) : str :=
  sub_variable (replace_variable self) content.

Definition process_string (self : TemplateEngine) (content : str) : M str :=
  content <- _process_conditionals content ;;
  let content := _process_variables self content in
  let content := rstrip content ++ newline in
  ret content.
End Engine.

(** ** Files

    [process_file] is the only part of the engine that touches the file
    system.  The file system is a dictionary from the paths that exist to what
    is found there: a regular file and its text, or something that cannot be
    read as text.  Directories are not recorded, so what [mkdir] creates is
    not either.  What the operating system may refuse is given by
    [io_faults].  Paths are modelled as [pathlib] renders them. *)

Definition path := str.

Inductive node :=
  (** a regular file that holds this text *)
| File (text : str)
  (** a directory, or whatever else [read_text] refuses with this message *)
| Other (error : str).

Definition filesystem := dict node.

Record io_faults := {
  (** [input_path.exists()] raises [OSError] with this message: [stat] fails
      with an error that [exists] does not read as an absent file, such as a
      directory on the way that may not be searched *)
  exists_error : option str;
  (** [read_text] raises with this message on a regular file *)
  read_error : option str;
  (** [output_path.parent.mkdir(parents=True, exist_ok=True)] raises *)
  mkdir_error : option str;
  (** [write_text] cannot open the file for writing *)
  open_error : option str;
  (** [write_text] has opened (and so truncated or created) the file and
      raises after this many characters reached it *)
  write_error : option (nat * str)
}.

Definition no_faults : io_faults :=
  {| exists_error := None; read_error := None; mkdir_error := None;
     open_error := None; write_error := None |}.

(** What [read_text] returns for a file that holds [text]: the file is opened
    in text mode with universal newlines, so a carriage return, alone or
    before a line feed, is read as one line feed.  [after_cr]: the character
    before the head of [s] was a carriage return. *)
Fixpoint universal_newlines (after_cr : bool) (s : str) : str :=
  match s with
  | [] => []
  | c :: s' =>
      if Ascii.eqb c "013" then "010"%char :: universal_newlines true s'
      else if Ascii.eqb c "010" && after_cr then universal_newlines false s'
      else c :: universal_newlines false s'
  end.

Definition read_text (text : str) : str := universal_newlines false text.

(** What [write_text] stores for [data]: in text mode each line feed is
    written as [os.linesep]. *)
Definition write_text (linesep : str) (data : str) : str :=
  flat_map (fun c => if Ascii.eqb c "010" then linesep else [c]) data.

Record TemplateError := {
  message : str;
  file : option str;
  line : option nat;
  context : option str
}.

(** What a call may raise: the engine's own [TemplateError], the [OSError]
    of [input_path.exists()] and the [RecursionError] of the resolver, which
    no handler of [process_file] covers. *)
Inductive exception :=
| Template (e : TemplateError)
| OSError (text : str)
| RecursionError.

(** What reached [sys.stderr]: the lines printed, all of them, or, when
    [RecursionError] was raised, the warnings printed up to then, which are
    not recorded, followed by the lines given. *)
Inductive stderr :=
| Printed (lines : list str)
| Unrecorded_then (lines : list str).

(** [print(line, file=sys.stderr)] after what was printed. *)
Definition print_after (e : stderr) (line : str) : stderr :=
  match e with
  | Printed lines => Printed (lines ++ [line])
  | Unrecorded_then lines => Unrecorded_then (lines ++ [line])
  end.

(** The state after a call: the file system and what was printed to
    [sys.stderr], with either [None] (the call returned) or the exception it
    raised. *)
Record outcome := {
  out_fs : filesystem;
  out_stderr : stderr;
  out_raised : option exception
}.

Section Files.
Variable CONDITIONS : dict condition.
Variable os_environ : environ.
Variable recursion_limit : nat.
(** [os.linesep]: the line feed on POSIX, a carriage return and a line feed
    on Windows. *)
Variable linesep : str.
Variable faults : io_faults.

(** [raise TemplateError(msg, file=str(p))] *)
Definition raise (fs : filesystem) (w : list str) (msg : str) (p : path)
  : outcome :=
  {| out_fs := fs; out_stderr := Printed w;
     out_raised := Some (Template {| message := msg; file := Some p;
                                     line := None; context := None |}) |}.

(** [output_path.parent.mkdir(...); output_path.write_text(result)] inside
    the [try] of [process_file]. *)
Definition write_output (fs : filesystem) (w : list str)
  (output_path : path) (result : str) : outcome :=
  match mkdir_error faults with
  | Some e => raise fs w (lit "Failed to write output: " ++ e) output_path
  | None =>
      match open_error faults with
      | Some e => raise fs w (lit "Failed to write output: " ++ e) output_path
      | None =>
          match write_error faults with
          | Some (n, e) =>
              raise
                (dict_set fs output_path
                   (File (firstn n (write_text linesep result))))
                w (lit "Failed to write output: " ++ e) output_path
          | None =>
              {| out_fs :=
                   dict_set fs output_path (File (write_text linesep result));
                 out_stderr := Printed w; out_raised := None |}
          end
      end
  end.

Definition process_file (self : TemplateEngine) (fs : filesystem)
  (input_path output_path : path) : outcome :=
  match exists_error faults with
  | Some e =>
      (* [input_path.exists()] stands outside the [try] blocks *)
      {| out_fs := fs; out_stderr := Printed [];
         out_raised := Some (OSError e) |}
  | None =>
      match dict_get fs input_path with
      | None => raise fs [] (lit "Template file not found") input_path
      | Some (Other e) =>
          raise fs [] (lit "Failed to read template: " ++ e) input_path
      | Some (File text) =>
          match read_error faults with
          | Some e =>
              raise fs [] (lit "Failed to read template: " ++ e) input_path
          | None =>
              let content := read_text text in
              (* [self.process_string(content)] stands outside them too *)
              match process_string CONDITIONS os_environ recursion_limit
                      self content with
              | None =>
                  {| out_fs := fs; out_stderr := Unrecorded_then [];
                     out_raised := Some RecursionError |}
              | Some (result, w) => write_output fs w output_path result
              end
          end
      end
  end.
End Files.

(* ========================================================================= *)
(** * Notions used to state the properties *)
(* ========================================================================= *)

(** The conditional pattern matches somewhere in [s]. *)
Fixpoint has_conditional (s : str) : bool :=
  match match_conditional s with
  | Some _ => true
  | None =>
      match s with
      | [] => false
      | _ :: s' => has_conditional s'
      end
  end.

(** The text after one scan-and-replace pass with the callable [repl]. *)
Definition pass_text (repl : cond_match -> M str) (content : str) : str :=
  match sub_conditional repl content with
  | Some (new_content, _) => new_content
  | None => content
  end.

(** The names the variable pattern accepts: "[A-Z][A-Z0-9_]*". *)
Definition valid_name (name : str) : bool :=
  match name with
  | [] => false
  | c :: run => is_upper c && forallb is_name_char run
  end.

(** The placeholder of a name. *)
Definition placeholder (name : str) : str := lit "{{" ++ name ++ lit "}}".

(** The lookbehind at the end of [s]: the last character of [s] is a dollar
    sign; for the empty [s], what held before it. *)
Fixpoint after_dollar_of (after_dollar : bool) (s : str) : bool :=
  match s with
  | [] => after_dollar
  | c :: s' => after_dollar_of (is_dollar c) s'
  end.

Definition ends_with_dollar (s : str) : bool := after_dollar_of false s.

(** The character occurs in the name of some variable of [V]. *)
Definition key_char (V : dict str) (c : ascii) : bool :=
  existsb (fun kv => existsb (Ascii.eqb c) (fst kv)) V.

(** A value without braces that holds a character found in no variable
    name. *)
Definition plain_value (V : dict str) (v : str) : bool :=
  forallb (fun c => negb (is_brace c)) v
  && existsb (fun c => negb (key_char V c)) v.

(** Every value of the resolved set is plain. *)
Definition plain_values (V : dict str) : bool :=
  forallb (fun kv => plain_value V (snd kv)) V.

(** An environment whose project description is the placeholder of another
    variable. *)
Definition self_referring_environ : environ :=
  [(lit "PROJECT_DESCRIPTION", lit "{{PROJECT_NAME}}")].

(** A match seen when more text stands after the text in hand. *)
Definition extend_match (more : str) (m : var_match) : var_match :=
  {| vm_all := vm_all m; vm_name := vm_name m;
     vm_rest := vm_rest m ++ more |}.

(** The documented examples of nesting. *)
Definition nested_else_template : str :=
  lit "{{#IF_A}}{{#IF_B}}XB{{#ELSE}}YB{{/IF_B}}{{#ELSE}}ZA{{/IF_A}}".

Definition short_circuit_template : str :=
  lit "{{#IF_A}}{{#IF_B}}X{{/IF_B}}{{#ELSE}}Y{{/IF_A}}".

(** A file system with a template and an older output, and a device that
    accepts [n] more characters. *)
Definition sample_files : filesystem :=
  [(lit "in.template", File (lit "Hello {{PROJECT_NAME}}"));
   (lit "out.txt", File (lit "an older output"))].

Definition device_full_after (n : nat) : io_faults :=
  {| exists_error := None; read_error := None; mkdir_error := None;
     open_error := None;
     write_error := Some (n, lit "[Errno 28] No space left on device") |}.

(* ========================================================================= *)
(** * Error rendering and the command line *)
(* ========================================================================= *)

(** [s.strip()]: leading and trailing whitespace removed. *)
Definition strip (s : str) : str := rstrip (drop_while isspace s).

(** [str(n)] for an [int] that is not negative. *)
Definition str_of_nat (n : nat) : str :=
  list_ascii_of_string
    (DecimalString.NilEmpty.string_of_uint (Nat.to_uint n)).

(** The result of a run of [main]: the exit code, the file system and what
    was printed to [sys.stderr], one entry for each call of [print]. *)
Record run := {
  exit_code : nat;
  run_fs : filesystem;
  run_stderr : stderr
}.

Section CommandLine.
(** The literal that [__str__] puts before the context line, two spaces, an
    arrow (U+2192, outside the range of the characters modelled) and a space,
    and the docstring of the module, which holds the same arrow. *)
Variable context_arrow : str.
Variable __doc__ : str.
Variable os_environ : environ.
Variable recursion_limit : nat.
(** The text of the [RecursionError] that the interpreter raises: "maximum
    recursion depth exceeded" and where it was. *)
Variable recursion_error_text : str.
Variable linesep : str.
Variable faults : io_faults.

(** [TemplateError.__str__]: a field is appended when it is truthy, that is
    neither [None] nor empty nor zero. *)
Definition TemplateError_str (self : TemplateError) : str :=
  let parts := [message self] in
  let parts :=
    match file self with
    | Some (c :: f) => parts ++ [lit "File: " ++ c :: f]
    | _ => parts
    end in
  let parts :=
    match line self with
    | Some (S n) => parts ++ [lit "Line: " ++ str_of_nat (S n)]
    | _ => parts
    end in
  let parts :=
    match context self with
    | Some (c :: x) => parts ++ [context_arrow ++ strip (c :: x)]
    | _ => parts
    end in
  join newline parts.

(** [main], with [sys.argv] given as its first entry [argv0] and the
    arguments after it.  The handler of [TemplateError] comes first; the
    handler of [Exception] takes the [OSError] and the [RecursionError]. *)
Definition main (argv0 : str) (args : list str) (fs : filesystem) : run :=
  match args with
  | [input_file; output_file] =>
      let engine := __init__ os_environ in
      let o := process_file CONDITIONS os_environ recursion_limit linesep
                 faults engine fs input_file output_file in
      match out_raised o with
      | None =>
          {| exit_code := 0; run_fs := out_fs o; run_stderr := out_stderr o |}
      | Some (Template e) =>
          {| exit_code := 1; run_fs := out_fs o;
             run_stderr :=
               print_after (out_stderr o)
                 (lit "Template Error: " ++ TemplateError_str e) |}
      | Some (OSError text) =>
          {| exit_code := 1; run_fs := out_fs o;
             run_stderr :=
               print_after (out_stderr o) (lit "Unexpected error: " ++ text) |}
      | Some RecursionError =>
          {| exit_code := 1; run_fs := out_fs o;
             run_stderr :=
               print_after (out_stderr o)
                 (lit "Unexpected error: " ++ recursion_error_text) |}
      end
  | _ =>
      {| exit_code := 1; run_fs := fs;
         run_stderr :=
           Printed
             [lit "Usage: " ++ argv0
              ++ lit " <input_template> <output_file>";
              __doc__] |}
  end.
End CommandLine.

(* ========================================================================= *)
(** * More notions used to state the properties *)
(* ========================================================================= *)

(** [pat] occurs in [s]. *)
Definition occurs (pat s : str) : Prop :=
  exists pre post, s = pre ++ pat ++ post.

(** No opening brace in [s]. *)
Definition brace_free (s : str) : bool :=
  forallb (fun c => negb (Ascii.eqb "{" c)) s.

(** The names the conditional pattern accepts after "IF_": "[A-Z_]+". *)
Definition valid_condition_run (run : str) : bool :=
  match run with
  | [] => false
  | _ :: _ => forallb is_cond_char run
  end.

Definition open_tag (name : str) : str := lit "{{#" ++ name ++ lit "}}".
Definition close_tag (name : str) : str := lit "{{/" ++ name ++ lit "}}".
Definition else_tag : str := lit "{{#ELSE}}".

(** A match of the conditional pattern seen when more text stands after the
    text in hand. *)
Definition extend_cond_match (more : str) (m : cond_match) : cond_match :=
  {| cm_name := cm_name m; cm_block := cm_block m;
     cm_rest := cm_rest m ++ more |}.

(** [x * k] *)
Fixpoint repeat_str (x : str) (k : nat) : str :=
  match k with
  | 0 => []
  | S k' => x ++ repeat_str x k'
  end.

(** The number of occurrences of a character. *)
Definition count_char (c : ascii) (s : str) : nat :=
  length (filter (Ascii.eqb c) s).

(** The names of the derived variables. *)
Definition derived_names : list str :=
  [lit "PYTHON_VERSION_NODOT"; lit "GO_VERSION_SHORT"; lit "RUST_MSRV"].

(** A line of the error stream is the warning about a name that the registry
    does not hold. *)
Definition unknown_warning (registry : dict condition) (line : str) : Prop :=
  exists name,
    dict_get registry name = None /\ line = unknown_condition_warning name.

(** A condition name of [k + 1] letters after "IF_"; the registry of the
    module holds none of these. *)
Definition deep_name (k : nat) : str := lit "IF_" ++ repeat "A"%char (S k).

(** [k] blocks under names of different lengths, each one the else-branch
    of the block around it. *)
Fixpoint deep_template (k : nat) : str :=
  match k with
  | 0 => []
  | S k' =>
      open_tag (deep_name k') ++ else_tag ++ deep_template k'
      ++ close_tag (deep_name k')
  end.

(** The warnings about these names, outermost first. *)
Fixpoint deep_warnings (k : nat) : list str :=
  match k with
  | 0 => []
  | S k' => unknown_condition_warning (deep_name k') :: deep_warnings k'
  end.

(** The characters a numeral that [int] accepts is made of: digits, the
    underscore, a sign, and the whitespace [int] strips. *)
Definition int_char (c : ascii) : bool :=
  is_digit c || is_underscore c || int_space c
  || Ascii.eqb c "+" || Ascii.eqb c "-".

Unset Implicit Arguments.

(* ========================================================================= *)
(** * Properties of the string builtins *)
(* ========================================================================= *)

Lemma str_eqb_refl (a : str) : str_eqb a a = true.
Proof.
  induction a as [|x a IH]; simpl; [reflexivity|].
  now rewrite Ascii.eqb_refl.
Qed.

Lemma str_eqb_eq (a b : str) : str_eqb a b = true <-> a = b.
Proof.
  split; [|intros ->; apply str_eqb_refl].
  revert b; induction a as [|x a IH]; intros [|y b]; simpl; try discriminate.
  - reflexivity.
  - intros H. apply andb_true_iff in H as [Hxy Hab].
    apply Ascii.eqb_eq in Hxy. f_equal; auto.
Qed.

Lemma str_eqb_neq (a b : str) : str_eqb a b = false <-> a <> b.
Proof.
  split.
  - intros H ->. rewrite str_eqb_refl in H. discriminate.
  - intros H. destruct (str_eqb a b) eqn:E; [|reflexivity].
    apply str_eqb_eq in E. contradiction.
Qed.

Lemma strip_prefix_Some (p s r : str) :
  strip_prefix p s = Some r <-> s = p ++ r.
Proof.
  revert s; induction p as [|x p IH]; intros s; simpl.
  - split; [now intros [= ->] | now intros ->].
  - destruct s as [|y s]; [split; discriminate|].
    destruct (Ascii.eqb_spec x y) as [->|Hne].
    + rewrite IH. split; [now intros -> | now intros [= ->]].
    + split; [discriminate | intros [= -> _]; contradiction].
Qed.

Lemma find_first_Some (pat s b r : str) :
  find_first pat s = Some (b, r) -> s = b ++ pat ++ r.
Proof.
  revert b; induction s as [|c s IH]; intros b; simpl.
  - destruct (strip_prefix pat []) eqn:E; [|discriminate].
    intros [= <- <-]. now apply strip_prefix_Some in E.
  - destruct (strip_prefix pat (c :: s)) eqn:E.
    + intros [= <- <-]. now apply strip_prefix_Some in E.
    + destruct (find_first pat s) as [[b' r']|]; [|discriminate].
      intros [= <- <-]. simpl. f_equal. now apply IH.
Qed.

Lemma span_app (f : ascii -> bool) (s a b : str) :
  span f s = (a, b) -> s = a ++ b /\ forallb f a = true.
Proof.
  revert a; induction s as [|c s IH]; intros a; simpl.
  - now intros [= <- <-].
  - destruct (f c) eqn:Hc.
    + destruct (span f s) as [a' b']. intros [= <- <-].
      destruct (IH a' eq_refl) as [-> Hall]. simpl. now rewrite Hc.
    + now intros [= <- <-].
Qed.

(** A run of the class followed by a character outside it is the greedy
    run. *)
Lemma span_run (f : ascii -> bool) (a : str) (c : ascii) (r : str) :
  forallb f a = true -> f c = false -> span f (a ++ c :: r) = (a, c :: r).
Proof.
  intros Ha Hc. induction a as [|x a IH]; simpl in *.
  - now rewrite Hc.
  - apply andb_true_iff in Ha as [Hx Ha]. now rewrite Hx, IH.
Qed.

(** ** [lower] *)

Lemma lower_char_is (c x : ascii) :
  In x [ "t"; "r"; "u"; "e" ]%char -> lower_char c = x ->
  c = x \/ c = ascii_of_nat (code x - 32).
Proof.
  intros Hx H.
  destruct c as [[] [] [] [] [] [] [] []]; vm_compute in H;
    simpl in Hx; decompose [or] Hx; subst; try discriminate; try contradiction;
    vm_compute; auto.
Qed.

(** [v.lower() == "true"] holds for the sixteen spellings of the word in
    upper and lower case, and for nothing else. *)
Lemma lower_true (v : str) :
  lower v = lit "true" <->
  exists a b c d, v = [a; b; c; d]
    /\ (a = "t" \/ a = "T")%char /\ (b = "r" \/ b = "R")%char
    /\ (c = "u" \/ c = "U")%char /\ (d = "e" \/ d = "E")%char.
Proof.
  split.
  - destruct v as [|a [|b [|c [|d [|e v]]]]]; try discriminate.
    intros [= Ha Hb Hc Hd].
    exists a, b, c, d. split; [reflexivity|].
    repeat split;
      match goal with
      | H : lower_char ?a = ?x |- ?a = _ \/ _ =>
          apply (@lower_char_is a x) in H; [exact H | simpl; tauto]
      end.
  - intros (a & b & c & d & -> & Ha & Hb & Hc & Hd).
    destruct Ha, Hb, Hc, Hd; subst; reflexivity.
Qed.

(** ** [rstrip] *)

Lemma drop_while_suffix (f : ascii -> bool) (s : str) :
  exists p, s = p ++ drop_while f s /\ forallb f p = true.
Proof.
  induction s as [|c s (p & Hp & Hall)]; simpl.
  - now exists [].
  - destruct (f c) eqn:Hc.
    + exists (c :: p). simpl. rewrite Hc. split; [now f_equal | assumption].
    + now exists [].
Qed.

Lemma drop_while_head (f : ascii -> bool) (s : str) :
  match drop_while f s with [] => True | c :: _ => f c = false end.
Proof.
  induction s as [|c s IH]; simpl; [exact I|].
  destruct (f c) eqn:Hc; [exact IH | exact Hc].
Qed.

(** [rstrip] removes a suffix made of whitespace only. *)
Lemma rstrip_suffix (s : str) :
  exists ws, s = rstrip s ++ ws /\ forallb isspace ws = true.
Proof.
  unfold rstrip.
  destruct (drop_while_suffix isspace (rev s)) as (p & Hp & Hall).
  exists (rev p). split.
  - rewrite <- rev_app_distr, <- Hp. now rewrite rev_involutive.
  - rewrite forallb_forall in *. intros x Hx. apply Hall. now apply in_rev.
Qed.

(** What [rstrip] returns is empty or ends in a character that is not
    whitespace. *)
Lemma rstrip_last (s : str) :
  rstrip s = [] \/ exists p c, rstrip s = p ++ [c] /\ isspace c = false.
Proof.
  unfold rstrip.
  pose proof (drop_while_head isspace (rev s)) as H.
  destruct (drop_while isspace (rev s)) as [|c t]; [now left|].
  right. exists (rev t), c. now simpl.
Qed.

(** ** [int] *)

Lemma drop_while_all (f : ascii -> bool) (a b : str) :
  forallb f a = true -> drop_while f (a ++ b) = drop_while f b.
Proof.
  induction a as [|x a IH]; [reflexivity|]. simpl.
  intros H. apply andb_true_iff in H as [-> H]. now apply IH.
Qed.

(** The characters of a decimal numeral. *)
Local Abbreviation numeral d :=
  (list_ascii_of_string (DecimalString.NilEmpty.string_of_uint d)).

Lemma int_digits_numeral (d : Decimal.uint) (b : bool) :
  b = true \/ d <> Decimal.Nil ->
  exists ds,
    int_digits b (numeral d) = Some ds
    /\ length ds = length (numeral d)
    /\ forall acc,
         fold_left (fun acc x => 10 * acc + x)%Z ds (Z.of_nat acc)
         = Z.of_nat (Nat.of_uint_acc d acc).
Proof.
  revert b; induction d as [|d IH|d IH|d IH|d IH|d IH|d IH|d IH|d IH|d IH|d IH];
    intros b Hb.
  1:{ destruct Hb as [->|Hb]; [|now contradiction Hb].
      exists []. now repeat split. }
  all: destruct (IH true (or_introl eq_refl)) as (ds & Hds & Hlen & Hval);
    cbn [DecimalString.NilEmpty.string_of_uint list_ascii_of_string
         int_digits];
    match goal with
    | |- context [is_digit ?c] =>
        change (is_digit c) with true; cbv iota; rewrite Hds;
        exists (digit_val c :: ds)
    end;
    (split; [reflexivity|]); (split; [cbn [length]; now rewrite Hlen|]);
    intros acc; cbn [fold_left Nat.of_uint_acc];
    rewrite <- Hval, Nat.tail_mul_spec; f_equal;
    match goal with
    | |- context [digit_val ?c] =>
        let v := eval vm_compute in (digit_val c) in
        change (digit_val c) with v
    end; lia.
Qed.

Lemma numeral_digits (d : Decimal.uint) :
  forallb is_digit (numeral d) = true.
Proof. induction d; cbn; auto. Qed.

Lemma numeral_zeros (zeros : nat) (d : Decimal.uint) :
  numeral (Nat.iter zeros Decimal.D0 d) = repeat "0"%char zeros ++ numeral d
  /\ Nat.of_uint (Nat.iter zeros Decimal.D0 d) = Nat.of_uint d.
Proof.
  induction zeros as [|zeros [IH1 IH2]]; [now split|]. split.
  - cbn [Nat.iter nat_rect repeat app
         DecimalString.NilEmpty.string_of_uint list_ascii_of_string].
    f_equal. exact IH1.
  - rewrite <- IH2. reflexivity.
Qed.

Lemma to_uint_not_nil (n : nat) : Nat.to_uint n <> Decimal.Nil.
Proof.
  intros H. pose proof (DecimalNat.Unsigned.of_to n) as Hn.
  rewrite H in Hn. cbn in Hn. subst n. discriminate.
Qed.

Lemma digit_not_space (c : ascii) : is_digit c = true -> int_space c = false.
Proof.
  destruct c as [[] [] [] [] [] [] [] []]; vm_compute; congruence.
Qed.

Lemma drop_while_keep (f : ascii -> bool) (c : ascii) (s : str) :
  f c = false -> drop_while f (c :: s) = c :: s.
Proof. intros H. cbn [drop_while]. now rewrite H. Qed.

(** What [int] strips from a numeral between whitespace. *)
Lemma int_strip (ws1 core ws2 : str) (first last : ascii) (middle : str) :
  forallb int_space ws1 = true -> forallb int_space ws2 = true ->
  core = first :: middle -> int_space first = false ->
  (exists front, core = front ++ [last]) -> int_space last = false ->
  rev (drop_while int_space (rev (drop_while int_space (ws1 ++ core ++ ws2))))
  = core.
Proof.
  intros H1 H2 Hcore Hfirst (front & Hfront) Hlast.
  rewrite drop_while_all by exact H1.
  rewrite Hcore. cbn [app]. rewrite drop_while_keep by exact Hfirst.
  change (first :: middle ++ ws2) with ((first :: middle) ++ ws2).
  rewrite <- Hcore, rev_app_distr, drop_while_all.
  - rewrite Hfront, rev_app_distr. cbn [rev app].
    rewrite drop_while_keep by exact Hlast.
    change (last :: rev front) with (rev [last] ++ rev front).
    now rewrite <- rev_app_distr, rev_involutive.
  - rewrite forallb_forall in *. intros x Hx. apply H2. now apply in_rev.
Qed.

Lemma int_unsigned_numeral (d : Decimal.uint) :
  d <> Decimal.Nil -> length (numeral d) <= int_max_str_digits ->
  int_unsigned (numeral d) = Some (Z.of_nat (Nat.of_uint d)).
Proof.
  intros Hd Hlen.
  destruct (int_digits_numeral d false (or_intror Hd))
    as (ds & Hds & Hds_len & Hval).
  pose proof (numeral_digits d) as Hall.
  unfold int_unsigned. rewrite Hds.
  destruct (numeral d) as [|c s] eqn:E.
  - destruct d; try discriminate; now contradiction Hd.
  - cbn [forallb] in Hall. apply andb_true_iff in Hall as [-> _].
    rewrite Hds_len. apply Nat.leb_le in Hlen. rewrite Hlen.
    unfold digits_value. f_equal. exact (Hval 0).
Qed.

Lemma digit_not_sign (c : ascii) :
  is_digit c = true -> Ascii.eqb c "-" = false /\ Ascii.eqb c "+" = false.
Proof.
  destruct c as [[] [] [] [] [] [] [] []]; vm_compute; intros; try discriminate;
    now split.
Qed.

Lemma numeral_last (d : Decimal.uint) :
  d <> Decimal.Nil ->
  exists front last, numeral d = front ++ [last] /\ is_digit last = true.
Proof.
  intros Hd. pose proof (numeral_digits d) as Hall.
  destruct (@exists_last _ (numeral d)) as (front & last & E).
  - destruct d; try discriminate; now contradiction Hd.
  - exists front, last. split; [exact E|].
    rewrite E, forallb_app in Hall. apply andb_true_iff in Hall as [_ H].
    cbn in H. now rewrite andb_true_r in H.
Qed.

(** [int] on a decimal numeral, with or without a sign, between
    whitespace. *)
Lemma py_int_numeral (ws1 ws2 sign : str) (d : Decimal.uint) :
  forallb int_space ws1 = true -> forallb int_space ws2 = true ->
  d <> Decimal.Nil -> length (numeral d) <= int_max_str_digits ->
  sign = [] \/ sign = lit "+" \/ sign = lit "-" ->
  py_int (ws1 ++ (sign ++ numeral d) ++ ws2)
  = Some (if str_eqb sign (lit "-") then (- Z.of_nat (Nat.of_uint d))%Z
          else Z.of_nat (Nat.of_uint d)).
Proof.
  intros H1 H2 Hd Hlen Hsign.
  pose proof (int_unsigned_numeral d Hd Hlen) as Hint.
  destruct (numeral_last d Hd) as (front & last & Hlast & Hdigit).
  pose proof (numeral_digits d) as Hall.
  destruct (numeral d) as [|c s] eqn:E;
    [destruct front; discriminate|].
  cbn [forallb] in Hall. apply andb_true_iff in Hall as [Hc _].
  unfold py_int.
  destruct Hsign as [->|[->| ->]].
  - change ([] ++ c :: s) with (c :: s).
    rewrite (int_strip ws1 (c :: s) ws2 c last s H1 H2 eq_refl
               (digit_not_space _ Hc)
               (ex_intro _ front Hlast) (digit_not_space _ Hdigit)).
    destruct (digit_not_sign _ Hc) as [-> ->]. exact Hint.
  - rewrite (int_strip ws1 (lit "+" ++ c :: s) ws2 "+"%char last (c :: s)
               H1 H2 eq_refl eq_refl
               (ex_intro _ ("+"%char :: front)
                  (f_equal (cons "+"%char) Hlast))
               (digit_not_space _ Hdigit)).
    exact Hint.
  - rewrite (int_strip ws1 (lit "-" ++ c :: s) ws2 "-"%char last (c :: s)
               H1 H2 eq_refl eq_refl
               (ex_intro _ ("-"%char :: front)
                  (f_equal (cons "-"%char) Hlast))
               (digit_not_space _ Hdigit)).
    cbn [lit list_ascii_of_string app Ascii.eqb Bool.eqb andb].
    rewrite Hint. reflexivity.
Qed.

Lemma int_digits_bad (c : ascii) (s : str) :
  In c s -> is_digit c = false -> is_underscore c = false ->
  forall b, int_digits b s = None.
Proof.
  intros Hin Hd Hu. induction s as [|x s IH]; intros b; [contradiction|].
  cbn [int_digits]. destruct Hin as [->|Hin].
  - now rewrite Hd, Hu.
  - destruct (is_digit x); [now rewrite (IH Hin)|].
    destruct (is_underscore x && b); [now apply IH | reflexivity].
Qed.

Lemma int_unsigned_bad (c : ascii) (s : str) :
  In c s -> is_digit c = false -> is_underscore c = false ->
  int_unsigned s = None.
Proof.
  intros Hin Hd Hu. unfold int_unsigned.
  rewrite (int_digits_bad c s Hin Hd Hu).
  destruct s as [|x s]; [reflexivity|]. now destruct (is_digit x).
Qed.

Lemma in_drop_while (f : ascii -> bool) (c : ascii) (s : str) :
  In c s -> f c = false -> In c (drop_while f s).
Proof.
  intros Hin Hf. induction s as [|x s IH]; [contradiction|].
  cbn [drop_while]. destruct (f x) eqn:Hx; [|exact Hin].
  destruct Hin as [->|Hin]; [congruence | now apply IH].
Qed.

(** [int] refuses a text that holds a character which is not a digit, an
    underscore, a sign or whitespace. *)
Lemma py_int_bad (c : ascii) (s : str) :
  In c s -> int_char c = false -> py_int s = None.
Proof.
  intros Hin Hc. unfold int_char in Hc.
  apply orb_false_iff in Hc as [Hc Hminus].
  apply orb_false_iff in Hc as [Hc Hplus].
  apply orb_false_iff in Hc as [Hc Hspace].
  apply orb_false_iff in Hc as [Hd Hu].
  unfold py_int.
  assert (Hcore : In c (rev (drop_while int_space
                               (rev (drop_while int_space s))))).
  { apply in_rev. rewrite rev_involutive.
    apply in_drop_while; [|exact Hspace].
    apply in_rev. rewrite rev_involutive.
    now apply in_drop_while. }
  destruct (rev _) as [|x core]; [reflexivity|].
  assert (Hrest : Ascii.eqb x "-" = true \/ Ascii.eqb x "+" = true ->
                  In c core).
  { intros Hx. destruct Hcore as [->|H]; [|exact H].
    destruct Hx; congruence. }
  destruct (Ascii.eqb x "-") eqn:E1.
  - rewrite (int_unsigned_bad c core) by auto. reflexivity.
  - destruct (Ascii.eqb x "+") eqn:E2.
    + now apply (int_unsigned_bad c core); auto.
    + now apply (int_unsigned_bad c (x :: core)).
Qed.

(* ========================================================================= *)
(** * The condition registry *)
(* ========================================================================= *)

(** C7: a condition name that is not in the registry evaluates to [False];
    the evaluation returns normally (it is not an exception) and prints one
    warning line to the error stream. *)
Theorem evaluate_unknown_condition
  (registry : dict condition) (env : environ) (name : str) :
  dict_get registry name = None ->
  _evaluate_condition registry env name
  = Some (false, [unknown_condition_warning name]).
Proof.
  intros H. unfold _evaluate_condition. now rewrite H.
Qed.

Lemma evaluate_unknown_condition_witness :
  dict_get CONDITIONS (lit "IF_B") = None
  /\ _evaluate_condition CONDITIONS [] (lit "IF_B")
     = Some (false,
             [lit "Warning: Unknown condition 'IF_B', treating as False"]).
Proof.
  split; [reflexivity|].
  apply (@evaluate_unknown_condition CONDITIONS [] (lit "IF_B")). reflexivity.
Defined.

Lemma env_is_true_iff (var : str) (env : environ) :
  _env_is_true var env = true
  <-> exists v, dict_get env var = Some v /\ lower v = lit "true".
Proof.
  unfold _env_is_true, dict_get_default. rewrite str_eqb_eq.
  destruct (dict_get env var) as [v|].
  - split; [intros H; now exists v | now intros (v' & [= <-] & H)].
  - split; [discriminate | now intros (v' & [=] & _)].
Qed.

(** C9: each toggle condition of the registry is [_env_is_true] of its
    [INCLUDE_...] variable: it holds exactly when the variable is set and its
    value, lowercased, is the word "true" (one of the sixteen spellings in
    upper and lower case).  An unset variable and values such as "1" or "yes"
    give [False], and evaluating the condition prints no warning. *)
Theorem toggle_conditions (env : environ) (name var : str) :
  In (name, var) toggles ->
  exists p,
    dict_get CONDITIONS name = Some p
    /\ _evaluate_condition CONDITIONS env name = Some (p env, [])
    /\ (p env = true
        <-> exists v, dict_get env var = Some v /\ lower v = lit "true")
    /\ (p env = true
        <-> exists a b c d, dict_get env var = Some [a; b; c; d]
              /\ (a = "t" \/ a = "T")%char /\ (b = "r" \/ b = "R")%char
              /\ (c = "u" \/ c = "U")%char /\ (d = "e" \/ d = "E")%char)
    /\ (dict_get env var = None -> p env = false)
    /\ (dict_get env var = Some (lit "1") -> p env = false)
    /\ (dict_get env var = Some (lit "yes") -> p env = false).
Proof.
  intros Hin. exists (_env_is_true var).
  assert (Hreg : dict_get CONDITIONS name = Some (_env_is_true var)).
  { simpl in Hin.
    repeat (destruct Hin as [[= <- <-]|Hin]; [reflexivity|]).
    contradiction. }
  split; [exact Hreg|].
  split; [unfold _evaluate_condition; now rewrite Hreg|].
  split; [apply env_is_true_iff|].
  split.
  - rewrite env_is_true_iff. split.
    + intros (v & Hv & Hl). apply lower_true in Hl as (a & b & c & d & -> & H).
      now exists a, b, c, d.
    + intros (a & b & c & d & Hv & H). exists [a; b; c; d].
      split; [exact Hv|]. apply lower_true. now exists a, b, c, d.
  - repeat split; intros Hv; unfold _env_is_true, dict_get_default;
      now rewrite Hv.
Qed.

Lemma toggle_conditions_witness :
  In (lit "IF_GH_CLI", lit "INCLUDE_GH_CLI") toggles
  /\ exists p,
       dict_get CONDITIONS (lit "IF_GH_CLI") = Some p
       /\ p [(lit "INCLUDE_GH_CLI", lit "True")] = true
       /\ p [(lit "INCLUDE_GH_CLI", lit "1")] = false
       /\ p [] = false.
Proof.
  assert (Hin : In (lit "IF_GH_CLI", lit "INCLUDE_GH_CLI") toggles)
    by (simpl; tauto).
  split; [exact Hin|].
  destruct (@toggle_conditions [] (lit "IF_GH_CLI") (lit "INCLUDE_GH_CLI") Hin)
    as (p & Hp & _).
  exists p. split; [exact Hp|].
  assert (Hq : dict_get CONDITIONS (lit "IF_GH_CLI")
               = Some (_env_is_true (lit "INCLUDE_GH_CLI"))) by reflexivity.
  rewrite Hq in Hp. injection Hp as <-.
  repeat split; reflexivity.
Defined.

(** The derived variables do not touch [COVERAGE_THRESHOLD]: the resolved set
    holds the value of the environment, or the registry's default. *)
Lemma load_variables_coverage_threshold (env : environ) :
  dict_get (_load_variables env) (lit "COVERAGE_THRESHOLD")
  = Some (dict_get_default env (lit "COVERAGE_THRESHOLD") (lit "80")).
Proof.
  unfold _load_variables, compute_derived_variables.
  match goal with |- context [if ?b then _ else _] => destruct b end;
    reflexivity.
Qed.

(** C10: [IF_COVERAGE_ENABLED] is [_coverage_enabled], a total predicate: it
    holds exactly when [int] accepts the value of [COVERAGE_THRESHOLD]
    (default "0") and the number is positive.  A value [int] refuses gives
    [False]; so does an unset variable, for which the variable registry
    nevertheless substitutes "80".  [int] accepts the decimal numeral of a
    number, with leading zeros, a sign and whitespace around it, as that
    number, so that the condition holds for such a value exactly when the
    number is not zero and the sign is not a minus; and it refuses every
    value that holds a character other than a digit, an underscore, a sign
    or whitespace, so that the condition does not hold for such a value. *)
Theorem coverage_enabled_spec (env : environ) :
  let threshold :=
    dict_get_default env (lit "COVERAGE_THRESHOLD") (lit "0") in
  dict_get CONDITIONS (lit "IF_COVERAGE_ENABLED") = Some _coverage_enabled
  /\ _evaluate_condition CONDITIONS env (lit "IF_COVERAGE_ENABLED")
     = Some (_coverage_enabled env, [])
  /\ (_coverage_enabled env = true
      <-> exists n, py_int threshold = Some n /\ (0 < n)%Z)
  /\ (py_int threshold = None -> _coverage_enabled env = false)
  /\ (dict_get env (lit "COVERAGE_THRESHOLD") = None ->
      threshold = lit "0"
      /\ _coverage_enabled env = false
      /\ dict_get (_load_variables env) (lit "COVERAGE_THRESHOLD")
         = Some (lit "80"))
  /\ (forall (n zeros : nat) (ws1 ws2 sign : str),
        forallb int_space ws1 = true -> forallb int_space ws2 = true ->
        zeros + length (str_of_nat n) <= int_max_str_digits ->
        sign = [] \/ sign = lit "+" \/ sign = lit "-" ->
        threshold
        = ws1 ++ sign ++ repeat "0"%char zeros ++ str_of_nat n ++ ws2 ->
        py_int threshold
        = Some (if str_eqb sign (lit "-") then (- Z.of_nat n)%Z
                else Z.of_nat n)
        /\ _coverage_enabled env
           = (0 <? n) && negb (str_eqb sign (lit "-")))
  /\ (forall c,
        In c threshold -> int_char c = false ->
        py_int threshold = None /\ _coverage_enabled env = false).
Proof.
  intros threshold. split; [reflexivity|]. split; [reflexivity|].
  unfold _coverage_enabled. fold threshold.
  split; [|split; [|split; [|split]]].
  - destruct (py_int threshold) as [n|].
    + rewrite Z.ltb_lt. split; [intros H; now exists n|].
      now intros (n' & [= <-] & H).
    + split; [discriminate | now intros (n & [=] & _)].
  - now intros ->.
  - intros Hunset.
    assert (Hthr : threshold = lit "0")
      by (unfold threshold, dict_get_default; now rewrite Hunset).
    split; [exact Hthr|]. split; [now rewrite Hthr|].
    rewrite load_variables_coverage_threshold.
    unfold dict_get_default. now rewrite Hunset.
  - intros n zeros ws1 ws2 sign H1 H2 Hlen Hsign Hthr.
    destruct (numeral_zeros zeros (Nat.to_uint n)) as [Hchars Hvalue].
    rewrite DecimalNat.Unsigned.of_to in Hvalue.
    assert (Hd : Nat.iter zeros Decimal.D0 (Nat.to_uint n) <> Decimal.Nil).
    { destruct zeros; [apply to_uint_not_nil | discriminate]. }
    pose proof (py_int_numeral ws1 ws2 sign _ H1 H2 Hd) as Hint.
    rewrite Hchars, Hvalue in Hint. fold (str_of_nat n) in Hint.
    rewrite length_app, repeat_length, <- !app_assoc, <- Hthr in Hint.
    rewrite (Hint Hlen Hsign).
    split; [reflexivity|].
    destruct (str_eqb sign (lit "-")).
    + rewrite andb_false_r. apply Z.ltb_ge. lia.
    + rewrite andb_true_r.
      destruct (Nat.ltb_spec 0 n); [apply Z.ltb_lt | apply Z.ltb_ge]; lia.
  - intros c Hin Hc. now rewrite (py_int_bad c threshold Hin Hc).
Qed.

(** The threshold of the documentation, a signed numeral between blanks,
    a negative number, a percentage, and the unset variable. *)
Lemma coverage_enabled_spec_witness :
  _coverage_enabled [(lit "COVERAGE_THRESHOLD", lit "80")] = true
  /\ _coverage_enabled [(lit "COVERAGE_THRESHOLD", lit " +080 ")] = true
  /\ _coverage_enabled [(lit "COVERAGE_THRESHOLD", lit "-5")] = false
  /\ _coverage_enabled [(lit "COVERAGE_THRESHOLD", lit "80%")] = false
  /\ _coverage_enabled [] = false
  /\ dict_get (_load_variables []) (lit "COVERAGE_THRESHOLD")
     = Some (lit "80").
Proof.
  assert (Hlen : forall zeros n,
            (zeros + length (str_of_nat n) <=? int_max_str_digits) = true ->
            zeros + length (str_of_nat n) <= int_max_str_digits)
    by (intros zeros n; apply Nat.leb_le).
  split; [|split; [|split; [|split]]].
  - destruct (coverage_enabled_spec [(lit "COVERAGE_THRESHOLD", lit "80")])
      as (_ & _ & _ & _ & _ & Hnumeral & _).
    exact (proj2 (Hnumeral 80 0 [] [] [] eq_refl eq_refl (Hlen 0 80 eq_refl)
                    (or_introl eq_refl) eq_refl)).
  - destruct (coverage_enabled_spec
                [(lit "COVERAGE_THRESHOLD", lit " +080 ")])
      as (_ & _ & _ & _ & _ & Hnumeral & _).
    exact (proj2 (Hnumeral 80 1 (lit " ") (lit " ") (lit "+") eq_refl eq_refl
                    (Hlen 1 80 eq_refl) (or_intror (or_introl eq_refl))
                    eq_refl)).
  - destruct (coverage_enabled_spec [(lit "COVERAGE_THRESHOLD", lit "-5")])
      as (_ & _ & _ & _ & _ & Hnumeral & _).
    exact (proj2 (Hnumeral 5 0 [] [] (lit "-") eq_refl eq_refl
                    (Hlen 0 5 eq_refl) (or_intror (or_intror eq_refl))
                    eq_refl)).
  - destruct (coverage_enabled_spec [(lit "COVERAGE_THRESHOLD", lit "80%")])
      as (_ & _ & _ & _ & _ & _ & Hbad).
    exact (proj2 (Hbad "%"%char (or_intror (or_intror (or_introl eq_refl)))
                    eq_refl)).
  - destruct (coverage_enabled_spec []) as (_ & _ & _ & _ & Hunset & _).
    destruct (Hunset eq_refl) as (_ & Hfalse & Hdefault). now split.
Defined.

(* ========================================================================= *)
(** * Equations of the conditional resolver *)
(* ========================================================================= *)

Section ResolverEquations.
Variable registry : dict condition.
Variable env : environ.

Lemma bind_ret_l {A B} (a : A) (k : A -> M B) : bind (ret a) k = k a.
Proof. simpl. now destruct (k a) as [[b w]|]. Qed.

Lemma process_conditionals_fuel_S (fuel : nat) (content : str) :
  process_conditionals_fuel registry env (S fuel) content
  = passes
      (replace_conditional registry env
         (process_conditionals_fuel registry env fuel))
      max_iterations content.
Proof. reflexivity. Qed.

Lemma passes_S (repl : cond_match -> M str) (k : nat) (content : str) :
  passes repl (S k) content
  = (new_content <- sub_conditional repl content ;;
     if str_eqb new_content content then ret content
     else passes repl k new_content).
Proof. reflexivity. Qed.

Lemma has_conditional_head (s : str) :
  has_conditional s = false -> match_conditional s = None.
Proof.
  destruct s as [|c s]; cbn [has_conditional];
    destruct (match_conditional _); congruence.
Qed.

Lemma has_conditional_tail (c : ascii) (s : str) :
  has_conditional (c :: s) = false -> has_conditional s = false.
Proof.
  cbn [has_conditional]. destruct (match_conditional (c :: s)); congruence.
Qed.

(** Where the pattern matches nowhere the scan copies the text. *)
Lemma scan_no_conditional (repl : cond_match -> M str) (n : nat) (s : str) :
  has_conditional s = false -> sub_conditional_scan repl n s = ret s.
Proof.
  revert s; induction n as [|n IH]; intros s H; [reflexivity|].
  simpl. rewrite (has_conditional_head _ H).
  destruct s as [|c s]; [reflexivity|].
  now rewrite (IH s (has_conditional_tail _ _ H)).
Qed.

Lemma sub_no_conditional (repl : cond_match -> M str) (s : str) :
  has_conditional s = false -> sub_conditional repl s = ret s.
Proof. apply scan_no_conditional. Qed.

(** A match followed by text without a match: one call of [repl]. *)
Lemma sub_one_conditional (repl : cond_match -> M str) (s : str)
  (m : cond_match) :
  match_conditional s = Some m ->
  has_conditional (cm_rest m) = false ->
  sub_conditional repl s = (r <- repl m ;; ret (r ++ cm_rest m)).
Proof.
  intros Hm Hrest. unfold sub_conditional.
  destruct s as [|c s]; [discriminate|].
  cbn [length sub_conditional_scan]. rewrite Hm.
  now rewrite (scan_no_conditional _ _ _ Hrest).
Qed.

(** A text without a match is a fixed point of the first pass. *)
Lemma passes_no_conditional (repl : cond_match -> M str) (k : nat)
  (s : str) :
  has_conditional s = false -> passes repl k s = ret s.
Proof.
  intros H. destruct k as [|k]; [reflexivity|].
  rewrite passes_S, (sub_no_conditional _ _ H), bind_ret_l.
  now rewrite str_eqb_refl.
Qed.

Lemma process_no_conditional (fuel : nat) (s : str) :
  has_conditional s = false ->
  process_conditionals_fuel registry env (S fuel) s = ret s.
Proof.
  intros H. rewrite process_conditionals_fuel_S.
  now apply passes_no_conditional.
Qed.

Lemma evaluate_known_condition (name : str) (p : condition) :
  dict_get registry name = Some p ->
  _evaluate_condition registry env name = Some (p env, []).
Proof.
  intros H. unfold _evaluate_condition. now rewrite H.
Qed.

(** What evaluating a condition prints is nothing, or the one warning about
    that condition. *)
Lemma evaluate_condition_stderr (name : str) (b : bool) (w : list str) :
  _evaluate_condition registry env name = Some (b, w) ->
  w = [] \/ w = [unknown_condition_warning name].
Proof.
  unfold _evaluate_condition.
  destruct (dict_get registry name); intros [= _ <-]; auto.
Qed.

(** The resolver on a text that is one conditional block around branches
    without a match: the branch is chosen by the condition and is the
    result. *)
Lemma process_single_block (limit : nat) (s : str) (m : cond_match)
  (b : bool) (w : list str) :
  0 < limit ->
  match_conditional s = Some m ->
  cm_rest m = [] ->
  _evaluate_condition registry env (cm_name m) = Some (b, w) ->
  has_conditional (if b then fst (split_else (cm_block m))
                   else snd (split_else (cm_block m))) = false ->
  _process_conditionals registry env limit s
  = Some (if b then fst (split_else (cm_block m))
          else snd (split_else (cm_block m)), w).
Proof.
  intros Hlimit Hm Hrest Hev Hres.
  set (result := if b then fst (split_else (cm_block m))
                 else snd (split_else (cm_block m))) in *.
  assert (Hne : str_eqb result s = false).
  { apply str_eqb_neq. intros ->. apply has_conditional_head in Hres.
    congruence. }
  unfold _process_conditionals.
  rewrite process_conditionals_fuel_S. unfold max_iterations.
  rewrite passes_S.
  rewrite (sub_one_conditional _ _ _ Hm)
    by (rewrite Hrest; reflexivity).
  rewrite Hrest.
  assert (Hrepl :
    replace_conditional registry env
      (process_conditionals_fuel registry env limit) m
    = Some (result, w)).
  { unfold replace_conditional.
    destruct (split_else (cm_block m)) as [if_content else_content].
    rewrite Hev. cbn [bind].
    destruct limit as [|limit']; [lia|].
    rewrite (process_no_conditional _ _ Hres). cbn [ret].
    now rewrite app_nil_r. }
  rewrite Hrepl. cbn [bind ret]. rewrite !app_nil_r. cbn [app].
  rewrite Hne, (passes_no_conditional _ _ _ Hres). cbn [ret].
  now rewrite app_nil_r.
Qed.
End ResolverEquations.

(* ========================================================================= *)
(** * The conditional resolver on the documented examples *)
(* ========================================================================= *)

(** C1: with [IF_A] true and [IF_B] false the resolver does not produce "YB"
    for the nested template.  The scan matches the leftmost opening tag, which
    is the outer one, up to its closing tag; the block is cut at its first
    ELSE marker, which belongs to the inner conditional; the if-branch kept is
    the inner opening tag followed by "XB", and nothing in it matches
    again.  The one nested call that this takes is within every recursion
    limit that lets a call nest at all. *)
Theorem nested_else_resolution
  (registry : dict condition) (env : environ) (limit : nat)
  (pA pB : condition) :
  0 < limit ->
  dict_get registry (lit "IF_A") = Some pA -> pA env = true ->
  dict_get registry (lit "IF_B") = Some pB -> pB env = false ->
  _process_conditionals registry env limit nested_else_template
  = Some (lit "{{#IF_B}}XB", [])
  /\ _process_conditionals registry env limit nested_else_template
     <> Some (lit "YB", []).
Proof.
  intros Hlimit HA HAt HB HBf.
  assert (H : _process_conditionals registry env limit nested_else_template
              = Some (lit "{{#IF_B}}XB", [])).
  { pose proof (@evaluate_known_condition registry env _ _ HA) as Hev.
    rewrite HAt in Hev.
    refine (@process_single_block registry env limit nested_else_template
              {| cm_name := lit "IF_A";
                 cm_block :=
                   lit "{{#IF_B}}XB{{#ELSE}}YB{{/IF_B}}{{#ELSE}}ZA";
                 cm_rest := [] |} true [] Hlimit _ _ Hev _);
      reflexivity. }
  split; [exact H|]. rewrite H. discriminate.
Qed.

Lemma nested_else_resolution_witness :
  let registry : dict condition :=
    [(lit "IF_A", fun _ => true); (lit "IF_B", fun _ => false)] in
  _process_conditionals registry [] 250 nested_else_template
  = Some (lit "{{#IF_B}}XB", [])
  /\ _process_conditionals registry [] 250 nested_else_template
     <> Some (lit "YB", []).
Proof.
  intros registry.
  apply (@nested_else_resolution registry [] 250
           (fun _ => true) (fun _ => false));
    [lia | reflexivity..].
Defined.

(** C4: when [IF_A] evaluates to false and [IF_B] is not registered, the
    template resolves to "Y".  The error stream holds what the evaluation of
    [IF_A] printed and nothing else: there is no warning about [IF_B], whose
    evaluation would have printed one, so [IF_B] is never evaluated.  The one
    nested call that this takes is within every recursion limit that lets a
    call nest at all. *)
Theorem discarded_branch_not_evaluated
  (registry : dict condition) (env : environ) (limit : nat) (w : list str) :
  0 < limit ->
  _evaluate_condition registry env (lit "IF_A") = Some (false, w) ->
  dict_get registry (lit "IF_B") = None ->
  _process_conditionals registry env limit short_circuit_template
  = Some (lit "Y", w)
  /\ ~ In (unknown_condition_warning (lit "IF_B")) w.
Proof.
  intros Hlimit HA HB. split.
  - refine (@process_single_block registry env limit short_circuit_template
              {| cm_name := lit "IF_A";
                 cm_block := lit "{{#IF_B}}X{{/IF_B}}{{#ELSE}}Y";
                 cm_rest := [] |} false w Hlimit _ _ HA _);
      reflexivity.
  - apply evaluate_condition_stderr in HA as [->| ->]; simpl; [tauto|].
    intros [[=]|[]].
Qed.

Lemma discarded_branch_not_evaluated_witness :
  let registry : dict condition := [(lit "IF_A", fun _ => false)] in
  _process_conditionals registry [] 250 short_circuit_template
  = Some (lit "Y", [])
  /\ ~ In (unknown_condition_warning (lit "IF_B")) [].
Proof.
  intros registry.
  apply (@discarded_branch_not_evaluated registry [] 250 []);
    [lia | reflexivity..].
Defined.

(* ========================================================================= *)
(** * Termination of the conditional resolver *)
(* ========================================================================= *)

(** A match is an opening tag, the block, the closing tag of the same name,
    and the rest of the text. *)
Lemma match_conditional_shape (s : str) (m : cond_match) :
  match_conditional s = Some m ->
  s = (lit "{{#" ++ cm_name m ++ lit "}}") ++ cm_block m
      ++ (lit "{{/" ++ cm_name m ++ lit "}}") ++ cm_rest m.
Proof.
  unfold match_conditional.
  destruct (strip_prefix (lit "{{#IF_") s) as [r|] eqn:E1; [|discriminate].
  destruct (span is_cond_char r) as [run r'] eqn:E2.
  destruct run as [|x run]; [discriminate|].
  destruct (strip_prefix (lit "}}") r') as [r''|] eqn:E3; [|discriminate].
  destruct (find_first _ r'') as [[block rest]|] eqn:E4; [|discriminate].
  intros [= <-]. cbn [cm_name cm_block cm_rest].
  apply strip_prefix_Some in E1. apply span_app in E2 as [E2 _].
  apply strip_prefix_Some in E3. apply find_first_Some in E4.
  subst s r r'. rewrite E4 at 1.
  cbn [lit list_ascii_of_string app]. rewrite <- !app_assoc. reflexivity.
Qed.

Lemma match_conditional_name (s : str) (m : cond_match) :
  match_conditional s = Some m ->
  exists run, cm_name m = lit "IF_" ++ run /\ valid_condition_run run = true.
Proof.
  unfold match_conditional.
  destruct (strip_prefix (lit "{{#IF_") s) as [r|]; [|discriminate].
  destruct (span is_cond_char r) as [run r'] eqn:E2.
  destruct run as [|x run]; [discriminate|].
  destruct (strip_prefix (lit "}}") r') as [r''|]; [|discriminate].
  destruct (find_first _ r'') as [[block rest]|]; [|discriminate].
  intros [= <-]. exists (x :: run). split; [reflexivity|].
  now apply span_app in E2 as [_ E2].
Qed.

(** The two tags of a match take eighteen characters or more. *)
Lemma match_conditional_length (s : str) (m : cond_match) :
  match_conditional s = Some m ->
  length (cm_block m) + length (cm_rest m) + 18 <= length s.
Proof.
  intros H. pose proof (match_conditional_name _ _ H) as (run & Hname & Hrun).
  apply match_conditional_shape in H.
  apply (f_equal (@length ascii)) in H.
  rewrite Hname, !length_app in H.
  destruct run as [|c run]; [discriminate|]. simpl in H. lia.
Qed.

Lemma split_else_shape (block : str) :
  (block = fst (split_else block) /\ snd (split_else block) = [])
  \/ block = fst (split_else block) ++ lit "{{#ELSE}}" ++ snd (split_else block).
Proof.
  unfold split_else.
  destruct (find_first (lit "{{#ELSE}}") block) as [[a b]|] eqn:E.
  - right. now apply find_first_Some in E.
  - now left.
Qed.

Lemma split_else_length (block : str) :
  length (fst (split_else block)) <= length block
  /\ length (snd (split_else block)) <= length block.
Proof.
  unfold split_else.
  destruct (find_first (lit "{{#ELSE}}") block) as [[a b]|] eqn:E; simpl.
  - apply find_first_Some in E. apply (f_equal (@length ascii)) in E.
    rewrite !length_app in E. lia.
  - lia.
Qed.

Section Termination.
Variable registry : dict condition.
Variable env : environ.

Local Abbreviation resolver := (process_conditionals_fuel registry env).
Local Abbreviation replace := (replace_conditional registry env).

Lemma evaluate_condition_total (name : str) :
  exists b w, _evaluate_condition registry env name = Some (b, w).
Proof.
  unfold _evaluate_condition.
  destruct (dict_get registry name); eexists _, _; reflexivity.
Qed.

(** One scan returns, and its text is no longer than the text scanned, when
    the replacement of every block it can meet returns a text no longer than
    the block. *)
Lemma scan_total (repl : cond_match -> M str) (n : nat) (s : str) :
  (forall m, length (cm_block m) + 18 <= length s ->
     exists r w, repl m = Some (r, w) /\ length r <= length (cm_block m)) ->
  exists out w,
    sub_conditional_scan repl n s = Some (out, w) /\ length out <= length s.
Proof.
  revert s; induction n as [|n IH]; intros s Hrepl.
  - exists s, []. now split.
  - cbn [sub_conditional_scan].
    destruct (match_conditional s) as [m|] eqn:Hm.
    + pose proof (match_conditional_length _ _ Hm) as Hlen.
      destruct (Hrepl m) as (r & w1 & -> & Hr); [lia|].
      destruct (IH (cm_rest m)) as (t & w2 & -> & Ht).
      { intros m' Hm'. apply Hrepl. lia. }
      cbn. eexists _, _. split; [reflexivity|]. rewrite length_app. lia.
    + destruct s as [|c s]; [exists [], []; now split|].
      destruct (IH s) as (t & w & -> & Ht).
      { intros m' Hm'. apply Hrepl. simpl. lia. }
      cbn. eexists _, _. split; [reflexivity|]. simpl. lia.
Qed.

Lemma scan_ext (repl1 repl2 : cond_match -> M str) (n : nat) (s : str) :
  (forall m, length (cm_block m) + 18 <= length s -> repl1 m = repl2 m) ->
  sub_conditional_scan repl1 n s = sub_conditional_scan repl2 n s.
Proof.
  revert s; induction n as [|n IH]; intros s Hext; [reflexivity|].
  cbn [sub_conditional_scan].
  destruct (match_conditional s) as [m|] eqn:Hm.
  - pose proof (match_conditional_length _ _ Hm) as Hlen.
    rewrite (Hext m) by lia. rewrite (IH (cm_rest m)); [reflexivity|].
    intros m' Hm'. apply Hext. lia.
  - destruct s as [|c s]; [reflexivity|].
    rewrite (IH s); [reflexivity|].
    intros m' Hm'. apply Hext. simpl. lia.
Qed.

Lemma passes_total (repl : cond_match -> M str) (k : nat) (content : str) :
  (forall m, length (cm_block m) + 18 <= length content ->
     exists r w, repl m = Some (r, w) /\ length r <= length (cm_block m)) ->
  exists out w,
    passes repl k content = Some (out, w) /\ length out <= length content.
Proof.
  revert content; induction k as [|k IH]; intros content Hrepl.
  - exists content, []. now split.
  - rewrite passes_S. unfold sub_conditional.
    destruct (@scan_total repl (length content) content Hrepl)
      as (new & w1 & -> & Hnew).
    cbn [bind]. destruct (str_eqb new content).
    + cbn. eexists _, _. split; [reflexivity|lia].
    + destruct (IH new) as (out & w2 & -> & Hout).
      { intros m Hm. apply Hrepl. lia. }
      eexists _, _. split; [reflexivity|lia].
Qed.

Lemma passes_ext (repl1 repl2 : cond_match -> M str) (k : nat)
  (content : str) :
  (forall m, length (cm_block m) + 18 <= length content ->
     exists r w, repl1 m = Some (r, w) /\ length r <= length (cm_block m)) ->
  (forall m, length (cm_block m) + 18 <= length content -> repl1 m = repl2 m) ->
  passes repl1 k content = passes repl2 k content.
Proof.
  revert content; induction k as [|k IH]; intros content Hrepl Hext;
    [reflexivity|].
  rewrite !passes_S. unfold sub_conditional.
  rewrite <- (@scan_ext repl1 repl2 (length content) content Hext).
  destruct (@scan_total repl1 (length content) content Hrepl)
    as (new & w1 & -> & Hnew).
  cbn [bind]. destruct (str_eqb new content); [reflexivity|].
  rewrite (IH new); [reflexivity| |].
  - intros m Hm. apply Hrepl. lia.
  - intros m Hm. apply Hext. lia.
Qed.

(** The loop returns the text after some number of passes, at most the
    ceiling; below the ceiling that text is a fixed point of the pass. *)
Lemma passes_iter (repl : cond_match -> M str) (k : nat) (content out : str)
  (w : list str) :
  passes repl k content = Some (out, w) ->
  exists j, j <= k /\ out = Nat.iter j (pass_text repl) content
            /\ (j = k \/ pass_text repl out = out).
Proof.
  revert content w; induction k as [|k IH]; intros content w.
  - intros [= <- _]. exists 0. auto.
  - rewrite passes_S.
    destruct (sub_conditional repl content) as [[new w1]|] eqn:Hsub;
      [|discriminate].
    cbn [bind]. destruct (str_eqb new content) eqn:Heq.
    + cbn. intros [= <- _]. exists 0. repeat split; [lia|].
      right. unfold pass_text. rewrite Hsub. now apply str_eqb_eq.
    + destruct (passes repl k new) as [[out' w2]|] eqn:Hp; [|discriminate].
      intros [= <- _].
      destruct (IH _ _ Hp) as (j & Hj & Hout & Hfix).
      exists (S j). split; [lia|]. split.
      * rewrite Nat.iter_succ_r. unfold pass_text at 2. now rewrite Hsub.
      * destruct Hfix as [->|Hfix]; auto.
Qed.

Lemma replace_conditional_total (recurse : str -> M str) (m : cond_match) :
  (forall c, length c <= length (cm_block m) ->
     exists out w, recurse c = Some (out, w) /\ length out <= length c) ->
  exists r w,
    replace recurse m = Some (r, w) /\ length r <= length (cm_block m).
Proof.
  intros Hrec. unfold replace_conditional.
  pose proof (split_else_length (cm_block m)) as [Hif Helse].
  destruct (split_else (cm_block m)) as [if_content else_content].
  cbn [fst snd] in *.
  destruct (evaluate_condition_total (cm_name m)) as (b & w1 & ->).
  cbn [bind]. cbv zeta.
  destruct b;
    [destruct (Hrec _ Hif) as (out & w2 & Hout & Hle)
    |destruct (Hrec _ Helse) as (out & w2 & Hout & Hle)];
    rewrite Hout; (eexists _, _; split; [reflexivity|lia]).
Qed.

Lemma replace_conditional_ext (rec1 rec2 : str -> M str) (m : cond_match) :
  (forall c, length c <= length (cm_block m) -> rec1 c = rec2 c) ->
  replace rec1 m = replace rec2 m.
Proof.
  intros Hext. unfold replace_conditional.
  pose proof (split_else_length (cm_block m)) as [Hif Helse].
  destruct (split_else (cm_block m)) as [if_content else_content].
  cbn [fst snd] in *.
  destruct (_evaluate_condition registry env (cm_name m)) as [[b w]|];
    [|reflexivity].
  cbn [bind]. cbv zeta. destruct b; now rewrite Hext.
Qed.

(** Each level of nesting takes the two tags of a block, eighteen characters
    or more: a text shorter than eighteen times the number of calls that may
    nest is resolved, and the result is no longer than the text. *)
Lemma resolver_total (fuel : nat) (content : str) :
  length content < 18 * fuel ->
  exists out w,
    resolver fuel content = Some (out, w) /\ length out <= length content.
Proof.
  revert content; induction fuel as [|fuel IH]; intros content Hlen; [lia|].
  rewrite process_conditionals_fuel_S. apply passes_total.
  intros m Hm. apply replace_conditional_total.
  intros c Hc. apply IH. lia.
Qed.

(** What returned returns the same when the calls it makes return more
    often. *)
Lemma scan_mono (repl1 repl2 : cond_match -> M str) (n : nat) :
  (forall m x, repl1 m = Some x -> repl2 m = Some x) ->
  forall s x,
    sub_conditional_scan repl1 n s = Some x ->
    sub_conditional_scan repl2 n s = Some x.
Proof.
  intros Hrepl. induction n as [|n IH]; intros s x; [exact (fun H => H)|].
  cbn [sub_conditional_scan].
  destruct (match_conditional s) as [m|].
  - destruct (repl1 m) as [[r w1]|] eqn:Hr; [|discriminate].
    rewrite (Hrepl _ _ Hr). cbn [bind].
    destruct (sub_conditional_scan repl1 n (cm_rest m)) as [[t w2]|] eqn:Ht;
      [|discriminate].
    now rewrite (IH _ _ Ht).
  - destruct s as [|c s]; [exact (fun H => H)|].
    destruct (sub_conditional_scan repl1 n s) as [[t w2]|] eqn:Ht;
      [|discriminate].
    now rewrite (IH _ _ Ht).
Qed.

Lemma passes_mono (repl1 repl2 : cond_match -> M str) (k : nat) :
  (forall m x, repl1 m = Some x -> repl2 m = Some x) ->
  forall content x,
    passes repl1 k content = Some x -> passes repl2 k content = Some x.
Proof.
  intros Hrepl. induction k as [|k IH]; intros content x;
    [exact (fun H => H)|].
  rewrite !passes_S.
  destruct (sub_conditional repl1 content) as [[new w1]|] eqn:Hsub;
    [|discriminate].
  unfold sub_conditional in *. rewrite (scan_mono _ _ _ Hrepl _ _ Hsub).
  cbn [bind]. destruct (str_eqb new content); [exact (fun H => H)|].
  destruct (passes repl1 k new) as [[out w2]|] eqn:Hp; [|discriminate].
  now rewrite (IH _ _ Hp).
Qed.

Lemma replace_conditional_mono (rec1 rec2 : str -> M str) (m : cond_match) :
  (forall c x, rec1 c = Some x -> rec2 c = Some x) ->
  forall x, replace rec1 m = Some x -> replace rec2 m = Some x.
Proof.
  intros Hrec x. unfold replace_conditional.
  destruct (split_else (cm_block m)) as [if_content else_content].
  destruct (_evaluate_condition registry env (cm_name m)) as [[b w]|];
    [|discriminate].
  cbn [bind]. cbv zeta.
  destruct (rec1 (if b then if_content else else_content)) as [[r w2]|] eqn:Hr;
    [|discriminate].
  now rewrite (Hrec _ _ Hr).
Qed.

(** A call that returned returns the same when more calls may nest. *)
Lemma resolver_mono (fuel1 fuel2 : nat) :
  fuel1 <= fuel2 ->
  forall content x,
    resolver fuel1 content = Some x -> resolver fuel2 content = Some x.
Proof.
  revert fuel2; induction fuel1 as [|fuel1 IH]; intros fuel2 Hle content x;
    [discriminate|].
  destruct fuel2 as [|fuel2]; [lia|].
  rewrite !process_conditionals_fuel_S. apply passes_mono.
  intros m. apply replace_conditional_mono. apply IH. lia.
Qed.
End Termination.

Section PassesOfTheResolver.
Variable registry : dict condition.
Variable env : environ.

Lemma pass_text_ext (repl1 repl2 : cond_match -> M str) (c : str) :
  (forall m, length (cm_block m) + 18 <= length c -> repl1 m = repl2 m) ->
  pass_text repl1 c = pass_text repl2 c.
Proof.
  intros Hext. unfold pass_text, sub_conditional.
  now rewrite (@scan_ext repl1 repl2 (length c) c Hext).
Qed.

Lemma pass_text_length (repl : cond_match -> M str) (c : str) :
  (forall m, length (cm_block m) + 18 <= length c ->
     exists r w, repl m = Some (r, w) /\ length r <= length (cm_block m)) ->
  length (pass_text repl c) <= length c.
Proof.
  intros Hrepl. unfold pass_text, sub_conditional.
  destruct (@scan_total repl (length c) c Hrepl) as (out & w & -> & H).
  exact H.
Qed.

Lemma iter_pass_ext (repl1 repl2 : cond_match -> M str) (j : nat) (c : str) :
  (forall m, length (cm_block m) + 18 <= length c ->
     exists r w, repl1 m = Some (r, w) /\ length r <= length (cm_block m)) ->
  (forall m, length (cm_block m) + 18 <= length c -> repl1 m = repl2 m) ->
  Nat.iter j (pass_text repl1) c = Nat.iter j (pass_text repl2) c.
Proof.
  revert c; induction j as [|j IH]; intros c Hrepl Hext; [reflexivity|].
  rewrite !Nat.iter_succ_r, <- (pass_text_ext _ _ _ Hext).
  pose proof (pass_text_length _ _ Hrepl) as Hlen.
  apply IH.
  - intros m Hm. apply Hrepl. lia.
  - intros m Hm. apply Hext. lia.
Qed.

(** On a block short enough for the calls that may nest in it, the nested
    call does what [_process_conditionals] does. *)
Lemma replace_conditional_fuel (limit : nat) (m : cond_match) :
  length (cm_block m) < 18 * limit ->
  replace_conditional registry env
    (process_conditionals_fuel registry env limit) m
  = replace_conditional registry env
      (_process_conditionals registry env limit) m.
Proof.
  intros Hm.
  destruct (replace_conditional_total registry env
              (process_conditionals_fuel registry env limit) m)
    as (r & w & Hr & _).
  { intros c Hc. apply resolver_total. lia. }
  rewrite Hr. symmetry.
  apply (replace_conditional_mono registry env
           (process_conditionals_fuel registry env limit)); [|exact Hr].
  intros c x Hx. unfold _process_conditionals.
  apply (resolver_mono registry env limit); [lia | exact Hx].
Qed.
End PassesOfTheResolver.



(* ========================================================================= *)
(** * The variable pattern *)
(* ========================================================================= *)

Lemma is_name_char_not_brace (c : ascii) :
  is_name_char c = true -> is_brace c = false.
Proof.
  destruct c as [[] [] [] [] [] [] [] []]; vm_compute; congruence.
Qed.

Lemma is_upper_name_char (c : ascii) :
  is_upper c = true -> is_name_char c = true.
Proof.
  unfold is_name_char. now intros ->.
Qed.

Lemma not_brace_open (c : ascii) :
  is_brace c = false -> Ascii.eqb "{" c = false.
Proof.
  unfold is_brace. rewrite (Ascii.eqb_sym "{" c).
  now destruct (Ascii.eqb c "{").
Qed.

Lemma not_brace_close (c : ascii) :
  is_brace c = false -> Ascii.eqb "}" c = false.
Proof.
  unfold is_brace. rewrite (Ascii.eqb_sym "}" c).
  destruct (Ascii.eqb c "{"); [discriminate|]. now destruct (Ascii.eqb c "}").
Qed.

Lemma valid_name_chars (name : str) :
  valid_name name = true -> forallb is_name_char name = true.
Proof.
  destruct name as [|c run]; [discriminate|]. simpl.
  intros H. apply andb_true_iff in H as [Hc Hrun].
  now rewrite (is_upper_name_char _ Hc).
Qed.

(** A match is the placeholder of a valid name, and the text after it. *)
Lemma match_variable_Some (s : str) (m : var_match) :
  match_variable s = Some m ->
  valid_name (vm_name m) = true
  /\ vm_all m = placeholder (vm_name m)
  /\ s = vm_all m ++ vm_rest m.
Proof.
  unfold match_variable.
  destruct (strip_prefix (lit "{{") s) as [[|c r]|] eqn:E1; try discriminate.
  destruct (is_upper c) eqn:Hc; [|discriminate].
  destruct (span is_name_char r) as [run r'] eqn:E2.
  destruct (strip_prefix (lit "}}") r') as [r''|] eqn:E3; [|discriminate].
  intros [= <-]. cbn [vm_name vm_all vm_rest].
  apply strip_prefix_Some in E1. apply span_app in E2 as [E2 Hrun].
  apply strip_prefix_Some in E3.
  repeat split.
  - simpl. now rewrite Hc, Hrun.
  - subst s r r'. unfold placeholder. simpl. now rewrite <- !app_assoc.
Qed.

(** The placeholder of a valid name is matched, whatever follows it. *)
Lemma match_variable_placeholder (name rest : str) :
  valid_name name = true ->
  match_variable (placeholder name ++ rest)
  = Some {| vm_all := placeholder name; vm_name := name; vm_rest := rest |}.
Proof.
  destruct name as [|c run]; [discriminate|]. simpl.
  intros H. apply andb_true_iff in H as [Hc Hrun].
  unfold match_variable, placeholder. cbn [lit list_ascii_of_string app].
  cbn [strip_prefix]. rewrite !Ascii.eqb_refl, Hc.
  rewrite <- app_assoc. cbn [app].
  rewrite (span_run _ _ _ _ Hrun) by reflexivity.
  cbn [strip_prefix]. now rewrite !Ascii.eqb_refl.
Qed.

Lemma match_variable_rest_length (s : str) (m : var_match) :
  match_variable s = Some m -> length (vm_rest m) < length s.
Proof.
  intros H. apply match_variable_Some in H as (_ & Hall & Hs).
  apply (f_equal (@length ascii)) in Hs.
  rewrite Hall, length_app in Hs. unfold placeholder in Hs. simpl in Hs. lia.
Qed.

(** No match starts at a character that is not an opening brace. *)
Lemma match_variable_not_open (c : ascii) (s : str) :
  Ascii.eqb "{" c = false -> match_variable (c :: s) = None.
Proof.
  intros H. unfold match_variable. cbn [lit list_ascii_of_string strip_prefix].
  now rewrite H.
Qed.

(** No match starts at a brace that is not followed by a second one. *)
Lemma match_variable_not_open2 (c d : ascii) (s : str) :
  Ascii.eqb "{" d = false -> match_variable (c :: d :: s) = None.
Proof.
  intros H. unfold match_variable. cbn [lit list_ascii_of_string strip_prefix].
  rewrite H. now destruct (Ascii.eqb "{" c).
Qed.

(* ========================================================================= *)
(** * Equations of the substitution scan *)
(* ========================================================================= *)

Section SubstitutionEquations.
Variable repl : var_match -> str.

Lemma sub_variable_scan_fuel (n n' : nat) (d : bool) (s : str) :
  length s <= n -> length s <= n' ->
  sub_variable_scan repl n d s = sub_variable_scan repl n' d s.
Proof.
  revert n' d s; induction n as [|n IH]; intros n' d s Hn Hn'.
  - destruct s; [|simpl in Hn; lia]. now destruct n'.
  - destruct n' as [|n'].
    + destruct s; [reflexivity|simpl in Hn'; lia].
    + destruct s as [|c s]; [reflexivity|]. cbn [sub_variable_scan].
      simpl in Hn, Hn'.
      destruct (if d then None else match_variable (c :: s)) as [m|] eqn:Hm.
      * f_equal. destruct d; [discriminate|].
        apply match_variable_rest_length in Hm. simpl in Hm.
        apply IH; lia.
      * f_equal. apply IH; lia.
Qed.

Lemma sub_from_nil (d : bool) : sub_variable_from repl d [] = [].
Proof. reflexivity. Qed.

(** At a match that the lookbehind allows, the replacement is emitted and the
    scan goes on after the match, which ends in a closing brace. *)
Lemma sub_from_match (s : str) (m : var_match) :
  match_variable s = Some m ->
  sub_variable_from repl false s
  = repl m ++ sub_variable_from repl false (vm_rest m).
Proof.
  intros Hm. unfold sub_variable_from.
  pose proof (match_variable_rest_length _ _ Hm) as Hlen.
  destruct s as [|c s]; [discriminate|].
  cbn [length sub_variable_scan]. rewrite Hm. f_equal.
  simpl in Hlen. apply sub_variable_scan_fuel; lia.
Qed.

(** Elsewhere the character is copied. *)
Lemma sub_from_copy (d : bool) (c : ascii) (s : str) :
  d = true \/ match_variable (c :: s) = None ->
  sub_variable_from repl d (c :: s)
  = c :: sub_variable_from repl (is_dollar c) s.
Proof.
  intros H. unfold sub_variable_from. cbn [length sub_variable_scan].
  now destruct H as [->| ->]; [|destruct d].
Qed.

(** A stretch without an opening brace is copied. *)
Lemma sub_from_no_open (a rest : str) (d : bool) :
  forallb (fun c => negb (Ascii.eqb "{" c)) a = true ->
  sub_variable_from repl d (a ++ rest)
  = a ++ sub_variable_from repl (after_dollar_of d a) rest.
Proof.
  revert d; induction a as [|x a IH]; intros d Ha; [reflexivity|].
  simpl in Ha. apply andb_true_iff in Ha as [Hx Ha].
  apply negb_true_iff in Hx.
  cbn [app after_dollar_of]. rewrite sub_from_copy.
  - now rewrite IH.
  - right. now apply match_variable_not_open.
Qed.

Lemma name_no_open (name : str) :
  forallb is_name_char name = true ->
  forallb (fun c => negb (Ascii.eqb "{" c)) (name ++ lit "}}") = true.
Proof.
  intros H. rewrite forallb_app. apply andb_true_iff. split; [|reflexivity].
  rewrite forallb_forall in *. intros c Hc.
  apply negb_true_iff, not_brace_open, is_name_char_not_brace. now apply H.
Qed.

Lemma after_dollar_of_app (d : bool) (a b : str) :
  after_dollar_of d (a ++ b) = after_dollar_of (after_dollar_of d a) b.
Proof.
  revert d; induction a as [|x a IH]; intros d; [reflexivity|]. apply IH.
Qed.

(** A placeholder that the lookbehind allows is replaced. *)
Lemma sub_from_placeholder (name rest : str) :
  valid_name name = true ->
  sub_variable_from repl false (placeholder name ++ rest)
  = repl {| vm_all := placeholder name; vm_name := name; vm_rest := rest |}
    ++ sub_variable_from repl false rest.
Proof.
  intros H. now rewrite (sub_from_match _ _ (match_variable_placeholder _ rest H)).
Qed.

(** A placeholder after a dollar sign is copied. *)
Lemma sub_from_placeholder_dollar (name rest : str) :
  valid_name name = true ->
  sub_variable_from repl true (placeholder name ++ rest)
  = placeholder name ++ sub_variable_from repl false rest.
Proof.
  intros H. pose proof (valid_name_chars _ H) as Hchars.
  change (placeholder name ++ rest)
    with ("{"%char :: "{"%char :: (name ++ lit "}}") ++ rest).
  rewrite sub_from_copy by now left.
  rewrite sub_from_copy.
  - change (is_dollar "{") with false.
    rewrite (sub_from_no_open _ _ _ (name_no_open _ Hchars)).
    rewrite after_dollar_of_app. reflexivity.
  - right. destruct name as [|c run]; [discriminate|]. cbn [app].
    apply match_variable_not_open2.
    apply not_brace_open, is_name_char_not_brace.
    simpl in Hchars. now apply andb_true_iff in Hchars as [-> _].
Qed.
End SubstitutionEquations.

(* ========================================================================= *)
(** * Substitution is local to the placeholders *)
(* ========================================================================= *)

Lemma span_app_stop (f : ascii -> bool) (a : str) (x : ascii) (b : str) :
  f x = false ->
  span f (a ++ x :: b) = (fst (span f a), snd (span f a) ++ x :: b).
Proof.
  intros Hx. induction a as [|y a IH]; simpl.
  - now rewrite Hx.
  - destruct (f y); [|reflexivity].
    rewrite IH. now destruct (span f a).
Qed.

Lemma strip_close_app (r : str) (x : ascii) (b : str) :
  Ascii.eqb "}" x = false ->
  strip_prefix ["}"; "}"]%char (r ++ x :: b)
  = option_map (fun r'' => r'' ++ x :: b) (strip_prefix ["}"; "}"]%char r).
Proof.
  intros Hx. destruct r as [|a [|a' r]]; cbn [app strip_prefix].
  - now rewrite Hx.
  - destruct (Ascii.eqb "}" a); [now rewrite Hx | reflexivity].
  - destruct (Ascii.eqb "}" a); [|reflexivity].
    now destruct (Ascii.eqb "}" a').
Qed.

(** Opening braces after a text in hand neither complete nor spoil a match
    that starts in it. *)
Lemma match_variable_app (q X : str) :
  q <> [] ->
  match_variable (q ++ lit "{{" ++ X)
  = option_map (extend_match (lit "{{" ++ X)) (match_variable q).
Proof.
  intros Hq. destruct q as [|a q]; [contradiction|].
  unfold match_variable. remember (lit "}}") as close eqn:Hclose.
  cbn [lit list_ascii_of_string app strip_prefix].
  destruct (Ascii.eqb "{" a); [|reflexivity].
  destruct q as [|a' q]; [reflexivity|]. cbn [app strip_prefix].
  destruct (Ascii.eqb "{" a'); [|reflexivity].
  destruct q as [|c r]; [reflexivity|]. cbn [app].
  destruct (is_upper c); [|reflexivity].
  rewrite span_app_stop by reflexivity.
  destruct (span is_name_char r) as [run r']. cbn [fst snd].
  subst close. change (lit "}}") with ["}"; "}"]%char.
  rewrite strip_close_app by reflexivity.
  now destruct (strip_prefix ["}"%char; "}"%char] r').
Qed.

Lemma after_dollar_of_placeholder (d : bool) (name rest : str) :
  after_dollar_of d (placeholder name ++ rest) = after_dollar_of false rest.
Proof.
  unfold placeholder. now rewrite <- !app_assoc, !after_dollar_of_app.
Qed.

Section SubstitutionLocal.
Variable self : TemplateEngine.

Local Abbreviation subst := (sub_variable_from (replace_variable self)).

Lemma replace_variable_extend (more : str) (m : var_match) :
  replace_variable self (extend_match more m) = replace_variable self m.
Proof. reflexivity. Qed.

(** The text before a pair of opening braces is substituted on its own. *)
Lemma sub_from_app_open (n : nat) (pre X : str) (d : bool) :
  length pre <= n ->
  subst d (pre ++ lit "{{" ++ X)
  = subst d pre ++ subst (after_dollar_of d pre) (lit "{{" ++ X).
Proof.
  revert pre d; induction n as [|n IH]; intros pre d Hn.
  - destruct pre; [reflexivity | simpl in Hn; lia].
  - destruct pre as [|c pre]; [reflexivity|].
    assert (Hne : c :: pre <> []) by discriminate.
    pose proof (match_variable_app (c :: pre) X Hne) as Happ.
    destruct d.
    + cbn [app]. rewrite !sub_from_copy by now left.
      cbn [app after_dollar_of]. f_equal. apply IH. simpl in Hn. lia.
    + destruct (match_variable (c :: pre)) as [m|] eqn:Hm.
      * rewrite (sub_from_match _ _ _ Happ), (sub_from_match _ _ _ Hm).
        rewrite replace_variable_extend. cbn [extend_match vm_rest].
        rewrite <- app_assoc. f_equal.
        pose proof (match_variable_rest_length _ _ Hm) as Hlen.
        rewrite IH by (simpl in Hn, Hlen; lia). f_equal. f_equal.
        apply match_variable_Some in Hm as (_ & Hall & Hs).
        rewrite Hs, Hall. now rewrite after_dollar_of_placeholder.
      * cbn [app] in *. rewrite !sub_from_copy by now right.
        cbn [app after_dollar_of]. f_equal. apply IH. simpl in Hn. lia.
Qed.

(** Every placeholder is replaced by the value of its name, or kept when the
    name is unknown or a dollar sign stands before it; the text before it and
    the text after it are substituted on their own. *)
Lemma process_variables_placeholder (pre name post : str) :
  valid_name name = true ->
  _process_variables self (pre ++ placeholder name ++ post)
  = _process_variables self pre
    ++ (if ends_with_dollar pre then placeholder name
        else dict_get_default (variables self) name (placeholder name))
    ++ _process_variables self post.
Proof.
  intros Hname. unfold _process_variables, sub_variable.
  change (placeholder name ++ post)
    with (lit "{{" ++ (name ++ lit "}}") ++ post).
  rewrite (sub_from_app_open (length pre)) by lia.
  change (lit "{{" ++ (name ++ lit "}}") ++ post)
    with (placeholder name ++ post).
  f_equal. fold (ends_with_dollar pre).
  destruct (ends_with_dollar pre).
  - now rewrite sub_from_placeholder_dollar.
  - now rewrite sub_from_placeholder.
Qed.

(** A text in which every placeholder stands after a dollar sign or has an
    unknown name is left as it is. *)
Lemma sub_from_unchanged (n : nat) (t : str) (d : bool) :
  length t <= n ->
  (forall pre name post,
     valid_name name = true -> t = pre ++ placeholder name ++ post ->
     after_dollar_of d pre = true \/ dict_get (variables self) name = None) ->
  subst d t = t.
Proof.
  revert t d; induction n as [|n IH]; intros t d Hn Hocc.
  - destruct t; [reflexivity | simpl in Hn; lia].
  - destruct t as [|c t]; [reflexivity|].
    assert (Hcopy : subst (is_dollar c) t = t).
    { apply IH; [simpl in Hn; lia|].
      intros pre name post Hname ->.
      apply (Hocc (c :: pre) name post Hname). reflexivity. }
    destruct d; [rewrite sub_from_copy by (now left); now rewrite Hcopy|].
    destruct (match_variable (c :: t)) as [m|] eqn:Hm.
    + rewrite (sub_from_match _ _ _ Hm).
      pose proof (match_variable_rest_length _ _ Hm) as Hlen.
      apply match_variable_Some in Hm as (Hname & Hall & Hs).
      destruct (Hocc [] (vm_name m) (vm_rest m) Hname) as [Hd|Hunknown];
        [now rewrite <- Hall | discriminate |].
      unfold replace_variable, dict_get_default. rewrite Hunknown.
      rewrite Hs. f_equal.
      apply IH; [simpl in Hn, Hlen; lia|].
      intros pre name post Hname' Hrest.
      destruct (Hocc (vm_all m ++ pre) name post Hname') as [Hd|Hunk];
        [rewrite Hs, Hrest; now rewrite <- app_assoc | | now right].
      left. rewrite Hall in Hd.
      now rewrite after_dollar_of_placeholder in Hd.
    + rewrite sub_from_copy by (now right). now rewrite Hcopy.
Qed.
End SubstitutionLocal.

(* ========================================================================= *)
(** * The template processor *)
(* ========================================================================= *)

(** [process_string] raises when the resolver does; when the resolver
    returns, the two stages after it are pure. *)
Lemma process_string_stages
  (registry : dict condition) (env : environ) (limit : nat)
  (self : TemplateEngine) (content : str) :
  process_string registry env limit self content
  = match _process_conditionals registry env limit content with
    | Some (resolved, w) =>
        Some (rstrip (_process_variables self resolved) ++ newline, w)
    | None => None
    end.
Proof.
  unfold process_string.
  destruct (_process_conditionals registry env limit content) as [[r w]|];
    [|reflexivity].
  cbn [bind ret]. now rewrite app_nil_r.
Qed.

(** The end-to-end examples of the documentation. *)
Example process_string_derived_variable :
  let env := [(lit "PYTHON_VERSION", lit "3.12")] in
  process_string CONDITIONS env 250 (__init__ env)
    (lit "py{{PYTHON_VERSION_NODOT}}")
  = Some (lit "py312" ++ newline, []).
Proof. reflexivity. Qed.

Example process_string_composite_condition :
  let env := [(lit "INCLUDE_POSTGRES", lit "true");
              (lit "INCLUDE_REDIS", lit "false")] in
  process_string CONDITIONS env 250 (__init__ env)
    (lit "{{#IF_HAS_SERVICES}}services: yes{{#ELSE}}services: no{{/IF_HAS_SERVICES}}")
  = Some (lit "services: yes" ++ newline, []).
Proof. reflexivity. Qed.

(** No variable is called [NOT_DECLARED], whatever the environment. *)
Lemma load_variables_not_declared (env : environ) :
  dict_get (_load_variables env) (lit "NOT_DECLARED") = None.
Proof.
  unfold _load_variables, compute_derived_variables.
  match goal with |- context [if ?b then _ else _] => destruct b end;
    reflexivity.
Qed.

(** C8: substitution replaces the placeholders of valid names and nothing
    else.  A placeholder anywhere in a text is replaced by the value of its
    name when no dollar sign stands before it and the name is in the resolved
    set, and is kept otherwise, and the text before and after it is
    substituted on its own; a text in which every placeholder follows a dollar
    sign or has an unknown name is returned unchanged.  For every registry,
    environment and recursion limit, [process_string] maps the placeholder of
    [NOT_DECLARED] to itself followed by one newline. *)
Theorem variable_substitution_spec (self : TemplateEngine) :
  (forall pre name post,
     valid_name name = true ->
     _process_variables self (pre ++ placeholder name ++ post)
     = _process_variables self pre
       ++ (if ends_with_dollar pre then placeholder name
           else dict_get_default (variables self) name (placeholder name))
       ++ _process_variables self post)
  /\ (forall t,
        (forall pre name post,
           valid_name name = true -> t = pre ++ placeholder name ++ post ->
           ends_with_dollar pre = true
           \/ dict_get (variables self) name = None) ->
        _process_variables self t = t)
  /\ (forall registry env limit,
        process_string registry env limit (__init__ env)
          (lit "{{NOT_DECLARED}}")
        = Some (lit "{{NOT_DECLARED}}" ++ newline, [])).
Proof.
  split; [apply process_variables_placeholder|]. split.
  - intros t Hocc. apply (sub_from_unchanged self (length t)); [lia|].
    exact Hocc.
  - intros registry env limit. unfold process_string, _process_conditionals.
    rewrite process_no_conditional by reflexivity.
    rewrite bind_ret_l. unfold ret. do 2 f_equal.
    change (lit "{{NOT_DECLARED}}")
      with ([] ++ placeholder (lit "NOT_DECLARED") ++ []) at 1.
    rewrite process_variables_placeholder by reflexivity.
    cbn [ends_with_dollar after_dollar_of].
    unfold dict_get_default, __init__. cbn [variables].
    rewrite load_variables_not_declared. reflexivity.
Qed.

Lemma variable_substitution_spec_witness :
  let self := __init__ [(lit "PROJECT_NAME", lit "demo")] in
  valid_name (lit "PROJECT_NAME") = true
  /\ _process_variables self
       (lit "name: " ++ placeholder (lit "PROJECT_NAME") ++ lit "!")
     = lit "name: demo!"
  /\ _process_variables self
       (lit "run: $" ++ placeholder (lit "PROJECT_NAME") ++ lit "!")
     = lit "run: ${{PROJECT_NAME}}!".
Proof.
  intros self.
  assert (Hname : valid_name (lit "PROJECT_NAME") = true) by reflexivity.
  destruct (variable_substitution_spec self) as (Hsub & _ & _).
  split; [exact Hname|]. split.
  - rewrite (Hsub (lit "name: ") (lit "PROJECT_NAME") (lit "!") Hname).
    reflexivity.
  - rewrite (Hsub (lit "run: $") (lit "PROJECT_NAME") (lit "!") Hname).
    reflexivity.
Defined.

(* ========================================================================= *)
(** * Substituting twice *)
(* ========================================================================= *)

Lemma dict_get_In {A : Type} (d : dict A) (k : str) (v : A) :
  dict_get d k = Some v -> In (k, v) d.
Proof.
  induction d as [|[k' v'] d IH]; simpl; [discriminate|].
  destruct (str_eqb k' k) eqn:E.
  - apply str_eqb_eq in E. intros [= <-]. left. now subst.
  - intros H. right. now apply IH.
Qed.

(** In a text that starts with a run of a class and then a character outside
    it, that character is determined. *)
Lemma prefix_class_unique (f : ascii -> bool) (a a' : str) (y y' : ascii)
  (r r' : str) :
  forallb f a = true -> f y = false ->
  forallb f a' = true -> f y' = false ->
  a ++ y :: r = a' ++ y' :: r' -> y = y'.
Proof.
  revert a'; induction a as [|x a IH]; intros [|x' a'] Ha Hy Ha' Hy';
    simpl in *.
  - now intros [= -> _].
  - intros [= <- _]. apply andb_true_iff in Ha' as [Hx _]. congruence.
  - intros [= -> _]. apply andb_true_iff in Ha as [Hx _]. congruence.
  - intros [= _ H]. apply andb_true_iff in Ha as [_ Ha].
    apply andb_true_iff in Ha' as [_ Ha']. now apply (IH a').
Qed.

Lemma existsb_split_first (f : ascii -> bool) (v : str) :
  existsb (fun c => negb (f c)) v = true ->
  exists v1 y v2, v = v1 ++ y :: v2 /\ forallb f v1 = true /\ f y = false.
Proof.
  induction v as [|x v IH]; simpl; [discriminate|].
  destruct (f x) eqn:Hx; simpl.
  - intros H. destruct (IH H) as (v1 & y & v2 & -> & Hv1 & Hy).
    exists (x :: v1), y, v2. simpl. now rewrite Hx.
  - intros _. now exists [], x, v.
Qed.

(** A text that starts with a stretch free of closing braces has its first
    closing brace after that stretch. *)
Lemma app_eq_close (v X a w : str) :
  forallb (fun c => negb (Ascii.eqb "}" c)) v = true ->
  v ++ X = a ++ "}"%char :: w ->
  exists a', a = v ++ a' /\ X = a' ++ "}"%char :: w.
Proof.
  revert a; induction v as [|x v IH]; intros a Hv H; simpl in *.
  - now exists a.
  - apply andb_true_iff in Hv as [Hx Hv]. apply negb_true_iff in Hx.
    destruct a as [|x' a]; simpl in H.
    + injection H as -> _. cbv in Hx. discriminate.
    + injection H as <- H. destruct (IH a Hv H) as (a' & -> & HX).
      now exists a'.
Qed.

Section Idempotence.
Variable self : TemplateEngine.
Hypothesis Hplain : plain_values (variables self) = true.

Local Abbreviation V := (variables self).
Local Abbreviation subst := (sub_variable_from (replace_variable self)).

(** The class of the characters that a known name is made of. *)
Local Abbreviation known_char :=
  (fun c => is_name_char c && key_char (variables self) c).

Lemma known_value_plain (name v : str) :
  dict_get V name = Some v -> plain_value V v = true.
Proof.
  intros H. apply dict_get_In in H.
  pose proof Hplain as Hall. unfold plain_values in Hall.
  rewrite forallb_forall in Hall. exact (Hall _ H).
Qed.

Lemma known_name_chars (name v : str) :
  dict_get V name = Some v -> forallb (key_char V) name = true.
Proof.
  intros H. apply dict_get_In in H. apply forallb_forall. intros c Hc.
  unfold key_char. apply existsb_exists. exists (name, v). split; [exact H|].
  apply existsb_exists. exists c. split; [exact Hc|]. apply Ascii.eqb_refl.
Qed.

Lemma plain_value_no_brace (v : str) :
  plain_value V v = true -> forallb (fun c => negb (is_brace c)) v = true.
Proof.
  unfold plain_value. intros H. now apply andb_true_iff in H as [H _].
Qed.

Lemma plain_value_no_open (v : str) :
  plain_value V v = true ->
  forallb (fun c => negb (Ascii.eqb "{" c)) v = true.
Proof.
  intros H. apply plain_value_no_brace in H.
  rewrite forallb_forall in *. intros c Hc.
  apply negb_true_iff, not_brace_open, negb_true_iff. now apply H.
Qed.

Lemma plain_value_no_close (v : str) :
  plain_value V v = true ->
  forallb (fun c => negb (Ascii.eqb "}" c)) v = true.
Proof.
  intros H. apply plain_value_no_brace in H.
  rewrite forallb_forall in *. intros c Hc.
  apply negb_true_iff, not_brace_close, negb_true_iff. now apply H.
Qed.

(** A plain value does not start a text that is a run of characters of known
    names followed by a brace. *)
Lemma plain_value_not_run (v X N : str) (y : ascii) (r : str) :
  plain_value V v = true ->
  forallb known_char N = true -> is_brace y = true ->
  v ++ X <> N ++ y :: r.
Proof.
  intros Hv HN Hy Heq.
  pose proof (plain_value_no_brace _ Hv) as Hnb.
  unfold plain_value in Hv. apply andb_true_iff in Hv as [_ Hex].
  assert (Hex' : existsb (fun c => negb (known_char c)) v = true).
  { apply existsb_exists. apply existsb_exists in Hex as (c & Hc & Hkey).
    exists c. split; [exact Hc|]. apply negb_true_iff in Hkey.
    rewrite Hkey. now rewrite andb_false_r. }
  apply existsb_split_first in Hex' as (v1 & z & v2 & -> & Hv1 & Hz).
  rewrite <- app_assoc in Heq. cbn [app] in Heq.
  assert (Hy' : known_char y = false).
  { destruct (is_name_char y) eqn:E; [|reflexivity].
    apply is_name_char_not_brace in E. congruence. }
  pose proof (prefix_class_unique _ _ _ _ _ _ _ Hv1 Hz HN Hy' Heq) as ->.
  rewrite forallb_app in Hnb. apply andb_true_iff in Hnb as [_ Hnb].
  simpl in Hnb. now rewrite Hy in Hnb.
Qed.

(** The three steps of the scan. *)
Lemma sub_from_cases (d : bool) (s : str) :
  s = []
  \/ (exists m v,
        d = false /\ match_variable s = Some m
        /\ dict_get V (vm_name m) = Some v
        /\ subst d s = v ++ subst false (vm_rest m))
  \/ (exists m,
        d = false /\ match_variable s = Some m
        /\ dict_get V (vm_name m) = None
        /\ subst d s = vm_all m ++ subst false (vm_rest m))
  \/ (exists c s',
        s = c :: s' /\ (d = true \/ match_variable s = None)
        /\ subst d s = c :: subst (is_dollar c) s').
Proof.
  destruct s as [|c s]; [now left|]. right.
  destruct d.
  - right. right. exists c, s. split; [reflexivity|]. split; [now left|].
    apply sub_from_copy. now left.
  - destruct (match_variable (c :: s)) as [m|] eqn:Hm.
    + rewrite (sub_from_match _ _ _ Hm). unfold replace_variable.
      unfold dict_get_default.
      destruct (dict_get V (vm_name m)) as [v|] eqn:Hv.
      * left. now exists m, v.
      * right. left. now exists m.
    + right. right. exists c, s. split; [reflexivity|]. split; [now right|].
      apply sub_from_copy. now right.
Qed.
Lemma known_char_not_brace (c : ascii) :
  known_char c = true -> is_brace c = false.
Proof.
  intros H. apply andb_true_iff in H as [H _].
  now apply is_name_char_not_brace.
Qed.

Lemma placeholder_cons (name rest : str) :
  placeholder name ++ rest
  = "{"%char :: "{"%char :: name ++ "}"%char :: "}"%char :: rest.
Proof.
  unfold placeholder. cbn [lit list_ascii_of_string app].
  now rewrite <- app_assoc.
Qed.

(** When the substituted text starts with a run of characters of known names
    and two closing braces, so does the text. *)
Lemma run_preserved (N : str) :
  forall (s : str) (d : bool) (w : str),
    forallb known_char N = true ->
    subst d s = N ++ "}"%char :: "}"%char :: w ->
    exists w', s = N ++ "}"%char :: "}"%char :: w'.
Proof.
  induction N as [|x N IH]; intros s d w HN H.
  - destruct (sub_from_cases d s)
      as [->|[(m & v & _ & _ & Hv & Hs)|[(m & _ & Hm & _ & Hs)
                                       |(c & s' & -> & _ & Hs)]]].
    + discriminate.
    + rewrite Hs in H. exfalso.
      exact (plain_value_not_run v _ [] "}"%char _ (known_value_plain _ _ Hv)
               eq_refl eq_refl H).
    + apply match_variable_Some in Hm as (_ & Hall & _).
      rewrite Hs, Hall, placeholder_cons in H. discriminate.
    + rewrite Hs in H. injection H as -> H.
      destruct (sub_from_cases (is_dollar "}") s')
        as [->|[(m & v & _ & _ & Hv & Hs')|[(m & _ & Hm & _ & Hs')
                                          |(c & s'' & -> & _ & Hs')]]].
      * discriminate.
      * rewrite Hs' in H. exfalso.
        exact (plain_value_not_run v _ [] "}"%char _ (known_value_plain _ _ Hv)
                 eq_refl eq_refl H).
      * apply match_variable_Some in Hm as (_ & Hall & _).
        rewrite Hs', Hall, placeholder_cons in H. discriminate.
      * rewrite Hs' in H. injection H as -> _. now exists s''.
  - pose proof HN as HN'. simpl in HN'.
    apply andb_true_iff in HN' as [Hx HN'].
    destruct (sub_from_cases d s)
      as [->|[(m & v & _ & _ & Hv & Hs)|[(m & _ & Hm & _ & Hs)
                                       |(c & s' & -> & _ & Hs)]]].
    + discriminate.
    + rewrite Hs in H. exfalso.
      exact (plain_value_not_run v _ (x :: N) "}"%char _
               (known_value_plain _ _ Hv)
               HN eq_refl H).
    + apply match_variable_Some in Hm as (_ & Hall & _).
      rewrite Hs, Hall, placeholder_cons in H. injection H as <- _.
      apply known_char_not_brace in Hx. discriminate.
    + rewrite Hs in H. injection H as -> H.
      destruct (IH _ _ _ HN' H) as (w' & ->). now exists w'.
Qed.

(** What follows a closing brace of the substituted text is the substitution
    of a shorter text. *)
Lemma tail_after_close (n : nat) :
  forall (s : str) (d : bool) (a w : str),
    length s <= n ->
    subst d s = a ++ "}"%char :: w ->
    exists s2, length s2 < length s /\ w = subst false s2.
Proof.
  induction n as [|n IH]; intros s d a w Hn H.
  - destruct s; [|simpl in Hn; lia]. now destruct a.
  - destruct (sub_from_cases d s)
      as [->|[(m & v & _ & Hm & Hv & Hs)|[(m & _ & Hm & _ & Hs)
                                        |(c & s' & -> & _ & Hs)]]].
    + now destruct a.
    + rewrite Hs in H.
      pose proof (match_variable_rest_length _ _ Hm) as Hlen.
      apply app_eq_close in H as (a' & _ & H);
        [|exact (plain_value_no_close _ (known_value_plain _ _ Hv))].
      destruct (IH (vm_rest m) false a' w) as (s2 & Hs2 & ->);
        [simpl in *; lia | exact H |].
      exists s2. split; [lia|reflexivity].
    + pose proof (match_variable_rest_length _ _ Hm) as Hlen.
      apply match_variable_Some in Hm as (Hname & Hall & Heq).
      apply (f_equal (@length ascii)) in Heq.
      rewrite Hall, placeholder_cons in Heq.
      rewrite Hs, Hall, placeholder_cons in H.
      change ("{"%char :: "{"%char :: vm_name m
              ++ "}"%char :: "}"%char :: subst false (vm_rest m))
        with (("{"%char :: "{"%char :: vm_name m)
              ++ "}"%char :: "}"%char :: subst false (vm_rest m)) in H.
      apply app_eq_close in H as (a' & _ & H).
      2:{ cbn [forallb]. change (negb (Ascii.eqb "}" "{")) with true.
          cbn [andb]. apply valid_name_chars in Hname.
          rewrite forallb_forall in *. intros c Hc.
          apply negb_true_iff, not_brace_close, is_name_char_not_brace.
          now apply Hname. }
      destruct a' as [|y [|y' a']]; cbn [app] in H.
      * injection H as <-. exists ("}"%char :: vm_rest m). split.
        -- simpl in Heq |- *. rewrite length_app in Heq. simpl in Heq. lia.
        -- rewrite sub_from_copy; [reflexivity|].
           right. now apply match_variable_not_open.
      * injection H as _ <-. exists (vm_rest m). split; [lia|reflexivity].
      * injection H as _ _ H.
        destruct (IH (vm_rest m) false a' w) as (s2 & Hs2 & ->);
        [simpl in *; lia | exact H |].
        exists s2. split; [lia|reflexivity].
    + rewrite Hs in H. destruct a as [|y a]; cbn [app] in H.
      * injection H as -> <-. exists s'. split; [simpl; lia|reflexivity].
      * injection H as _ H. simpl in Hn.
        destruct (IH s' (is_dollar c) a w) as (s2 & Hs2 & ->);
          [simpl in *; lia | exact H |].
        exists s2. split; [simpl; lia|reflexivity].
Qed.
(** A match that the first substitution brings about has a name that is not
    in the resolved set. *)
Lemma new_match_unknown (c : ascii) (s : str) (m : var_match) :
  match_variable (c :: s) = None ->
  match_variable (c :: subst (is_dollar c) s) = Some m ->
  dict_get V (vm_name m) = None.
Proof.
  intros Hnone Hm.
  destruct (dict_get V (vm_name m)) as [v0|] eqn:Hknown; [|reflexivity].
  exfalso.
  apply match_variable_Some in Hm as (Hname & Hall & Heq).
  rewrite Hall, placeholder_cons in Heq. injection Heq as -> Heq.
  change (is_dollar "{") with false in Heq.
  assert (HN : forallb known_char (vm_name m) = true).
  { apply valid_name_chars in Hname.
    pose proof (known_name_chars _ _ Hknown) as Hkey.
    rewrite forallb_forall in *. intros x Hx.
    now rewrite (Hname x Hx), (Hkey x Hx). }
  destruct (sub_from_cases false s)
    as [->|[(m2 & v & _ & _ & Hv & Hs)|[(m2 & _ & Hm2 & _ & Hs)
                                      |(c & s' & -> & _ & Hs)]]].
  - discriminate.
  - rewrite Hs in Heq.
    exact (plain_value_not_run v _ [] "{"%char _ (known_value_plain _ _ Hv)
             eq_refl eq_refl Heq).
  - apply match_variable_Some in Hm2 as (_ & Hall2 & _).
    rewrite Hs, Hall2, placeholder_cons in Heq. injection Heq as Heq.
    destruct (vm_name m) as [|x N]; [discriminate|].
    injection Heq as <- _. simpl in HN. discriminate.
  - rewrite Hs in Heq. injection Heq as -> Heq.
    change (is_dollar "{") with false in Heq.
    destruct (run_preserved _ _ _ _ HN Heq) as (w' & ->).
    rewrite <- placeholder_cons in Hnone.
    rewrite (match_variable_placeholder _ _ Hname) in Hnone. discriminate.
Qed.

(** Substituting the substituted text changes nothing, whatever stands
    before either text, as long as a dollar sign before the first one stands
    before the second one too. *)
Lemma sub_from_idempotent (n : nat) :
  forall (s : str) (d d' : bool),
    length s <= n -> (d = true -> d' = true) ->
    subst d' (subst d s) = subst d s.
Proof.
  induction n as [|n IH]; intros s d d' Hn Hd.
  - destruct s; [|simpl in Hn; lia]. reflexivity.
  - destruct (sub_from_cases d s)
      as [->|[(m & v & _ & Hm & Hv & Hs)|[(m & _ & Hm & Hv & Hs)
                                        |(c & s' & -> & Hc & Hs)]]].
    + reflexivity.
    + pose proof (match_variable_rest_length _ _ Hm) as Hlen.
      rewrite Hs.
      rewrite (sub_from_no_open _ _ _ _
                 (plain_value_no_open _ (known_value_plain _ _ Hv))).
      f_equal. apply IH; [lia | discriminate].
    + pose proof (match_variable_rest_length _ _ Hm) as Hlen.
      apply match_variable_Some in Hm as (Hname & Hall & _).
      rewrite Hs, Hall. destruct d'.
      * rewrite sub_from_placeholder_dollar by exact Hname.
        f_equal. apply IH; [lia | discriminate].
      * rewrite sub_from_placeholder by exact Hname.
        unfold replace_variable at 1, dict_get_default. cbn [vm_name vm_all].
        rewrite Hv. f_equal. apply IH; [lia | discriminate].
    + rewrite Hs. simpl in Hn.
      assert (Htail : subst (is_dollar c) (subst (is_dollar c) s')
                      = subst (is_dollar c) s')
        by (apply IH; [lia | tauto]).
      destruct d'; [rewrite sub_from_copy by (now left); now rewrite Htail|].
      destruct (match_variable (c :: subst (is_dollar c) s')) as [m|] eqn:Hm;
        [|rewrite sub_from_copy by (now right); now rewrite Htail].
      destruct Hc as [->|Hnone]; [now specialize (Hd eq_refl)|].
      pose proof (new_match_unknown _ _ _ Hnone Hm) as Hunknown.
      rewrite (sub_from_match _ _ _ Hm).
      unfold replace_variable at 1, dict_get_default. rewrite Hunknown.
      apply match_variable_Some in Hm as (_ & Hall & Heq).
      rewrite Heq. f_equal.
      rewrite Hall, placeholder_cons in Heq. injection Heq as _ Heq.
      replace ("{"%char :: vm_name m ++ "}"%char :: "}"%char :: vm_rest m)
        with (("{"%char :: vm_name m ++ ["}"%char])
              ++ "}"%char :: vm_rest m) in Heq
        by (cbn [app]; now rewrite <- app_assoc).
      destruct (tail_after_close (length s') s' _ _ _ (le_n _) Heq)
        as (s2 & Hs2 & ->).
      apply IH; [lia | tauto].
Qed.
End Idempotence.

(** C2, the claim as stated: with the project description set to the
    placeholder of the project name, the first substitution yields that
    placeholder and the second one the project name. *)
Lemma substitution_not_idempotent :
  _process_variables (__init__ self_referring_environ)
    (_process_variables (__init__ self_referring_environ)
       (lit "{{PROJECT_DESCRIPTION}}"))
  <> _process_variables (__init__ self_referring_environ)
       (lit "{{PROJECT_DESCRIPTION}}").
Proof. vm_compute. discriminate. Qed.

(** C2, amended: substitution is idempotent for every text when every value
    of the resolved set is free of braces and holds a character that occurs
    in no variable name. *)
Theorem substitution_idempotent (self : TemplateEngine) (t : str) :
  plain_values (variables self) = true ->
  _process_variables self (_process_variables self t)
  = _process_variables self t.
Proof.
  intros Hplain. unfold _process_variables, sub_variable.
  apply (sub_from_idempotent self Hplain (length t)); [lia | tauto].
Qed.

(** The defaults of the registry are plain values. *)
Lemma substitution_idempotent_witness :
  plain_values (variables (__init__ [])) = true
  /\ _process_variables (__init__ [])
       (_process_variables (__init__ [])
          (lit "{{{{PROJECT_NAME}}}} {{A{{NODE_VERSION}}}}"))
     = _process_variables (__init__ [])
         (lit "{{{{PROJECT_NAME}}}} {{A{{NODE_VERSION}}}}").
Proof.
  assert (H : plain_values (variables (__init__ [])) = true)
    by (vm_compute; reflexivity).
  split; [exact H|].
  apply (substitution_idempotent (__init__ []) _ H).
Defined.

(* ========================================================================= *)
(** * Files *)
(* ========================================================================= *)

Lemma dict_get_set_same {A : Type} (d : dict A) (k : str) (v : A) :
  dict_get (dict_set d k v) k = Some v.
Proof.
  induction d as [|[k' v'] d IH]; simpl.
  - now rewrite str_eqb_refl.
  - destruct (str_eqb k' k) eqn:E; simpl; rewrite E; [reflexivity|exact IH].
Qed.

Lemma dict_get_set_other {A : Type} (d : dict A) (k k' : str) (v : A) :
  k' <> k -> dict_get (dict_set d k v) k' = dict_get d k'.
Proof.
  intros Hne. induction d as [|[k0 v0] d IH]; simpl.
  - destruct (str_eqb k k') eqn:E; [|reflexivity].
    apply str_eqb_eq in E. congruence.
  - destruct (str_eqb k0 k) eqn:E; simpl.
    + apply str_eqb_eq in E. subst k0.
      destruct (str_eqb k k') eqn:E'; [|reflexivity].
      apply str_eqb_eq in E'. congruence.
    + destruct (str_eqb k0 k'); [reflexivity|exact IH].
Qed.

Lemma write_text_posix (data : str) : write_text newline data = data.
Proof.
  unfold write_text. induction data as [|c data IH]; [reflexivity|].
  cbn [flat_map]. rewrite IH.
  destruct (Ascii.eqb_spec c "010") as [->|_]; reflexivity.
Qed.

(** A text without a carriage return is read as it is. *)
Lemma read_text_plain (text : str) :
  forallb (fun c => negb (Ascii.eqb c "013")) text = true ->
  read_text text = text.
Proof.
  unfold read_text. induction text as [|c text IH]; [reflexivity|].
  cbn [forallb universal_newlines]. intros H.
  apply andb_true_iff in H as [Hc H]. apply negb_true_iff in Hc.
  rewrite Hc, andb_false_r. now rewrite IH.
Qed.




(* ========================================================================= *)
(** * The resolved variable set *)
(* ========================================================================= *)

Lemma dict_get_None {A : Type} (d : dict A) (k : str) :
  dict_get d k = None <-> ~ In k (map fst d).
Proof.
  induction d as [|[k' v] d IH]; simpl; [tauto|].
  destruct (str_eqb k' k) eqn:E.
  - apply str_eqb_eq in E. split; [discriminate | tauto].
  - apply str_eqb_neq in E. rewrite IH. tauto.
Qed.

(** The names of the resolved set do not depend on the environment. *)
Lemma load_variables_names (env : environ) :
  map fst (_load_variables env) = map fst VARIABLES ++ derived_names.
Proof.
  unfold _load_variables, compute_derived_variables.
  match goal with |- context [if ?b then _ else _] => destruct b end;
    reflexivity.
Qed.

Ltac load_variables_lookup :=
  unfold _load_variables, compute_derived_variables;
  match goal with |- context [if existsb ?f ?l then _ else _] =>
    destruct (existsb f l) end;
  reflexivity.

Lemma load_variables_declared (env : environ) (name env_name default : str) :
  In (name, (env_name, default)) VARIABLES ->
  dict_get (_load_variables env) name
  = Some (dict_get_default env env_name default).
Proof.
  intros Hin. simpl in Hin.
  repeat (destruct Hin as [[= <- <- <-]|Hin]; [load_variables_lookup|]).
  contradiction.
Qed.

(** X1: whatever the environment, the resolved set holds the fifteen declared
    names and the three derived ones and no other name, and a declared name
    has the value of its environment variable, or its default when the
    variable is not set. *)
Theorem load_variables_total (env : environ) :
  (forall name env_name default,
     In (name, (env_name, default)) VARIABLES ->
     dict_get (_load_variables env) name
     = Some (dict_get_default env env_name default))
  /\ (forall name,
        dict_get (_load_variables env) name <> None
        <-> In name (map fst VARIABLES ++ derived_names)).
Proof.
  split; [intros name env_name default; apply load_variables_declared|].
  intros name. rewrite <- (load_variables_names env).
  pose proof (dict_get_None (_load_variables env) name) as H.
  destruct (dict_get (_load_variables env) name).
  - split; [intros _|discriminate].
    destruct (in_dec (list_eq_dec ascii_dec) name
                (map fst (_load_variables env))) as [Hin|Hout];
      [exact Hin|]. apply H in Hout. discriminate.
  - split; [congruence|]. intros Hin. now apply H in Hin.
Qed.

Lemma load_variables_total_witness :
  In (lit "DB_NAME", (lit "DB_NAME", lit "app_dev")) VARIABLES
  /\ dict_get (_load_variables [(lit "DB_NAME", lit "orders")]) (lit "DB_NAME")
     = Some (lit "orders")
  /\ dict_get (_load_variables []) (lit "DB_NAME") = Some (lit "app_dev").
Proof.
  assert (Hin : In (lit "DB_NAME", (lit "DB_NAME", lit "app_dev")) VARIABLES)
    by (simpl; tauto).
  split; [exact Hin|]. split.
  - exact (proj1 (load_variables_total [(lit "DB_NAME", lit "orders")])
             _ _ _ Hin).
  - exact (proj1 (load_variables_total []) _ _ _ Hin).
Defined.

(** ** The derived variables *)

Lemma count_char_app (c : ascii) (a b : str) :
  count_char c (a ++ b) = count_char c a + count_char c b.
Proof.
  unfold count_char. now rewrite filter_app, length_app.
Qed.

Lemma remove_char_count (c : ascii) (s : str) :
  count_char c (remove_char c s) = 0
  /\ length (remove_char c s) + count_char c s = length s.
Proof.
  unfold count_char, remove_char.
  induction s as [|x s [IH1 IH2]]; simpl; [now split|].
  rewrite (Ascii.eqb_sym x c).
  destruct (Ascii.eqb c x) eqn:E; simpl; [|rewrite E]; split; lia.
Qed.

Lemma remove_char_absent (c : ascii) (s : str) :
  count_char c s = 0 -> remove_char c s = s.
Proof.
  unfold count_char, remove_char.
  induction s as [|x s IH]; simpl; [reflexivity|].
  rewrite (Ascii.eqb_sym x c).
  destruct (Ascii.eqb c x); simpl; [discriminate|].
  intros H. now rewrite IH.
Qed.

Lemma load_variables_python_nodot (env : environ) :
  dict_get (_load_variables env) (lit "PYTHON_VERSION_NODOT")
  = Some (remove_char "."
            (dict_get_default env (lit "PYTHON_VERSION") (lit "3.12"))).
Proof. load_variables_lookup. Qed.

(** X2: [PYTHON_VERSION_NODOT] is the Python version of the environment (or
    the default "3.12") with exactly its dots removed: it holds no dot, it is
    shorter by the number of dots, and a version without a dot is kept as it
    is. *)
Theorem python_version_nodot (env : environ) :
  let py_ver := dict_get_default env (lit "PYTHON_VERSION") (lit "3.12") in
  exists v,
    dict_get (_load_variables env) (lit "PYTHON_VERSION_NODOT") = Some v
    /\ v = remove_char "." py_ver
    /\ count_char "." v = 0
    /\ length v + count_char "." py_ver = length py_ver
    /\ (count_char "." py_ver = 0 -> v = py_ver).
Proof.
  intros py_ver. exists (remove_char "." py_ver).
  split; [apply load_variables_python_nodot|]. split; [reflexivity|].
  split; [apply remove_char_count|]. split; [apply remove_char_count|].
  apply remove_char_absent.
Qed.

Lemma python_version_nodot_witness :
  dict_get (_load_variables [(lit "PYTHON_VERSION", lit "3.9.18")])
    (lit "PYTHON_VERSION_NODOT") = Some (lit "3918")
  /\ dict_get (_load_variables [(lit "PYTHON_VERSION", lit "312")])
       (lit "PYTHON_VERSION_NODOT") = Some (lit "312").
Proof.
  split.
  - destruct (python_version_nodot [(lit "PYTHON_VERSION", lit "3.9.18")])
      as (v & Hv & -> & _). exact Hv.
  - destruct (python_version_nodot [(lit "PYTHON_VERSION", lit "312")])
      as (v & Hv & _ & _ & _ & Hkeep). rewrite Hv. f_equal.
    apply Hkeep. reflexivity.
Defined.

Lemma split_char_cons (c : ascii) (s : str) :
  exists p ps, split_char c s = p :: ps.
Proof.
  destruct s as [|x s]; simpl; [now exists [], []|].
  destruct (Ascii.eqb x c); [now eexists _, _|].
  destruct (split_char c s); now eexists _, _.
Qed.

(** Joining what was split gives the text back. *)
Lemma join_split_char (c : ascii) (s : str) :
  join [c] (split_char c s) = s.
Proof.
  induction s as [|x s IH]; [reflexivity|]. simpl.
  destruct (split_char_cons c s) as (p & ps & Hs). rewrite Hs in *.
  destruct (Ascii.eqb_spec x c) as [->|Hne];
    destruct ps as [|q ps]; simpl in *; now subst.
Qed.

(** The parts of a split do not hold the separator. *)
Lemma split_char_parts (c : ascii) (s : str) :
  Forall (fun p => count_char c p = 0) (split_char c s).
Proof.
  induction s as [|x s IH]; simpl; [now repeat constructor|].
  destruct (Ascii.eqb_spec x c) as [->|Hne].
  - now constructor.
  - assert (Hx : forall p, count_char c p = 0 -> count_char c (x :: p) = 0).
    { intros p Hp. unfold count_char in *. simpl.
      destruct (Ascii.eqb_spec c x) as [->|_]; [contradiction|exact Hp]. }
    destruct (split_char c s) as [|p ps].
    + constructor; [now apply Hx | constructor].
    + inversion IH as [|? ? Hp Hps]; subst. constructor; [|exact Hps].
      now apply Hx.
Qed.

Lemma load_variables_go_short (env : environ) :
  dict_get (_load_variables env) (lit "GO_VERSION_SHORT")
  = Some (let go_ver :=
            dict_get_default env (lit "GO_VERSION") (lit "1.22.0") in
          let parts := split_char "." go_ver in
          if 2 <=? length parts then join (lit ".") (firstn 2 parts)
          else go_ver).
Proof. load_variables_lookup. Qed.

(** X3: [GO_VERSION_SHORT] is the Go version of the environment (or the
    default "1.22.0") cut before its second dot: the version is the short
    form followed by nothing or by a dot and more text, the short form holds
    at most one dot, and exactly one when something was cut. *)
Theorem go_version_short (env : environ) :
  let go_ver := dict_get_default env (lit "GO_VERSION") (lit "1.22.0") in
  exists short tail,
    dict_get (_load_variables env) (lit "GO_VERSION_SHORT") = Some short
    /\ go_ver = short ++ tail
    /\ (tail = [] \/ exists t, tail = "."%char :: t)
    /\ count_char "." short <= 1
    /\ (tail <> [] -> count_char "." short = 1).
Proof.
  intros go_ver. rewrite load_variables_go_short. fold go_ver. cbv zeta.
  pose proof (join_split_char "." go_ver) as Hjoin.
  pose proof (split_char_parts "." go_ver) as Hparts.
  destruct (split_char "." go_ver) as [|p1 [|p2 rest]] eqn:Hsplit.
  - destruct (split_char_cons "." go_ver) as (p & ps & H). congruence.
  - cbn [length Nat.leb]. exists go_ver, []. split; [reflexivity|].
    split; [now rewrite app_nil_r|]. split; [now left|].
    cbn [join] in Hjoin. inversion Hparts as [|? ? Hp _]; subst.
    rewrite Hp. split; [lia|congruence].
  - cbn [length Nat.leb firstn].
    inversion Hparts as [|? ? Hp1 Hrest]; subst.
    inversion Hrest as [|? ? Hp2 _]; subst.
    change (join (lit ".") [p1; p2]) with (p1 ++ lit "." ++ p2).
    assert (Hcount : count_char "." (p1 ++ lit "." ++ p2) = 1)
      by (rewrite !count_char_app, Hp1, Hp2; reflexivity).
    destruct rest as [|p3 rest].
    + exists (p1 ++ lit "." ++ p2), []. split; [reflexivity|].
      split; [rewrite app_nil_r; now rewrite <- Hjoin|].
      split; [now left|]. split; [lia|congruence].
    + exists (p1 ++ lit "." ++ p2),
             ("."%char :: join ["."%char] (p3 :: rest)).
      split; [reflexivity|]. split.
      * rewrite <- Hjoin. cbn [join lit list_ascii_of_string app].
        rewrite <- !app_assoc. reflexivity.
      * split; [right; now eexists|]. split; [lia|now intros _].
Qed.

Lemma go_version_short_witness :
  dict_get (_load_variables [(lit "GO_VERSION", lit "1.21.13")])
    (lit "GO_VERSION_SHORT") = Some (lit "1.21")
  /\ dict_get (_load_variables [(lit "GO_VERSION", lit "2")])
       (lit "GO_VERSION_SHORT") = Some (lit "2").
Proof.
  split.
  - destruct (go_version_short [(lit "GO_VERSION", lit "1.21.13")])
      as (short & tail & Hshort & _). rewrite Hshort.
    vm_compute in Hshort. now injection Hshort as <-.
  - destruct (go_version_short [(lit "GO_VERSION", lit "2")])
      as (short & tail & Hshort & _). rewrite Hshort.
    vm_compute in Hshort. now injection Hshort as <-.
Defined.

Lemma load_variables_rust_msrv (env : environ) :
  dict_get (_load_variables env) (lit "RUST_MSRV")
  = Some (let rust_ver :=
            dict_get_default env (lit "RUST_VERSION") (lit "stable") in
          if existsb (str_eqb rust_ver)
               [lit "stable"; lit "nightly"; lit "beta"]
          then lit "1.75" else rust_ver).
Proof.
  cbv zeta.
  destruct (existsb
              (str_eqb
                 (dict_get_default env (lit "RUST_VERSION") (lit "stable")))
              [lit "stable"; lit "nightly"; lit "beta"]) eqn:E;
    unfold _load_variables, compute_derived_variables;
    match goal with |- context [if existsb ?f ?l then _ else _] =>
      destruct (existsb f l) eqn:E'
    end;
    try reflexivity;
    discriminate (eq_trans (eq_sym E) E').
Qed.

(** X4: [RUST_MSRV] is "1.75" when the Rust version of the environment (or
    the default "stable") is one of the channel names "stable", "nightly" and
    "beta", and is that version otherwise; it is never a channel name. *)
Theorem rust_msrv_concrete (env : environ) :
  let rust_ver := dict_get_default env (lit "RUST_VERSION") (lit "stable") in
  let channels := [lit "stable"; lit "nightly"; lit "beta"] in
  exists v,
    dict_get (_load_variables env) (lit "RUST_MSRV") = Some v
    /\ (In rust_ver channels -> v = lit "1.75")
    /\ (~ In rust_ver channels -> v = rust_ver)
    /\ ~ In v channels.
Proof.
  intros rust_ver channels. rewrite load_variables_rust_msrv.
  fold rust_ver. cbv zeta. fold channels.
  destruct (existsb (str_eqb rust_ver) channels) eqn:E.
  - exists (lit "1.75"). split; [reflexivity|]. split; [reflexivity|].
    split; [|simpl; intros [H|[H|[H|[]]]]; discriminate].
    intros Hout. exfalso. apply Hout.
    apply existsb_exists in E as (x & Hx & Heq).
    apply str_eqb_eq in Heq. now subst.
  - assert (Hout : ~ In rust_ver channels).
    { intros Hin. assert (existsb (str_eqb rust_ver) channels = true);
        [|congruence].
      apply existsb_exists. exists rust_ver. split; [exact Hin|].
      apply str_eqb_refl. }
    exists rust_ver. split; [reflexivity|]. split; [tauto|]. now split.
Qed.

Lemma rust_msrv_concrete_witness :
  dict_get (_load_variables [(lit "RUST_VERSION", lit "nightly")])
    (lit "RUST_MSRV") = Some (lit "1.75")
  /\ dict_get (_load_variables [(lit "RUST_VERSION", lit "1.80")])
       (lit "RUST_MSRV") = Some (lit "1.80").
Proof.
  split.
  - destruct (rust_msrv_concrete [(lit "RUST_VERSION", lit "nightly")])
      as (v & Hv & Hchannel & _). rewrite Hv. f_equal.
    apply Hchannel. simpl. tauto.
  - destruct (rust_msrv_concrete [(lit "RUST_VERSION", lit "1.80")])
      as (v & Hv & _ & Hother & _). rewrite Hv. f_equal.
    apply Hother. simpl. intros [H|[H|[H|[]]]]; discriminate.
Defined.

Lemma declared_names_valid (name env_name default : str) :
  In (name, (env_name, default)) VARIABLES -> valid_name name = true.
Proof.
  intros Hin. simpl in Hin.
  repeat (destruct Hin as [[= <- <- <-]|Hin]; [reflexivity|]).
  contradiction.
Qed.

(** X5: the placeholder of a declared variable never survives substitution
    for want of a value: with any environment, when no dollar sign stands
    before it, it is replaced by the value of its environment variable, or by
    its default when the variable is not set, and the text around it is
    substituted on its own. *)
Theorem declared_placeholder_substituted
  (env : environ) (name env_name default pre post : str) :
  In (name, (env_name, default)) VARIABLES ->
  ends_with_dollar pre = false ->
  _process_variables (__init__ env) (pre ++ placeholder name ++ post)
  = _process_variables (__init__ env) pre
    ++ dict_get_default env env_name default
    ++ _process_variables (__init__ env) post.
Proof.
  intros Hin Hpre.
  rewrite (process_variables_placeholder (__init__ env) pre name post
             (declared_names_valid _ _ _ Hin)).
  rewrite Hpre. unfold dict_get_default at 1. cbn [__init__ variables].
  now rewrite (load_variables_declared env _ _ _ Hin).
Qed.

Lemma declared_placeholder_substituted_witness :
  _process_variables (__init__ [(lit "GITHUB_ORG", lit "acme")])
    (lit "org=" ++ placeholder (lit "GITHUB_ORG") ++ lit ";")
  = lit "org=acme;"
  /\ _process_variables (__init__ [])
       (lit "org=" ++ placeholder (lit "GITHUB_ORG") ++ lit ";")
     = lit "org=myorg;".
Proof.
  assert (Hin : In (lit "GITHUB_ORG", (lit "GITHUB_ORG", lit "myorg"))
                  VARIABLES) by (simpl; tauto).
  split.
  - rewrite (declared_placeholder_substituted
               [(lit "GITHUB_ORG", lit "acme")] _ _ _ (lit "org=") (lit ";")
               Hin eq_refl).
    reflexivity.
  - rewrite (declared_placeholder_substituted
               [] _ _ _ (lit "org=") (lit ";") Hin eq_refl).
    reflexivity.
Defined.

(** X6: the composite condition [IF_HAS_SERVICES] agrees with its parts: for
    every environment it evaluates, without a warning, to the disjunction of
    [IF_POSTGRES] and [IF_REDIS], so it holds exactly when [INCLUDE_POSTGRES]
    or [INCLUDE_REDIS] is set to a value that lowercases to "true". *)
Theorem has_services_composite (env : environ) :
  exists services postgres redis,
    _evaluate_condition CONDITIONS env (lit "IF_HAS_SERVICES")
    = Some (services, [])
    /\ _evaluate_condition CONDITIONS env (lit "IF_POSTGRES")
       = Some (postgres, [])
    /\ _evaluate_condition CONDITIONS env (lit "IF_REDIS") = Some (redis, [])
    /\ services = postgres || redis
    /\ (services = true
        <-> exists var v,
              (var = lit "INCLUDE_POSTGRES" \/ var = lit "INCLUDE_REDIS")
              /\ dict_get env var = Some v /\ lower v = lit "true").
Proof.
  exists (_has_services env), (_env_is_true (lit "INCLUDE_POSTGRES") env),
         (_env_is_true (lit "INCLUDE_REDIS") env).
  repeat (split; [reflexivity|]).
  change (_has_services env)
    with (_env_is_true (lit "INCLUDE_POSTGRES") env
          || _env_is_true (lit "INCLUDE_REDIS") env).
  rewrite orb_true_iff, !env_is_true_iff. split.
  - intros [(v & Hv & Hl)|(v & Hv & Hl)]; eexists _, v; eauto.
  - intros (var & v & [->| ->] & Hv & Hl); [left|right]; now exists v.
Qed.

(* ========================================================================= *)
(** * Error rendering and the command line *)
(* ========================================================================= *)

(** X7: [TemplateError.__str__] drops the fields that are not truthy.  An
    error without a line (or with line 0) and without a context (or with an
    empty one) is rendered as its message, followed on a second line by
    "File: " and the file when a file that is not the empty string is
    given. *)
Theorem template_error_str_fields (context_arrow : str) (e : TemplateError) :
  line e = None \/ line e = Some 0 ->
  context e = None \/ context e = Some [] ->
  TemplateError_str context_arrow e
  = message e
    ++ match file e with
       | Some (c :: f) => newline ++ lit "File: " ++ c :: f
       | _ => []
       end.
Proof.
  intros Hline Hcontext. unfold TemplateError_str.
  destruct Hline as [-> | ->], Hcontext as [-> | ->];
    destruct (file e) as [[|c f]|]; cbn [app join];
    now rewrite ?app_nil_r.
Qed.

Lemma template_error_str_fields_witness :
  TemplateError_str (lit " -> ")
    {| message := lit "Template file not found"; file := Some (lit "a.tpl");
       line := Some 0; context := Some [] |}
  = lit "Template file not found" ++ newline ++ lit "File: a.tpl".
Proof.
  rewrite template_error_str_fields; [reflexivity | now right | now right].
Defined.

Section CommandLineProperties.
Variable context_arrow : str.
Variable __doc__ : str.
Variable env : environ.
Variable limit : nat.
Variable recursion_error_text : str.
Variable linesep : str.
Variable faults : io_faults.

(** What a call of [process_file] leaves, by what it raised: nothing, and
    the output is written in full; a [TemplateError] that names one of the
    two paths; the [OSError] of the existence test or the [RecursionError] of
    the processing, and the file system is as it was. *)
Lemma process_file_summary (self : TemplateEngine) (fs : filesystem)
  (input_path output_path : path) :
  let o := process_file CONDITIONS env limit linesep faults self fs
             input_path output_path in
  (forall p, p <> output_path -> dict_get (out_fs o) p = dict_get fs p)
  /\ match out_raised o with
     | None =>
         exists text result w,
           dict_get fs input_path = Some (File text)
           /\ process_string CONDITIONS env limit self (read_text text)
              = Some (result, w)
           /\ out_stderr o = Printed w
           /\ out_fs o
              = dict_set fs output_path (File (write_text linesep result))
     | Some (Template e) =>
         (file e = Some input_path \/ file e = Some output_path)
         /\ line e = None /\ context e = None
         /\ exists w, out_stderr o = Printed w
     | Some (OSError text) =>
         exists_error faults = Some text
         /\ out_fs o = fs /\ out_stderr o = Printed []
     | Some RecursionError =>
         out_fs o = fs /\ out_stderr o = Unrecorded_then []
         /\ exists text,
              dict_get fs input_path = Some (File text)
              /\ process_string CONDITIONS env limit self (read_text text)
                 = None
     end.
Proof.
  cbv zeta. unfold process_file.
  destruct (exists_error faults) as [e0|];
    [cbn [out_fs out_raised out_stderr]; now repeat split|].
  destruct (dict_get fs input_path) as [[text|e1]|] eqn:Hin;
    [|cbn [raise out_fs out_raised out_stderr file line context];
      repeat split; eauto..].
  destruct (read_error faults) as [e2|];
    [cbn [raise out_fs out_raised out_stderr file line context];
     repeat split; eauto|].
  cbv zeta.
  destruct (process_string CONDITIONS env limit self (read_text text))
    as [[result w]|] eqn:Hres;
    [|cbn [out_fs out_raised out_stderr]; repeat split; eauto].
  unfold write_output.
  destruct (mkdir_error faults) as [e3|];
    [|destruct (open_error faults) as [e4|];
      [|destruct (write_error faults) as [[n e5]|]]];
    cbn [raise out_fs out_raised out_stderr file line context];
    (split; [intros p Hp; reflexivity || now apply dict_get_set_other|]);
    try (repeat split; eauto; fail).
  exists text, result, w. now repeat split.
Qed.

End CommandLineProperties.


(* ========================================================================= *)
(** * What the resolver leaves alone *)
(* ========================================================================= *)

(** A match holds an opening and a closing tag. *)
Lemma match_conditional_occurs (s : str) (m : cond_match) :
  match_conditional s = Some m ->
  occurs (lit "{{#IF_") s /\ occurs (lit "{{/IF_") s.
Proof.
  intros Hm. pose proof (match_conditional_shape _ _ Hm) as Hshape.
  apply match_conditional_name in Hm as (run & Hname & _).
  rewrite Hname in Hshape. split.
  - exists [], (run ++ lit "}}" ++ cm_block m
                ++ (lit "{{/" ++ (lit "IF_" ++ run) ++ lit "}}") ++ cm_rest m).
    rewrite Hshape. cbn [lit list_ascii_of_string app].
    now rewrite <- !app_assoc.
  - exists ((lit "{{#" ++ (lit "IF_" ++ run) ++ lit "}}") ++ cm_block m),
           (run ++ lit "}}" ++ cm_rest m).
    rewrite Hshape at 1. cbn [lit list_ascii_of_string app].
    now rewrite <- !app_assoc.
Qed.

Lemma occurs_cons (pat : str) (c : ascii) (s : str) :
  occurs pat s -> occurs pat (c :: s).
Proof.
  intros (pre & post & ->). now exists (c :: pre), post.
Qed.

Lemma no_tag_no_conditional (s : str) :
  ~ occurs (lit "{{#IF_") s \/ ~ occurs (lit "{{/IF_") s ->
  has_conditional s = false.
Proof.
  induction s as [|c s IH]; intros H; [reflexivity|].
  cbn [has_conditional].
  destruct (match_conditional (c :: s)) as [m|] eqn:Hm.
  - apply match_conditional_occurs in Hm. tauto.
  - apply IH. destruct H as [H|H]; [left|right];
      intros Hocc; apply H; now apply occurs_cons.
Qed.

(** X9: a text in which no opening tag "{{#IF_" occurs, or no closing tag
    "{{/IF_", is returned by the resolver as it is, and nothing is printed:
    no condition is evaluated, and no call is nested, whatever the recursion
    limit. *)
Theorem resolver_without_tags
  (registry : dict condition) (env : environ) (limit : nat) (content : str) :
  ~ occurs (lit "{{#IF_") content \/ ~ occurs (lit "{{/IF_") content ->
  _process_conditionals registry env limit content = Some (content, []).
Proof.
  intros H. unfold _process_conditionals.
  now rewrite process_no_conditional by now apply no_tag_no_conditional.
Qed.

Lemma no_char_no_occurrence (c : ascii) (pat s : str) :
  In c pat -> forallb (fun x => negb (Ascii.eqb c x)) s = true ->
  ~ occurs pat s.
Proof.
  intros Hc Hs (pre & post & ->).
  rewrite !forallb_app in Hs.
  apply andb_true_iff in Hs as [_ Hs]. apply andb_true_iff in Hs as [Hs _].
  rewrite forallb_forall in Hs. specialize (Hs c Hc).
  now rewrite Ascii.eqb_refl in Hs.
Qed.

Lemma resolver_without_tags_witness :
  _process_conditionals CONDITIONS [] 250
    (lit "{{#IF_PYTHON}}python {{PYTHON_VERSION}}{{#ELSE}}none")
  = Some (lit "{{#IF_PYTHON}}python {{PYTHON_VERSION}}{{#ELSE}}none", []).
Proof.
  apply resolver_without_tags. right.
  apply (no_char_no_occurrence "/"); [simpl; tauto | reflexivity].
Defined.

(** ** The warnings *)

Section Warnings.
Variable registry : dict condition.
Variable env : environ.

Local Abbreviation warnings :=
  (Forall (unknown_warning registry)).

Lemma evaluate_condition_warnings (name : str) (b : bool) (w : list str) :
  _evaluate_condition registry env name = Some (b, w) -> warnings w.
Proof.
  unfold _evaluate_condition.
  destruct (dict_get registry name) eqn:E; intros [= _ <-].
  - constructor.
  - constructor; [now exists name | constructor].
Qed.

Lemma scan_warnings (repl : cond_match -> M str) :
  (forall m r w, repl m = Some (r, w) -> warnings w) ->
  forall n s out w,
    sub_conditional_scan repl n s = Some (out, w) -> warnings w.
Proof.
  intros Hrepl. induction n as [|n IH]; intros s out w.
  - intros [= _ <-]. constructor.
  - cbn [sub_conditional_scan].
    destruct (match_conditional s) as [m|].
    + destruct (repl m) as [[r w1]|] eqn:Hr; [|discriminate]. cbn [bind].
      destruct (sub_conditional_scan repl n (cm_rest m)) as [[t w2]|] eqn:Ht;
        [|discriminate].
      cbn. intros [= _ <-]. rewrite app_nil_r. apply Forall_app. split.
      * exact (Hrepl _ _ _ Hr).
      * exact (IH _ _ _ Ht).
    + destruct s as [|c s]; [intros [= _ <-]; constructor|].
      destruct (sub_conditional_scan repl n s) as [[t w2]|] eqn:Ht;
        [|discriminate].
      cbn. intros [= _ <-]. rewrite app_nil_r. exact (IH _ _ _ Ht).
Qed.

Lemma passes_warnings (repl : cond_match -> M str) :
  (forall m r w, repl m = Some (r, w) -> warnings w) ->
  forall k content out w,
    passes repl k content = Some (out, w) -> warnings w.
Proof.
  intros Hrepl. induction k as [|k IH]; intros content out w.
  - intros [= _ <-]. constructor.
  - rewrite passes_S.
    destruct (sub_conditional repl content) as [[new w1]|] eqn:Hsub;
      [|discriminate].
    pose proof (scan_warnings repl Hrepl _ _ _ _ Hsub) as Hw1.
    cbn [bind]. destruct (str_eqb new content).
    + cbn. intros [= _ <-]. now rewrite app_nil_r.
    + destruct (passes repl k new) as [[out' w2]|] eqn:Hp; [|discriminate].
      intros [= _ <-]. apply Forall_app. split; [exact Hw1|].
      exact (IH _ _ _ Hp).
Qed.

Lemma resolver_warnings (fuel : nat) :
  forall content out w,
    process_conditionals_fuel registry env fuel content = Some (out, w) ->
    warnings w.
Proof.
  induction fuel as [|fuel IH]; intros content out w; [discriminate|].
  rewrite process_conditionals_fuel_S. apply passes_warnings.
  intros m r w'. unfold replace_conditional.
  destruct (split_else (cm_block m)) as [if_content else_content].
  destruct (_evaluate_condition registry env (cm_name m)) as [[b w1]|] eqn:Hev;
    [|discriminate].
  cbn [bind]. cbv zeta.
  destruct (process_conditionals_fuel registry env fuel
              (if b then if_content else else_content))
    as [[r' w2]|] eqn:Hrec; [|discriminate].
  intros [= _ <-]. apply Forall_app. split.
  - exact (evaluate_condition_warnings _ _ _ Hev).
  - exact (IH _ _ _ Hrec).
Qed.
End Warnings.

(** X10: everything a resolver that returns has printed is a warning about
    a condition name that the registry does not hold: it prints nothing about
    a registered condition, and nothing at all when every name it meets is
    registered.  The resolver does return on a text shorter than eighteen
    characters for each call that may nest. *)
Theorem resolver_prints_unknown_names_only
  (registry : dict condition) (env : environ) (limit : nat) (content : str) :
  (forall out w,
     _process_conditionals registry env limit content = Some (out, w) ->
     Forall (unknown_warning registry) w)
  /\ (length content < 18 * (limit + 1) ->
      exists out w,
        _process_conditionals registry env limit content = Some (out, w)
        /\ Forall (unknown_warning registry) w).
Proof.
  assert (H : forall out w,
            _process_conditionals registry env limit content = Some (out, w) ->
            Forall (unknown_warning registry) w).
  { intros out w Hout. exact (resolver_warnings registry env _ _ _ _ Hout). }
  split; [exact H|]. intros Hlen.
  destruct (resolver_total registry env (S limit) content)
    as (out & w & Hout & _); [lia|].
  exists out, w. split; [exact Hout|]. exact (H _ _ Hout).
Qed.

(* ========================================================================= *)
(** * Text without braces *)
(* ========================================================================= *)

Lemma match_conditional_not_open (c : ascii) (s : str) :
  Ascii.eqb "{" c = false -> match_conditional (c :: s) = None.
Proof.
  intros H. unfold match_conditional.
  cbn [lit list_ascii_of_string strip_prefix]. now rewrite H.
Qed.

Lemma brace_free_no_conditional (s : str) :
  brace_free s = true -> has_conditional s = false.
Proof.
  induction s as [|c s IH]; [reflexivity|]. cbn [brace_free forallb].
  intros H. apply andb_true_iff in H as [Hc Hs].
  apply negb_true_iff in Hc. cbn [has_conditional].
  rewrite (match_conditional_not_open _ _ Hc). now apply IH.
Qed.

Lemma brace_free_app (a b : str) :
  brace_free (a ++ b) = brace_free a && brace_free b.
Proof. apply forallb_app. Qed.

Lemma process_variables_brace_free (self : TemplateEngine) (s : str) :
  brace_free s = true -> _process_variables self s = s.
Proof.
  intros H. unfold _process_variables, sub_variable.
  rewrite <- (app_nil_r s) at 1.
  rewrite (sub_from_no_open _ s [] false H). cbn. apply app_nil_r.
Qed.

(** Whitespace at the end does not change what [rstrip] returns. *)
Lemma rstrip_app_space (s ws : str) :
  forallb isspace ws = true -> rstrip (s ++ ws) = rstrip s.
Proof.
  intros H. unfold rstrip. rewrite rev_app_distr, drop_while_all;
    [reflexivity|].
  rewrite forallb_forall in *. intros x Hx. apply H. now apply in_rev.
Qed.

Lemma rstrip_idempotent (s : str) : rstrip (rstrip s) = rstrip s.
Proof.
  destruct (rstrip_last s) as [-> |(p & c & Hs & Hc)]; [reflexivity|].
  rewrite Hs. unfold rstrip. rewrite rev_app_distr. simpl.
  rewrite Hc. simpl. now rewrite rev_involutive.
Qed.

Lemma rstrip_brace_free (s : str) :
  brace_free s = true -> brace_free (rstrip s) = true.
Proof.
  intros H. destruct (rstrip_suffix s) as (ws & Hs & _).
  rewrite Hs, brace_free_app in H. now apply andb_true_iff in H as [H _].
Qed.

(** X11: a text without an opening brace (the empty text, for one) passes
    through [process_string] with its trailing whitespace replaced by one
    newline and nothing printed, and processing that output again returns
    it unchanged, whatever the recursion limit. *)
Theorem process_string_brace_free
  (registry : dict condition) (env : environ) (limit : nat)
  (self : TemplateEngine) (content : str) :
  brace_free content = true ->
  process_string registry env limit self content
  = Some (rstrip content ++ newline, [])
  /\ process_string registry env limit self (rstrip content ++ newline)
     = Some (rstrip content ++ newline, []).
Proof.
  assert (Hplain : forall t, brace_free t = true ->
            process_string registry env limit self t
            = Some (rstrip t ++ newline, [])).
  { intros t Ht. unfold process_string, _process_conditionals.
    rewrite process_no_conditional by now apply brace_free_no_conditional.
    rewrite bind_ret_l. now rewrite process_variables_brace_free. }
  intros H. split; [now apply Hplain|].
  rewrite Hplain.
  - now rewrite rstrip_app_space, rstrip_idempotent.
  - rewrite brace_free_app, rstrip_brace_free by exact H. reflexivity.
Qed.

Lemma process_string_brace_free_witness :
  process_string CONDITIONS [] 250 (__init__ []) [] = Some (newline, [])
  /\ process_string CONDITIONS [] 250 (__init__ []) (lit "a = b  ")
     = Some (lit "a = b" ++ newline, []).
Proof.
  split.
  - exact (proj1 (process_string_brace_free CONDITIONS [] 250 (__init__ []) []
                    eq_refl)).
  - exact (proj1 (process_string_brace_free CONDITIONS [] 250 (__init__ [])
                    (lit "a = b  ") eq_refl)).
Defined.

(* ========================================================================= *)
(** * Blocks without nesting *)
(* ========================================================================= *)

Lemma find_first_here (pat r : str) : find_first pat (pat ++ r) = Some ([], r).
Proof.
  destruct (pat ++ r) eqn:E; cbn [find_first];
    rewrite <- E, (proj2 (strip_prefix_Some pat (pat ++ r) r) eq_refl);
    reflexivity.
Qed.

(** A pattern that starts with an opening brace is not found in a stretch
    without one. *)
Lemma find_first_skip (P x y : str) :
  brace_free x = true ->
  find_first ("{"%char :: P) (x ++ y)
  = option_map (fun br => (x ++ fst br, snd br))
      (find_first ("{"%char :: P) y).
Proof.
  induction x as [|c x IH]; intros H.
  - cbn [app]. now destruct (find_first _ y) as [[b r]|].
  - cbn [brace_free forallb] in H. apply andb_true_iff in H as [Hc Hx].
    apply negb_true_iff in Hc. cbn [app find_first strip_prefix].
    rewrite Hc, (IH Hx).
    now destruct (find_first _ y) as [[b r]|].
Qed.

Lemma find_first_step (P : str) (c : ascii) (s : str) :
  strip_prefix P (c :: s) = None ->
  find_first P (c :: s)
  = option_map (fun br => (c :: fst br, snd br)) (find_first P s).
Proof.
  intros H. cbn [find_first]. rewrite H.
  now destruct (find_first P s) as [[b r]|].
Qed.

(** The pattern fails at two opening braces and at the second of them: the
    search goes on after them. *)
Lemma find_first_two (P z : str) :
  strip_prefix P ("{"%char :: "{"%char :: z) = None ->
  strip_prefix P ("{"%char :: z) = None ->
  find_first P ("{"%char :: "{"%char :: z)
  = option_map (fun br => ("{"%char :: "{"%char :: fst br, snd br))
      (find_first P z).
Proof.
  intros H1 H2. rewrite (find_first_step _ _ _ H1), (find_first_step _ _ _ H2).
  now destruct (find_first P z) as [[b r]|].
Qed.

Lemma valid_condition_run_chars (run : str) :
  valid_condition_run run = true -> forallb is_cond_char run = true.
Proof. now destruct run. Qed.

Lemma is_cond_char_plain (c : ascii) :
  is_cond_char c = true ->
  Ascii.eqb "{" c = false /\ Ascii.eqb "/" c = false
  /\ Ascii.eqb "#" c = false.
Proof.
  destruct c as [[] [] [] [] [] [] [] []]; vm_compute; intros; try discriminate;
    now repeat split.
Qed.

(** An opening tag followed by a text in which the closing tag of the same
    name is first found after [block] is a match with that block. *)
Lemma match_conditional_block (run block rest tail : str) :
  valid_condition_run run = true ->
  find_first (close_tag (lit "IF_" ++ run)) tail = Some (block, rest) ->
  match_conditional (open_tag (lit "IF_" ++ run) ++ tail)
  = Some {| cm_name := lit "IF_" ++ run; cm_block := block;
            cm_rest := rest |}.
Proof.
  intros Hrun Hfind. pose proof (valid_condition_run_chars _ Hrun) as Hchars.
  unfold match_conditional, open_tag.
  replace ((lit "{{#" ++ (lit "IF_" ++ run) ++ lit "}}") ++ tail)
    with (lit "{{#IF_" ++ run ++ "}"%char :: "}"%char :: tail)
    by (cbn [lit list_ascii_of_string app]; now rewrite <- app_assoc).
  rewrite (proj2 (strip_prefix_Some _ _ _) eq_refl).
  rewrite (span_run _ _ _ _ Hchars) by reflexivity.
  destruct run as [|c run]; [discriminate|]. cbv iota beta.
  change (strip_prefix (lit "}}") ("}"%char :: "}"%char :: tail))
    with (Some tail).
  cbv iota beta. unfold close_tag in Hfind. now rewrite Hfind.
Qed.

Section FlatBlocks.
Variable registry : dict condition.
Variable env : environ.

(** The scan copies a stretch without an opening brace. *)
Lemma scan_skip (repl : cond_match -> M str) (x y : str) (n : nat) :
  brace_free x = true ->
  sub_conditional_scan repl (length x + n) (x ++ y)
  = (t <- sub_conditional_scan repl n y ;; ret (x ++ t)).
Proof.
  induction x as [|c x IH]; intros H.
  - cbn [length app plus].
    destruct (sub_conditional_scan repl n y) as [[t w]|]; [|reflexivity].
    cbn. now rewrite app_nil_r.
  - cbn [brace_free forallb] in H. apply andb_true_iff in H as [Hc Hx].
    apply negb_true_iff in Hc. cbn [length app plus sub_conditional_scan].
    rewrite (match_conditional_not_open _ _ Hc), (IH Hx).
    destruct (sub_conditional_scan repl n y) as [[t w]|]; [|reflexivity].
    cbn. now rewrite !app_nil_r.
Qed.

Lemma sub_skip (repl : cond_match -> M str) (x y : str) :
  brace_free x = true ->
  sub_conditional repl (x ++ y)
  = (t <- sub_conditional repl y ;; ret (x ++ t)).
Proof.
  intros H. unfold sub_conditional. rewrite length_app.
  now apply scan_skip.
Qed.

(** The resolver on a text that holds one block, after a stretch without an
    opening brace and before a text without a match, when the branch that
    the condition selects holds no match either: the block is replaced by
    that branch, and only the evaluation of its condition prints. *)
Lemma resolve_block (limit : nat) (pre s : str) (m : cond_match) (b : bool)
  (w : list str) :
  0 < limit ->
  brace_free pre = true ->
  match_conditional s = Some m ->
  _evaluate_condition registry env (cm_name m) = Some (b, w) ->
  let chosen := if b then fst (split_else (cm_block m))
                else snd (split_else (cm_block m)) in
  has_conditional chosen = false ->
  has_conditional (cm_rest m) = false ->
  has_conditional (pre ++ chosen ++ cm_rest m) = false ->
  _process_conditionals registry env limit (pre ++ s)
  = Some (pre ++ chosen ++ cm_rest m, w).
Proof.
  intros Hlimit Hpre Hm Hev chosen Hchosen Hrest Hall.
  pose proof (match_conditional_length _ _ Hm) as Hlen.
  pose proof (split_else_length (cm_block m)) as [Hif Helse].
  assert (Hshort : length chosen <= length (cm_block m))
    by (unfold chosen; now destruct b).
  unfold _process_conditionals.
  rewrite process_conditionals_fuel_S. unfold max_iterations.
  rewrite passes_S, (sub_skip _ _ _ Hpre).
  rewrite (sub_one_conditional _ _ _ Hm) by exact Hrest.
  assert (Hrepl :
    replace_conditional registry env
      (process_conditionals_fuel registry env limit) m
    = Some (chosen, w)).
  { unfold replace_conditional. fold chosen.
    destruct (split_else (cm_block m)) as [if_content else_content].
    rewrite Hev. cbn [bind]. cbv zeta. cbn [fst snd] in chosen.
    fold chosen.
    destruct limit as [|limit']; [lia|].
    rewrite process_no_conditional by exact Hchosen.
    cbn [ret]. now rewrite app_nil_r. }
  rewrite Hrepl. cbn [bind ret]. rewrite !app_nil_r.
  assert (Hne : str_eqb (pre ++ chosen ++ cm_rest m) (pre ++ s) = false).
  { apply str_eqb_neq. intros Heq.
    apply (f_equal (@length ascii)) in Heq. rewrite !length_app in Heq.
    lia. }
  rewrite Hne, passes_no_conditional by exact Hall.
  cbn [ret]. now rewrite app_nil_r.
Qed.

Lemma resolve_one_block (limit : nat) (pre s : str) (m : cond_match)
  (b : bool) (w : list str) :
  0 < limit ->
  brace_free pre = true ->
  match_conditional s = Some m ->
  _evaluate_condition registry env (cm_name m) = Some (b, w) ->
  let chosen := if b then fst (split_else (cm_block m))
                else snd (split_else (cm_block m)) in
  brace_free chosen = true ->
  brace_free (cm_rest m) = true ->
  _process_conditionals registry env limit (pre ++ s)
  = Some (pre ++ chosen ++ cm_rest m, w).
Proof.
  intros Hlimit Hpre Hm Hev chosen Hchosen Hrest.
  apply resolve_block; try assumption;
    apply brace_free_no_conditional; try assumption.
  fold chosen. rewrite !brace_free_app, Hpre, Hchosen, Hrest. reflexivity.
Qed.

Lemma find_close_after (name x post : str) :
  brace_free x = true ->
  find_first (close_tag name) (x ++ close_tag name ++ post) = Some (x, post).
Proof.
  intros Hx. unfold close_tag at 1. cbn [lit list_ascii_of_string app].
  rewrite (find_first_skip _ _ _ Hx).
  change ("{"%char :: "{"%char :: "/"%char :: name ++ lit "}}")
    with (close_tag name).
  rewrite find_first_here. cbn. now rewrite app_nil_r.
Qed.

Lemma split_else_both (a b : str) :
  brace_free a = true -> split_else (a ++ else_tag ++ b) = (a, b).
Proof.
  intros Ha. unfold split_else.
  change (lit "{{#ELSE}}") with ("{"%char :: lit "{#ELSE}}").
  rewrite (find_first_skip _ _ _ Ha).
  change ("{"%char :: lit "{#ELSE}}") with else_tag.
  rewrite find_first_here. cbn. now rewrite app_nil_r.
Qed.

Lemma split_else_none (a : str) :
  brace_free a = true -> split_else a = (a, []).
Proof.
  intros Ha. unfold split_else.
  change (lit "{{#ELSE}}") with ("{"%char :: lit "{#ELSE}}").
  rewrite <- (app_nil_r a) at 1. now rewrite (find_first_skip _ _ _ Ha).
Qed.

Lemma find_close_after_else (name a b post : str) :
  brace_free a = true -> brace_free b = true ->
  find_first (close_tag name)
    ((a ++ else_tag ++ b) ++ close_tag name ++ post)
  = Some (a ++ else_tag ++ b, post).
Proof.
  intros Ha Hb. rewrite <- app_assoc.
  unfold close_tag at 1. cbn [lit list_ascii_of_string app].
  rewrite (find_first_skip _ _ _ Ha).
  change ("{"%char :: "{"%char :: "/"%char :: name ++ lit "}}")
    with (close_tag name).
  change ((else_tag ++ b) ++ close_tag name ++ post)
    with ("{"%char :: "{"%char
          :: (lit "#ELSE}}" ++ b) ++ close_tag name ++ post).
  rewrite find_first_two by reflexivity.
  assert (Hz : brace_free (lit "#ELSE}}" ++ b) = true)
    by (rewrite brace_free_app, Hb; reflexivity).
  pose proof (find_close_after name _ post Hz) as Hfind.
  change ("{"%char :: "{"%char :: "/"%char :: name ++ ["}"%char; "}"%char])
    with (close_tag name).
  rewrite Hfind. cbn [option_map fst snd]. reflexivity.
Qed.
End FlatBlocks.

(** X12: a block without nesting resolves to the branch that its condition
    selects.  When [IF_<run>] is a name that the pattern accepts and the text
    before the block, its branches and the text after it hold no opening
    brace, the block with an ELSE marker is replaced by its if-branch or its
    else-branch, the block without one by its body or by nothing, the text
    around the block is kept, and only the evaluation of the condition
    prints.  This takes one nested call. *)
Theorem flat_conditional
  (registry : dict condition) (env : environ) (limit : nat)
  (run pre a b post : str) (c : bool) (w : list str) :
  0 < limit ->
  valid_condition_run run = true ->
  brace_free pre = true -> brace_free a = true ->
  brace_free b = true -> brace_free post = true ->
  _evaluate_condition registry env (lit "IF_" ++ run) = Some (c, w) ->
  _process_conditionals registry env limit
    (pre ++ open_tag (lit "IF_" ++ run) ++ a ++ else_tag ++ b
     ++ close_tag (lit "IF_" ++ run) ++ post)
  = Some (pre ++ (if c then a else b) ++ post, w)
  /\ _process_conditionals registry env limit
       (pre ++ open_tag (lit "IF_" ++ run) ++ a
        ++ close_tag (lit "IF_" ++ run) ++ post)
     = Some (pre ++ (if c then a else []) ++ post, w).
Proof.
  intros Hlimit Hrun Hpre Ha Hb Hpost Hev. split.
  - pose proof (match_conditional_block run _ _ _ Hrun
                  (find_close_after_else (lit "IF_" ++ run) a b post Ha Hb))
      as Hm.
    replace (a ++ else_tag ++ b ++ close_tag (lit "IF_" ++ run) ++ post)
      with ((a ++ else_tag ++ b) ++ close_tag (lit "IF_" ++ run) ++ post)
      by now rewrite <- !app_assoc.
    pose proof (resolve_one_block registry env limit pre _ _ c w Hlimit Hpre
                  Hm Hev) as H.
    cbn [cm_block cm_rest] in H. rewrite (split_else_both a b Ha) in H.
    cbn [fst snd] in H. apply H; [now destruct c | exact Hpost].
  - pose proof (match_conditional_block run _ _ _ Hrun
                  (find_close_after (lit "IF_" ++ run) a post Ha)) as Hm.
    pose proof (resolve_one_block registry env limit pre _ _ c w Hlimit Hpre
                  Hm Hev) as H.
    cbn [cm_block cm_rest] in H. rewrite (split_else_none a Ha) in H.
    cbn [fst snd] in H. apply H; [now destruct c | exact Hpost].
Qed.

Lemma flat_conditional_witness :
  _process_conditionals CONDITIONS [(lit "INCLUDE_GO", lit "true")] 250
    (lit "deps: " ++ open_tag (lit "IF_" ++ lit "GO") ++ lit "go"
     ++ else_tag ++ lit "none" ++ close_tag (lit "IF_" ++ lit "GO")
     ++ lit ";")
  = Some (lit "deps: go;", []).
Proof.
  refine (proj1 (flat_conditional CONDITIONS [(lit "INCLUDE_GO", lit "true")]
                   250 (lit "GO") (lit "deps: ") (lit "go") (lit "none")
                   (lit ";") true [] _ _ _ _ _ _ _)); [lia | reflexivity..].
Defined.

(* ========================================================================= *)
(** * The three stages of the processor *)
(* ========================================================================= *)

(** C6: [process_string] resolves the conditionals, substitutes the variables
    in the resolved text, strips the trailing whitespace and appends one
    newline.  It raises when the resolver does, and returns when the resolver
    does; what is stripped is whitespace only, and the text before the final
    newline is empty or ends in a character that is not whitespace (in
    particular not in a second newline); what the resolver printed is passed
    on.  A placeholder in a text without a block is replaced by the value of
    its name.  A block is resolved before the variables are substituted: of
    a block whose selected branch holds no block, that branch is kept with
    the text around the block, and the variables are substituted in this
    text. *)
Theorem process_string_normalized
  (registry : dict condition) (env : environ) (limit : nat)
  (self : TemplateEngine) :
  (forall content,
     match _process_conditionals registry env limit content with
     | Some (resolved, w) =>
         let substituted := _process_variables self resolved in
         process_string registry env limit self content
         = Some (rstrip substituted ++ newline, w)
         /\ (exists ws,
               substituted = rstrip substituted ++ ws
               /\ forallb isspace ws = true)
         /\ (rstrip substituted = []
             \/ exists p c, rstrip substituted = p ++ [c]
                            /\ isspace c = false)
     | None => process_string registry env limit self content = None
     end)
  /\ (forall content,
        length content < 18 * (limit + 1) ->
        exists resolved w,
          _process_conditionals registry env limit content
          = Some (resolved, w)
          /\ process_string registry env limit self content
             = Some (rstrip (_process_variables self resolved) ++ newline, w))
  /\ (forall pre name post,
        valid_name name = true ->
        ends_with_dollar pre = false ->
        has_conditional (pre ++ placeholder name ++ post) = false ->
        process_string registry env limit self
          (pre ++ placeholder name ++ post)
        = Some (rstrip (_process_variables self pre
                        ++ dict_get_default (variables self) name
                             (placeholder name)
                        ++ _process_variables self post)
                ++ newline, []))
  /\ (forall pre s m b w,
        0 < limit ->
        brace_free pre = true ->
        match_conditional s = Some m ->
        _evaluate_condition registry env (cm_name m) = Some (b, w) ->
        let chosen := if b : bool then fst (split_else (cm_block m))
                      else snd (split_else (cm_block m)) in
        has_conditional chosen = false ->
        has_conditional (cm_rest m) = false ->
        has_conditional (pre ++ chosen ++ cm_rest m) = false ->
        process_string registry env limit self (pre ++ s)
        = Some (rstrip (_process_variables self (pre ++ chosen ++ cm_rest m))
                ++ newline, w)).
Proof.
  split; [|split; [|split]].
  - intros content.
    pose proof (process_string_stages registry env limit self content) as H.
    destruct (_process_conditionals registry env limit content)
      as [[resolved w]|]; [|exact H].
    cbv zeta. split; [exact H|].
    split; [apply rstrip_suffix | apply rstrip_last].
  - intros content Hlen.
    destruct (resolver_total registry env (S limit) content)
      as (resolved & w & Hres & _); [lia|].
    exists resolved, w. split; [exact Hres|].
    rewrite process_string_stages. unfold _process_conditionals.
    now rewrite Hres.
  - intros pre name post Hname Hdollar Hplain.
    rewrite process_string_stages. unfold _process_conditionals.
    rewrite process_no_conditional by exact Hplain. unfold ret.
    rewrite process_variables_placeholder by exact Hname.
    now rewrite Hdollar.
  - intros pre s m b w Hlimit Hpre Hm Hev chosen Hchosen Hrest Hall.
    rewrite process_string_stages.
    now rewrite (resolve_block registry env limit pre s m b w Hlimit Hpre Hm
                   Hev Hchosen Hrest Hall).
Qed.

(** The stages on two templates: a derived variable, and a block for a
    condition that holds, with a placeholder in its branch, between plain
    text and before a second placeholder and blank lines. *)
Lemma process_string_normalized_witness :
  let env := [(lit "INCLUDE_GO", lit "true"); (lit "PYTHON_VERSION", lit "3.12")] in
  process_string CONDITIONS env 250 (__init__ env)
    (lit "py{{PYTHON_VERSION_NODOT}}")
  = Some (lit "py312" ++ newline, [])
  /\ process_string CONDITIONS env 250 (__init__ env)
       (lit "tools: "
        ++ lit "{{#IF_GO}}go {{GO_VERSION_SHORT}}{{#ELSE}}none{{/IF_GO}}, py{{PYTHON_VERSION_NODOT}}  "
        ++ newline ++ newline)
     = Some (lit "tools: go 1.22, py312" ++ newline, []).
Proof.
  intros env.
  destruct (process_string_normalized CONDITIONS env 250 (__init__ env))
    as (_ & _ & Hplaceholder & Hblock).
  split.
  - exact (Hplaceholder (lit "py") (lit "PYTHON_VERSION_NODOT") []
             eq_refl eq_refl eq_refl).
  - refine (Hblock (lit "tools: ")
              (lit "{{#IF_GO}}go {{GO_VERSION_SHORT}}{{#ELSE}}none{{/IF_GO}}, py{{PYTHON_VERSION_NODOT}}  "
               ++ newline ++ newline)
              {| cm_name := lit "IF_GO";
                 cm_block := lit "go {{GO_VERSION_SHORT}}{{#ELSE}}none";
                 cm_rest :=
                   lit ", py{{PYTHON_VERSION_NODOT}}  " ++ newline ++ newline |}
              true [] _ eq_refl eq_refl eq_refl eq_refl eq_refl eq_refl).
    lia.
Defined.

(* ========================================================================= *)
(** * The ceiling of twenty passes *)
(* ========================================================================= *)

Lemma strip_close_no_slash (Q Q' : str) (c : ascii) (b : str) :
  forallb (fun x => negb (Ascii.eqb "/" x)) (c :: b) = true ->
  strip_prefix ("{"%char :: "{"%char :: "/"%char :: Q)
    ((c :: b) ++ "{"%char :: "{"%char :: "/"%char :: Q')
  = None.
Proof.
  intros H. destruct b as [|c' [|c'' b]]; cbn [app strip_prefix].
  - now destruct (Ascii.eqb "{" c).
  - destruct (Ascii.eqb "{" c); [|reflexivity].
    now destruct (Ascii.eqb "{" c').
  - cbn [forallb] in H. apply andb_true_iff in H as [_ H].
    apply andb_true_iff in H as [_ H]. apply andb_true_iff in H as [H _].
    apply negb_true_iff in H. rewrite H.
    destruct (Ascii.eqb "{" c); [|reflexivity].
    now destruct (Ascii.eqb "{" c').
Qed.

(** A closing tag is first found after a stretch without a slash. *)
Lemma find_close_no_slash (name b r : str) :
  forallb (fun x => negb (Ascii.eqb "/" x)) b = true ->
  find_first (close_tag name) (b ++ close_tag name ++ r) = Some (b, r).
Proof.
  induction b as [|c b IH]; intros H; [exact (find_first_here _ _)|].
  cbn [app]. rewrite find_first_step.
  - rewrite IH; [reflexivity|].
    cbn [forallb] in H. now apply andb_true_iff in H as [_ H].
  - exact (strip_close_no_slash _ _ c b H).
Qed.

Lemma forallb_repeat_str (f : ascii -> bool) (x : str) (k : nat) :
  forallb f x = true -> forallb f (repeat_str x k) = true.
Proof.
  intros H. induction k as [|k IH]; [reflexivity|].
  cbn [repeat_str]. now rewrite forallb_app, H, IH.
Qed.

Section Ceiling.
Variable registry : dict condition.
Variable env : environ.
Variable run : str.
Variable p : condition.
Hypothesis Hrun : valid_condition_run run = true.
Hypothesis Hregistered : dict_get registry (lit "IF_" ++ run) = Some p.
Hypothesis Htrue : p env = true.

Local Abbreviation name := (lit "IF_" ++ run).
Local Abbreviation opens := (repeat_str (open_tag (lit "IF_" ++ run))).
Local Abbreviation closes := (repeat_str (close_tag (lit "IF_" ++ run))).

Lemma open_tag_no_slash :
  forallb (fun x => negb (Ascii.eqb "/" x)) (open_tag name) = true.
Proof.
  unfold open_tag. rewrite !forallb_app.
  assert (H : forallb (fun x => negb (Ascii.eqb "/" x)) run = true).
  { apply valid_condition_run_chars in Hrun. rewrite forallb_forall in *.
    intros x Hx. apply negb_true_iff. now apply is_cond_char_plain, Hrun. }
  now rewrite H.
Qed.

Lemma close_tag_no_hash :
  forallb (fun x => negb (Ascii.eqb "#" x)) (close_tag name) = true.
Proof.
  unfold close_tag. rewrite !forallb_app.
  assert (H : forallb (fun x => negb (Ascii.eqb "#" x)) run = true).
  { apply valid_condition_run_chars in Hrun. rewrite forallb_forall in *.
    intros x Hx. apply negb_true_iff. now apply is_cond_char_plain, Hrun. }
  now rewrite H.
Qed.

Lemma opens_no_conditional (k : nat) : has_conditional (opens k) = false.
Proof.
  apply no_tag_no_conditional. right.
  apply (no_char_no_occurrence "/"); [simpl; tauto|].
  apply forallb_repeat_str, open_tag_no_slash.
Qed.

Lemma closes_no_conditional (k : nat) : has_conditional (closes k) = false.
Proof.
  apply no_tag_no_conditional. left.
  apply (no_char_no_occurrence "#"); [simpl; tauto|].
  apply forallb_repeat_str, close_tag_no_hash.
Qed.

(** No ELSE marker in a row of opening tags. *)
Lemma split_else_opens (k : nat) : split_else (opens k) = (opens k, []).
Proof.
  unfold split_else.
  assert (H : find_first (lit "{{#ELSE}}") (opens k) = None);
    [|now rewrite H].
  induction k as [|k IH]; [reflexivity|]. cbn [repeat_str].
  change (open_tag name ++ opens k)
    with ("{"%char :: "{"%char :: (lit "#IF_" ++ run ++ lit "}}") ++ opens k).
  rewrite find_first_two by reflexivity.
  change (lit "{{#ELSE}}") with ("{"%char :: lit "{#ELSE}}").
  rewrite find_first_skip.
  - change ("{"%char :: lit "{#ELSE}}") with (lit "{{#ELSE}}").
    now rewrite IH.
  - unfold brace_free. rewrite !forallb_app.
    assert (H : forallb (fun x => negb (Ascii.eqb "{" x)) run = true).
    { apply valid_condition_run_chars in Hrun. rewrite forallb_forall in *.
      intros x Hx. apply negb_true_iff. now apply is_cond_char_plain, Hrun. }
    now rewrite H.
Qed.

Lemma match_opens_closes (k : nat) :
  match_conditional (opens (S k) ++ closes (S k))
  = Some {| cm_name := name; cm_block := opens k; cm_rest := closes k |}.
Proof.
  cbn [repeat_str]. rewrite <- app_assoc.
  apply (match_conditional_block run _ _ _ Hrun).
  apply find_close_no_slash, forallb_repeat_str, open_tag_no_slash.
Qed.

(** One pass takes the outermost pair away. *)
Lemma pass_peels (fuel k : nat) :
  sub_conditional
    (replace_conditional registry env
       (process_conditionals_fuel registry env (S fuel)))
    (opens (S k) ++ closes (S k))
  = Some (opens k ++ closes k, []).
Proof.
  rewrite (sub_one_conditional _ _ _ (match_opens_closes k))
    by apply closes_no_conditional.
  unfold replace_conditional. cbn [cm_name cm_block cm_rest].
  rewrite split_else_opens.
  rewrite (evaluate_known_condition registry env _ _ Hregistered), Htrue.
  cbn [bind]. cbv zeta.
  rewrite process_no_conditional by apply opens_no_conditional.
  reflexivity.
Qed.

Lemma passes_peel (fuel k : nat) :
  forall n,
    passes
      (replace_conditional registry env
         (process_conditionals_fuel registry env (S fuel)))
      k (opens n ++ closes n)
    = Some (opens (n - k) ++ closes (n - k), []).
Proof.
  induction k as [|k IH]; intros n.
  - now rewrite Nat.sub_0_r.
  - destruct n as [|n]; [reflexivity|].
    rewrite passes_S, pass_peels. cbn [bind].
    assert (Hne : str_eqb (opens n ++ closes n) (opens (S n) ++ closes (S n))
                  = false).
    { apply str_eqb_neq. intros Heq.
      apply (f_equal (@length ascii)) in Heq. cbn [repeat_str] in Heq.
      rewrite !length_app in Heq. unfold open_tag in Heq.
      rewrite !length_app in Heq. simpl in Heq. lia. }
    rewrite Hne, IH. reflexivity.
Qed.

Lemma resolve_opens_closes (limit n : nat) :
  0 < limit ->
  _process_conditionals registry env limit (opens n ++ closes n)
  = Some (opens (n - 20) ++ closes (n - 20), []).
Proof.
  intros Hlimit. unfold _process_conditionals.
  rewrite process_conditionals_fuel_S.
  destruct limit as [|fuel]; [lia|]. apply passes_peel.
Qed.
End Ceiling.

(** X13: the ceiling of twenty passes is reached on input that a pass can
    only peel layer by layer.  For a registered name whose condition holds,
    [n] opening tags followed by [n] closing tags of that name lose one pair
    in each pass, so the resolver returns [n - 20] pairs: nothing when
    [n <= 20], and, without a warning or an error, a text that still starts
    with a block of the pattern when [n > 20].  The calls nest one deep,
    however many the pairs. *)
Theorem resolver_ceiling
  (registry : dict condition) (env : environ) (limit : nat) (run : str)
  (p : condition) (n : nat) :
  0 < limit ->
  valid_condition_run run = true ->
  dict_get registry (lit "IF_" ++ run) = Some p -> p env = true ->
  let opens := repeat_str (open_tag (lit "IF_" ++ run)) in
  let closes := repeat_str (close_tag (lit "IF_" ++ run)) in
  _process_conditionals registry env limit (opens n ++ closes n)
  = Some (opens (n - 20) ++ closes (n - 20), [])
  /\ (20 < n ->
      match_conditional (opens (n - 20) ++ closes (n - 20)) <> None).
Proof.
  intros Hlimit Hrun Hreg Htrue opens closes. split.
  - exact (resolve_opens_closes registry env run p Hrun Hreg Htrue limit n
             Hlimit).
  - intros Hn. destruct (n - 20) as [|k] eqn:Hk; [lia|].
    subst opens closes. rewrite (match_opens_closes run Hrun k).
    discriminate.
Qed.

Lemma resolver_ceiling_witness :
  _process_conditionals CONDITIONS [(lit "INCLUDE_GO", lit "true")] 250
    (repeat_str (open_tag (lit "IF_" ++ lit "GO")) 21
     ++ repeat_str (close_tag (lit "IF_" ++ lit "GO")) 21)
  = Some (lit "{{#IF_GO}}{{/IF_GO}}", []).
Proof.
  refine (proj1 (resolver_ceiling CONDITIONS [(lit "INCLUDE_GO", lit "true")]
                   250 (lit "GO") (_env_is_true (lit "INCLUDE_GO")) 21
                   _ _ _ _));
    [lia | reflexivity..].
Defined.

(* ========================================================================= *)
(** * Whitespace at the end of a template *)
(* ========================================================================= *)

Lemma isspace_plain (c : ascii) :
  isspace c = true ->
  Ascii.eqb "{" c = false /\ is_cond_char c = false
  /\ is_name_char c = false /\ is_upper c = false.
Proof.
  destruct c as [[] [] [] [] [] [] [] []]; vm_compute; intros; try discriminate;
    now repeat split.
Qed.

Lemma space_brace_free (ws : str) :
  forallb isspace ws = true -> brace_free ws = true.
Proof.
  unfold brace_free. rewrite !forallb_forall. intros H c Hc.
  apply negb_true_iff. now apply isspace_plain, H.
Qed.

Lemma strip_prefix_app_space (P s ws : str) :
  forallb (fun c => negb (isspace c)) P = true ->
  forallb isspace ws = true ->
  strip_prefix P (s ++ ws) = option_map (fun r => r ++ ws) (strip_prefix P s).
Proof.
  intros HP Hws. revert s; induction P as [|x P IH]; intros s; [reflexivity|].
  cbn [forallb] in HP. apply andb_true_iff in HP as [Hx HP].
  apply negb_true_iff in Hx.
  destruct s as [|c s]; cbn [app strip_prefix].
  - destruct ws as [|y ws]; [reflexivity|]. cbn [strip_prefix].
    cbn [forallb] in Hws. apply andb_true_iff in Hws as [Hy _].
    destruct (Ascii.eqb_spec x y) as [->|_]; [congruence|reflexivity].
  - destruct (Ascii.eqb x c); [now apply IH|reflexivity].
Qed.

Lemma span_app_space (f : ascii -> bool) (r ws : str) :
  (forall c, isspace c = true -> f c = false) ->
  forallb isspace ws = true ->
  span f (r ++ ws) = (fst (span f r), snd (span f r) ++ ws).
Proof.
  intros Hf Hws. induction r as [|c r IH]; cbn [app].
  - destruct ws as [|y ws]; [reflexivity|]. cbn [span forallb] in *.
    apply andb_true_iff in Hws as [Hy _]. now rewrite (Hf y Hy).
  - cbn [span]. destruct (f c); [|reflexivity].
    rewrite IH. now destruct (span f r).
Qed.

Lemma find_first_space (x : ascii) (P ws : str) :
  isspace x = false -> forallb isspace ws = true ->
  find_first (x :: P) ws = None.
Proof.
  intros Hx Hws. induction ws as [|y ws IH]; [reflexivity|].
  cbn [forallb] in Hws. apply andb_true_iff in Hws as [Hy Hws].
  rewrite find_first_step, (IH Hws); [reflexivity|].
  cbn [strip_prefix].
  destruct (Ascii.eqb_spec x y) as [->|_]; [congruence|reflexivity].
Qed.

Lemma find_first_app_space (x : ascii) (P s ws : str) :
  forallb (fun c => negb (isspace c)) (x :: P) = true ->
  forallb isspace ws = true ->
  find_first (x :: P) (s ++ ws)
  = option_map (fun br => (fst br, snd br ++ ws)) (find_first (x :: P) s).
Proof.
  intros HP Hws. induction s as [|c s IH].
  - cbn [app]. rewrite find_first_space; [reflexivity| |exact Hws].
    cbn [forallb] in HP. apply andb_true_iff in HP as [Hx _].
    now apply negb_true_iff in Hx.
  - cbn [app find_first].
    change (c :: s ++ ws) with ((c :: s) ++ ws).
    rewrite (strip_prefix_app_space _ (c :: s) ws HP Hws).
    destruct (strip_prefix (x :: P) (c :: s)); [reflexivity|].
    cbn [option_map]. rewrite IH.
    now destruct (find_first (x :: P) s) as [[b r]|].
Qed.

Lemma cond_run_no_space (run : str) :
  forallb is_cond_char run = true ->
  forallb (fun c => negb (isspace c)) run = true.
Proof.
  rewrite !forallb_forall. intros H c Hc. apply negb_true_iff.
  destruct (isspace c) eqn:E; [|reflexivity].
  apply isspace_plain in E as (_ & E & _). rewrite (H c Hc) in E.
  discriminate.
Qed.

(** Whitespace after a text neither completes nor spoils a match of the
    conditional pattern. *)
Lemma match_conditional_app_space (s ws : str) :
  forallb isspace ws = true ->
  match_conditional (s ++ ws)
  = option_map (extend_cond_match ws) (match_conditional s).
Proof.
  intros Hws. unfold match_conditional.
  rewrite (strip_prefix_app_space (lit "{{#IF_") s ws eq_refl Hws).
  destruct (strip_prefix (lit "{{#IF_") s) as [r|]; [|reflexivity].
  cbn [option_map].
  rewrite (span_app_space is_cond_char r ws
             (fun c Hc => proj1 (proj2 (isspace_plain c Hc))) Hws).
  destruct (span is_cond_char r) as [run r'] eqn:Hspan. cbn [fst snd].
  destruct run as [|c run]; [reflexivity|].
  rewrite (strip_prefix_app_space (lit "}}") r' ws eq_refl Hws).
  destruct (strip_prefix (lit "}}") r') as [r''|]; [|reflexivity].
  cbn [option_map].
  apply span_app in Hspan as [_ Hrun].
  change (lit "{{/" ++ (lit "IF_" ++ c :: run) ++ lit "}}")
    with ("{"%char :: lit "{/IF_" ++ (c :: run) ++ lit "}}").
  rewrite find_first_app_space; [|
    change ("{"%char :: lit "{/IF_" ++ (c :: run) ++ lit "}}")
      with (lit "{{/IF_" ++ (c :: run) ++ lit "}}");
    rewrite !forallb_app, (cond_run_no_space _ Hrun); reflexivity
    | exact Hws].
  now destruct (find_first _ r'') as [[block rest]|].
Qed.

Lemma str_eqb_app_r (a b ws : str) :
  str_eqb (a ++ ws) (b ++ ws) = str_eqb a b.
Proof.
  destruct (str_eqb a b) eqn:E.
  - apply str_eqb_eq in E. subst. apply str_eqb_refl.
  - apply str_eqb_neq. apply str_eqb_neq in E. intros H. apply E.
    now apply app_inv_tail in H.
Qed.

Section TrailingWhitespace.
Variable registry : dict condition.
Variable env : environ.
Variable ws : str.
Hypothesis Hws : forallb isspace ws = true.

Lemma replace_conditional_extend (recurse : str -> M str) (m : cond_match) :
  replace_conditional registry env recurse (extend_cond_match ws m)
  = replace_conditional registry env recurse m.
Proof. reflexivity. Qed.

Lemma scan_app_space (recurse : str -> M str) (n : nat) :
  forall s,
    length s <= n ->
    sub_conditional_scan (replace_conditional registry env recurse)
      (n + length ws) (s ++ ws)
    = (t <- sub_conditional_scan (replace_conditional registry env recurse)
              n s ;;
       ret (t ++ ws)).
Proof.
  induction n as [|n IH]; intros s Hn.
  - destruct s; [|simpl in Hn; lia]. cbn [app plus].
    now rewrite scan_no_conditional
      by apply brace_free_no_conditional, space_brace_free, Hws.
  - destruct s as [|c s].
    + cbn [app]. now rewrite scan_no_conditional
        by apply brace_free_no_conditional, space_brace_free, Hws.
    + cbn [plus sub_conditional_scan].
      rewrite (match_conditional_app_space (c :: s) ws Hws).
      destruct (match_conditional (c :: s)) as [m|] eqn:Hm; cbn [option_map].
      * pose proof (match_conditional_length _ _ Hm) as Hlen.
        rewrite replace_conditional_extend. cbn [extend_cond_match cm_rest].
        rewrite IH by (simpl in Hn, Hlen; lia).
        destruct (replace_conditional registry env recurse m) as [[r w1]|];
          [|reflexivity].
        cbn [bind].
        destruct (sub_conditional_scan _ n (cm_rest m)) as [[t w2]|];
          [|reflexivity].
        cbn. now rewrite !app_nil_r, app_assoc.
      * cbn [app]. rewrite IH by (simpl in Hn; lia).
        destruct (sub_conditional_scan _ n s) as [[t w2]|]; [|reflexivity].
        cbn. now rewrite !app_nil_r.
Qed.

Lemma passes_app_space (recurse : str -> M str) (k : nat) :
  forall content,
    passes (replace_conditional registry env recurse) k (content ++ ws)
    = (t <- passes (replace_conditional registry env recurse) k content ;;
       ret (t ++ ws)).
Proof.
  induction k as [|k IH]; intros content; [reflexivity|].
  rewrite !passes_S. unfold sub_conditional.
  rewrite length_app, (scan_app_space recurse _ content (le_n _)).
  destruct (sub_conditional_scan _ (length content) content) as [[new w1]|];
    [|reflexivity].
  cbn [bind ret]. rewrite app_nil_r, str_eqb_app_r.
  destruct (str_eqb new content).
  - cbn. now rewrite !app_nil_r.
  - rewrite IH.
    destruct (passes _ k new) as [[out w2]|]; [|reflexivity].
    cbn. now rewrite !app_nil_r.
Qed.

(** The resolver keeps whitespace at the end of the text where it is, and
    raises with it as without it. *)
Lemma resolver_app_space (limit : nat) (content : str) :
  _process_conditionals registry env limit (content ++ ws)
  = (t <- _process_conditionals registry env limit content ;; ret (t ++ ws)).
Proof.
  unfold _process_conditionals.
  now rewrite !process_conditionals_fuel_S, passes_app_space.
Qed.

Lemma match_variable_app_space (s : str) :
  match_variable (s ++ ws)
  = option_map (extend_match ws) (match_variable s).
Proof.
  unfold match_variable.
  rewrite (strip_prefix_app_space (lit "{{") s ws eq_refl Hws).
  destruct (strip_prefix (lit "{{") s) as [[|c r]|]; cbn [option_map app];
    [|
    |reflexivity].
  - destruct ws as [|y ws']; [reflexivity|].
    cbn [forallb] in Hws. apply andb_true_iff in Hws as [Hy _].
    apply isspace_plain in Hy as (_ & _ & _ & Hy). now rewrite Hy.
  - destruct (is_upper c); [|reflexivity].
    rewrite (span_app_space is_name_char r ws
               (fun x Hx => proj1 (proj2 (proj2 (isspace_plain x Hx)))) Hws).
    destruct (span is_name_char r) as [run r']. cbn [fst snd].
    rewrite (strip_prefix_app_space (lit "}}") r' ws eq_refl Hws).
    now destruct (strip_prefix (lit "}}") r').
Qed.

Lemma sub_from_app_space (self : TemplateEngine) (n : nat) :
  forall s d,
    length s <= n ->
    sub_variable_from (replace_variable self) d (s ++ ws)
    = sub_variable_from (replace_variable self) d s ++ ws.
Proof.
  induction n as [|n IH]; intros s d Hn.
  - destruct s; [|simpl in Hn; lia]. cbn [app].
    rewrite <- (app_nil_r ws) at 1.
    rewrite (sub_from_no_open _ ws [] d (space_brace_free ws Hws)).
    cbn. now rewrite app_nil_r.
  - destruct s as [|c s].
    + cbn [app]. rewrite <- (app_nil_r ws) at 1.
      rewrite (sub_from_no_open _ ws [] d (space_brace_free ws Hws)).
      cbn. now rewrite app_nil_r.
    + pose proof (match_variable_app_space (c :: s)) as Happ.
      destruct d.
      * cbn [app]. rewrite !sub_from_copy by (now left).
        cbn [app]. f_equal. apply IH. simpl in Hn. lia.
      * destruct (match_variable (c :: s)) as [m|] eqn:Hm;
          cbn [option_map] in Happ.
        -- pose proof (match_variable_rest_length _ _ Hm) as Hlen.
           rewrite (sub_from_match _ _ _ Happ), (sub_from_match _ _ _ Hm).
           rewrite replace_variable_extend. cbn [extend_match vm_rest].
           rewrite IH by (simpl in Hn, Hlen; lia).
           now rewrite app_assoc.
        -- cbn [app] in *. rewrite !sub_from_copy by (now right).
           cbn [app]. f_equal. apply IH. simpl in Hn. lia.
Qed.
End TrailingWhitespace.

(** X14: whitespace at the end of a template does not reach the output:
    [process_string] gives the same text and prints the same for a template
    and for the template followed by whitespace, and raises for the one when
    it raises for the other. *)
Theorem process_string_trailing_whitespace
  (registry : dict condition) (env : environ) (limit : nat)
  (self : TemplateEngine) (content ws : str) :
  forallb isspace ws = true ->
  process_string registry env limit self (content ++ ws)
  = process_string registry env limit self content.
Proof.
  intros Hws. rewrite !process_string_stages.
  rewrite (resolver_app_space registry env ws Hws limit content).
  destruct (_process_conditionals registry env limit content)
    as [[resolved w]|]; [|reflexivity].
  cbn [bind ret]. rewrite app_nil_r. do 2 f_equal.
  unfold _process_variables, sub_variable.
  rewrite (sub_from_app_space ws Hws self (length resolved) _ _ (le_n _)).
  now rewrite rstrip_app_space.
Qed.

Lemma process_string_trailing_whitespace_witness :
  process_string CONDITIONS [] 250 (__init__ [])
    (lit "name: {{PROJECT_NAME}}" ++ newline ++ newline ++ lit "  ")
  = Some (lit "name: my-project" ++ newline, []).
Proof.
  rewrite (process_string_trailing_whitespace CONDITIONS [] 250 (__init__ [])
             (lit "name: {{PROJECT_NAME}}") (newline ++ newline ++ lit "  ")
             eq_refl).
  reflexivity.
Defined.

(* ========================================================================= *)
(** * Nesting beyond the recursion limit *)
(* ========================================================================= *)

Lemma deep_name_run (k : nat) :
  valid_condition_run (repeat "A"%char (S k)) = true.
Proof.
  assert (H : forall n, forallb is_cond_char (repeat "A"%char n) = true)
    by (induction n as [|n IH]; [reflexivity | exact IH]).
  exact (H (S k)).
Qed.

Lemma deep_name_brace_free (k : nat) : brace_free (deep_name k) = true.
Proof.
  assert (H : forall n, brace_free (repeat "A"%char n) = true)
    by (induction n as [|n IH]; [reflexivity | exact IH]).
  unfold deep_name. rewrite brace_free_app. now rewrite H.
Qed.

(** The registry of the module holds none of the deep names. *)
Lemma deep_name_unknown (k : nat) : dict_get CONDITIONS (deep_name k) = None.
Proof. destruct k; reflexivity. Qed.

(** A run of letters is not a prefix of a shorter run followed by a closing
    brace. *)
Lemma longer_run_mismatch (j k : nat) (x y : str) :
  j < k ->
  strip_prefix (repeat "A"%char k ++ x) (repeat "A"%char j ++ "}"%char :: y)
  = None.
Proof.
  revert k; induction j as [|j IH]; intros [|k] Hlt; try lia.
  - reflexivity.
  - cbn [repeat app strip_prefix]. rewrite Ascii.eqb_refl.
    apply IH. lia.
Qed.

Lemma close_tag_mismatch (j k : nat) (rest : str) :
  j < k ->
  strip_prefix (close_tag (deep_name k)) (close_tag (deep_name j) ++ rest)
  = None.
Proof.
  intros Hlt. unfold close_tag, deep_name.
  replace ((lit "{{/" ++ (lit "IF_" ++ repeat "A"%char (S j)) ++ lit "}}")
           ++ rest)
    with (lit "{{/IF_" ++ repeat "A"%char (S j) ++ "}"%char :: "}"%char :: rest)
    by (cbn [lit list_ascii_of_string app]; now rewrite <- app_assoc).
  change (lit "{{/" ++ (lit "IF_" ++ repeat "A"%char (S k)) ++ lit "}}")
    with (lit "{{/IF_" ++ repeat "A"%char (S k) ++ lit "}}").
  cbn [lit list_ascii_of_string app strip_prefix Ascii.eqb Bool.eqb].
  apply (longer_run_mismatch (S j) (S k)). lia.
Qed.

Section WalkingOverTags.
(** The closing tag that is looked for. *)
Variable wanted : str.
Local Abbreviation P := (close_tag wanted).

Lemma close_tag_head :
  P = "{"%char :: "{"%char :: "/"%char :: wanted ++ lit "}}".
Proof. reflexivity. Qed.

(** It is not found in an opening tag, nor across its end. *)
Lemma find_first_open_tag (name y : str) :
  brace_free name = true ->
  find_first P (open_tag name ++ y)
  = option_map (fun br => (open_tag name ++ fst br, snd br)) (find_first P y).
Proof.
  intros Hname. rewrite close_tag_head. unfold open_tag.
  replace ((lit "{{#" ++ name ++ lit "}}") ++ y)
    with ("{"%char :: "{"%char :: ("#"%char :: name ++ lit "}}") ++ y)
    by (cbn [lit list_ascii_of_string app]; now rewrite <- app_assoc).
  rewrite find_first_two by reflexivity.
  rewrite find_first_skip
    by (cbn [brace_free forallb]; rewrite forallb_app;
        unfold brace_free in Hname; now rewrite Hname).
  destruct (find_first _ y) as [[b r]|]; [|reflexivity].
  cbn [option_map fst snd lit list_ascii_of_string app].
  now rewrite <- app_assoc.
Qed.

(** Nor in a closing tag at whose start it fails. *)
Lemma find_first_close_tag (name y : str) :
  brace_free name = true ->
  strip_prefix P (close_tag name ++ y) = None ->
  find_first P (close_tag name ++ y)
  = option_map (fun br => (close_tag name ++ fst br, snd br))
      (find_first P y).
Proof.
  intros Hname Hfail. rewrite close_tag_head in *. unfold close_tag in *.
  replace ((lit "{{/" ++ name ++ lit "}}") ++ y)
    with ("{"%char :: "{"%char :: ("/"%char :: name ++ lit "}}") ++ y) in *
    by (cbn [lit list_ascii_of_string app]; now rewrite <- app_assoc).
  rewrite find_first_two by (exact Hfail || reflexivity).
  rewrite find_first_skip
    by (cbn [brace_free forallb]; rewrite forallb_app;
        unfold brace_free in Hname; now rewrite Hname).
  destruct (find_first _ y) as [[b r]|]; [|reflexivity].
  cbn [option_map fst snd lit list_ascii_of_string app].
  now rewrite <- app_assoc.
Qed.
End WalkingOverTags.

(** The closing tag of a deep name is not found in a template nested less
    deeply, nor across its end. *)
Lemma find_close_deep (k j : nat) (rest : str) :
  j <= k ->
  find_first (close_tag (deep_name k)) (deep_template j ++ rest)
  = option_map (fun br => (deep_template j ++ fst br, snd br))
      (find_first (close_tag (deep_name k)) rest).
Proof.
  revert rest; induction j as [|j IH]; intros rest Hle.
  - cbn [deep_template app]. now destruct (find_first _ rest) as [[b r]|].
  - cbn [deep_template]. rewrite <- !app_assoc.
    rewrite find_first_open_tag by apply deep_name_brace_free.
    change else_tag with (open_tag (lit "ELSE")).
    rewrite find_first_open_tag by reflexivity.
    rewrite IH by lia.
    rewrite find_first_close_tag;
      [|apply deep_name_brace_free
       |apply (close_tag_mismatch j k rest); lia].
    destruct (find_first _ rest) as [[b r]|]; [|reflexivity].
    cbn [option_map fst snd]. now rewrite <- !app_assoc.
Qed.

(** The pattern matches the whole of a deep template: its outermost block,
    whose body is the ELSE marker and the template one level less deep. *)
Lemma match_deep_template (k : nat) :
  match_conditional (deep_template (S k))
  = Some {| cm_name := deep_name k;
            cm_block := else_tag ++ deep_template k;
            cm_rest := [] |}.
Proof.
  cbn [deep_template].
  apply (match_conditional_block (repeat "A"%char (S k)));
    [apply deep_name_run|].
  fold (deep_name k). change else_tag with (open_tag (lit "ELSE")) at 1.
  rewrite find_first_open_tag by reflexivity.
  rewrite (find_close_deep k k _ (le_n _)).
  rewrite <- (app_nil_r (close_tag (deep_name k))) at 2.
  rewrite find_first_here. cbn [option_map fst snd].
  now rewrite app_nil_r.
Qed.

Lemma split_else_deep (k : nat) :
  split_else (else_tag ++ deep_template k) = ([], deep_template k).
Proof.
  unfold split_else. change (lit "{{#ELSE}}") with else_tag.
  now rewrite find_first_here.
Qed.

Section DeepNesting.
Variable registry : dict condition.
Variable env : environ.
Hypothesis deep_names_unknown :
  forall k, dict_get registry (deep_name k) = None.

(** One pass over a deep template: the outermost condition is unknown, its
    else-branch is the template one level less deep, and the nested call
    resolves that. *)
Lemma pass_deep_template (recurse : str -> M str) (k : nat) :
  sub_conditional (replace_conditional registry env recurse)
    (deep_template (S k))
  = (r <- (_ <- eprint (unknown_condition_warning (deep_name k)) ;;
           recurse (deep_template k)) ;;
     ret (r ++ [])).
Proof.
  rewrite (sub_one_conditional _ _ _ (match_deep_template k)) by reflexivity.
  unfold replace_conditional. cbn [cm_name cm_block cm_rest].
  rewrite split_else_deep. unfold _evaluate_condition.
  rewrite deep_names_unknown.
  cbn [eprint ret bind].
  now destruct (recurse (deep_template k)) as [[r w]|].
Qed.

(** A template nested as deep as the calls that may nest, or deeper, makes
    the resolver raise. *)
Lemma deep_template_raises (fuel : nat) :
  forall k, fuel <= k ->
    process_conditionals_fuel registry env fuel (deep_template k) = None.
Proof.
  induction fuel as [|fuel IH]; intros k Hle; [reflexivity|].
  destruct k as [|k]; [lia|].
  rewrite process_conditionals_fuel_S. unfold max_iterations.
  rewrite passes_S, pass_deep_template, IH by lia. reflexivity.
Qed.

(** A template nested less deep is resolved to nothing, with one warning
    for each level. *)
Lemma deep_template_returns (fuel : nat) :
  forall k, k < fuel ->
    process_conditionals_fuel registry env fuel (deep_template k)
    = Some ([], deep_warnings k).
Proof.
  induction fuel as [|fuel IH]; intros k Hlt; [lia|].
  destruct k as [|k];
    [rewrite process_no_conditional by reflexivity; reflexivity|].
  rewrite process_conditionals_fuel_S. unfold max_iterations.
  rewrite passes_S, pass_deep_template, IH by lia.
  cbn [eprint bind ret app deep_warnings].
  change (str_eqb [] (deep_template (S k))) with false. cbv iota.
  rewrite passes_no_conditional by reflexivity.
  cbn [ret]. now rewrite !app_nil_r.
Qed.
End DeepNesting.

